(** * ZMK debugger: pin-topology extraction and failure localisation

    A shallow embedding of [analyzeFailures] and of
    [ZMKParser.findAndParsePinConfig] from [script.js], together with the
    properties of the failure localiser that the specification states.
    Further sections embed the other stages of [ZMKParser.parse], the
    colours and the state of a diagnosis, the database template with its
    lookups and the constructor of [GitHubFetcher], with properties that
    the code shows.

    Conventions of the embedding.
    - Matrix coordinates and offsets come from [parseInt] on digit strings;
      they are natural numbers here.
    - A JavaScript object with integer-like keys ([{0: pin, 1: pin, ...}],
      the per-row and per-column tables) is a [gmap nat V]; its key
      enumeration ([Object.keys], [for ... in]) is [Object_keys].
    - An object keyed by shield names that is only read through a given
      name is a [gmap string V]; [pinMap], whose key order decides the order
      of the shields, is an association list in key order.
    - A property that may be missing ([undefined]) is an [option].
    - The ratio tests [count / total > 0.6] and [> 0.8] are written with
      cross multiplication ([3 * total < 5 * count], [4 * total < 5 * count]);
      [ratio_tests_agree] checks them against the division of doubles of the
      source for all counts up to 200.
    - The key enumeration of an object with integer keys is ascending for
      keys below 2^32 - 1, as matrix coordinates are.
    - [pinMap] is read and written with shield names that are own keys: a
      name that every object inherits ([inheritedNames]) or an integer-like
      one ([integerLike]) behaves otherwise in the source, and the theorems
      on the parser that depend on it exclude such names by hypothesis.
    - A property name given to [extractGpioList] is taken as text, which is
      what the source does for a name without pattern characters
      ([literalName]). *)

From stdpp Require Import base list strings gmap sorting.
From Stdlib Require Import ZArith Lia Ascii.
From Stdlib Require Import PrimFloat.
From Stdlib Require Uint63.

(** ** Data model *)

(** [{r, c}]: an entry of [matrixMap]. *)
Record MatrixEntry := { r : nat; c : nat }.

(** A value of [pinMap]: the pin tables of one shield. *)
Record PinMap := {
  row : option (gmap nat string);
  col : option (gmap nat string);
  gpios : option (gmap nat string);
  direct : option (gmap nat string);
  interrupt : option string;
  colOffset : option nat;
  rowOffset : option nat
}.

(** The part of [parsedData] that the localiser and the pin extraction use.
    An entry of [matrixMap] may be missing. *)
Record ParsedData := {
  matrixMap : list (option MatrixEntry);
  pinMap : list (string * PinMap);
  diodeDirection : string
}.

(** [obj[k]] on an object given in key order. *)
Fixpoint obj_get {V} (o : list (string * V)) (k : string) : option V :=
  match o with
  | [] => None
  | (k', v) :: o' => if decide (k' = k) then Some v else obj_get o' k
  end.

(** [Object.keys] of an object with integer keys: ascending. *)
Definition Object_keys {V} (o : gmap nat V) : list nat :=
  merge_sort Nat.le (map fst (map_to_list o)).

(** [p.f && Object.keys(p.f).length > 0] *)
Definition nonEmpty (f : option (gmap nat string)) : bool :=
  match f with
  | Some o => bool_decide (0 < length (Object_keys o))
  | None => false
  end.

(** The test of the filter: some pin list of the shield is not empty. *)
Definition hasPins (p : PinMap) : bool :=
  nonEmpty (row p) || nonEmpty (col p) || nonEmpty (gpios p) || nonEmpty (direct p).

(** [Object.keys(parsedData.pinMap).filter(s => ...)] *)
Definition validShields (pd : ParsedData) : list string :=
  filter
    (λ s, Is_true match obj_get (pinMap pd) s with
                  | Some p => hasPins p
                  | None => false
                  end)
    (map fst (pinMap pd)).

(** ** Owner and local coordinates of a key *)

Record Pos := { side : string; physC : nat; physR : nat }.

(** The variables of the loop in [getSideAndPhysCoords]. *)
Record Best := {
  bestShield : string;
  maxMatchScore : Z;
  bestC : nat;
  bestR : nat
}.

(** [parsedData.pinMap[s].colOffset || 0] and the same for rows. *)
Definition offsetC (pd : ParsedData) (s : string) : nat :=
  match obj_get (pinMap pd) s with
  | Some p => default 0 (colOffset p)
  | None => 0
  end.

Definition offsetR (pd : ParsedData) (s : string) : nat :=
  match obj_get (pinMap pd) s with
  | Some p => default 0 (rowOffset p)
  | None => 0
  end.

(** One round of [validShields.forEach(s => ...)]. *)
Definition scanShield (pd : ParsedData) (m : MatrixEntry) (b : Best) (s : string) : Best :=
  if bool_decide (offsetC pd s ≤ c m) && bool_decide (offsetR pd s ≤ r m) then
    let score := Z.of_nat (offsetC pd s + offsetR pd s) in
    if bool_decide (maxMatchScore b < score)%Z then
      {| bestShield := s; maxMatchScore := score;
         bestC := c m - offsetC pd s; bestR := r m - offsetR pd s |}
    else b
  else b.

(** [getSideAndPhysCoords]. It lives after the early return on an empty
    [validShields], so [validShields[0]] exists wherever it is called; the
    head's default below is never used. *)
Definition getSideAndPhysCoords (pd : ParsedData) (om : option MatrixEntry) : Pos :=
  let vs := validShields pd in
  match om with
  | None => {| side := default "common"%string (head vs); physC := 0; physR := 0 |}
  | Some m =>
      let b0 := {| bestShield := default "common"%string (head vs); maxMatchScore := (-1)%Z;
                   bestC := c m; bestR := r m |} in
      let b := fold_left (scanShield pd m) vs b0 in
      {| side := bestShield b; physC := bestC b; physR := bestR b |}
  end.

(** ** Reports *)

Inductive Role := role_in | role_out | role_both.

(** The objects pushed on [report], one constructor per [type]; the last
    argument is always the [indices] field. A [pin] that can be [undefined]
    is an [option]. *)
Inductive Report :=
| RInterrupt (side : string) (pin : string) (indices : list nat)
| RCharlie (side : string) (index : nat) (pin : string) (roleFail : Role)
    (indices : list nat)
| RDirectGnd (side : string) (indices : list nat)
| RDirect (side : string) (pin : string) (index : nat) (indices : list nat)
| RRow (side : string) (row : nat) (pin : option string) (indices : list nat)
| RCol (side : string) (col : nat) (pin : option string) (indices : list nat)
| RSingle (side : string) (r c : nat) (index : nat) (indices : list nat).

Definition indices (rep : Report) : list nat :=
  match rep with
  | RInterrupt _ _ l | RCharlie _ _ _ _ l | RDirectGnd _ l | RDirect _ _ _ l
  | RRow _ _ _ l | RCol _ _ _ l | RSingle _ _ _ _ l => l
  end.

Definition reportSide (rep : Report) : string :=
  match rep with
  | RInterrupt s _ _ | RCharlie s _ _ _ _ | RDirectGnd s _ | RDirect s _ _ _
  | RRow s _ _ _ | RCol s _ _ _ | RSingle s _ _ _ _ => s
  end.

(** The [type] field. *)
Inductive ReportType :=
| t_interrupt | t_charlie | t_direct_gnd | t_direct | t_row | t_col | t_single.

#[global] Instance ReportType_eq_dec : EqDecision ReportType.
Proof. solve_decision. Defined.

Definition reportType (rep : Report) : ReportType :=
  match rep with
  | RInterrupt _ _ _ => t_interrupt
  | RCharlie _ _ _ _ _ => t_charlie
  | RDirectGnd _ _ => t_direct_gnd
  | RDirect _ _ _ _ => t_direct
  | RRow _ _ _ _ => t_row
  | RCol _ _ _ _ => t_col
  | RSingle _ _ _ _ _ => t_single
  end.

Definition isSingle (rep : Report) : bool :=
  match rep with RSingle _ _ _ _ _ => true | _ => false end.

(** ** The tables of steps 2 and 3 *)

(** [{ rows: ..., cols: ... }] and [{ in: ..., out: ... }] *)
Record RC (A : Type) := mkRC { rows : A; cols : A }.
Record IO (A : Type) := mkIO { in_ : A; out : A }.
Arguments mkRC {A} _ _.
Arguments rows {A} _.
Arguments cols {A} _.
Arguments mkIO {A} _ _.
Arguments in_ {A} _.
Arguments out {A} _.

(** [o[k] = (o[k] || 0) + 1] *)
Definition bump (o : gmap nat nat) (k : nat) : gmap nat nat :=
  <[k := S (default 0 (o !! k))]> o.

(** [if (!o[k]) o[k] = []; o[k].push(idx)] *)
Definition pushAt (o : gmap nat (list nat)) (k idx : nat) : gmap nat (list nat) :=
  <[k := default [] (o !! k) ++ [idx]]> o.

(** [parsedData.pinMap[side].gpios] as a condition. *)
Definition hasGpios (pd : ParsedData) (s : string) : bool :=
  match obj_get (pinMap pd) s with
  | Some p => bool_decide (is_Some (gpios p))
  | None => false
  end.

(** [parsedData.matrixMap[idx]] *)
Definition entryAt (pd : ParsedData) (idx : nat) : option MatrixEntry :=
  mjoin (matrixMap pd !! idx).

(** Totals: [counts] and [charlieTotals]. *)
Record Totals := {
  counts : gmap string (RC (gmap nat nat));
  charlieTotals : gmap string (IO (gmap nat nat))
}.

(** Failing keys: [groups] and [charlieCounts]. *)
Record Failing := {
  groups : gmap string (RC (gmap nat (list nat)));
  charlieCounts : gmap string (IO (gmap nat nat))
}.

(** [validShields.forEach(s => { groups[s] = ...; counts[s] = ...; ... })] *)
Definition initTotals (vs : list string) : Totals :=
  fold_left
    (λ t s, {| counts := <[s := mkRC ∅ ∅]> (counts t);
               charlieTotals := <[s := mkIO ∅ ∅]> (charlieTotals t) |})
    vs {| counts := ∅; charlieTotals := ∅ |}.

Definition initFailing (vs : list string) : Failing :=
  fold_left
    (λ t s, {| groups := <[s := mkRC ∅ ∅]> (groups t);
               charlieCounts := <[s := mkIO ∅ ∅]> (charlieCounts t) |})
    vs {| groups := ∅; charlieCounts := ∅ |}.

(** Step 2, the body of [parsedData.matrixMap.forEach((m) => ...)]. A
    shield that has [counts] also has [charlieTotals]; the [None] case of
    the inner lookup does not occur. *)
Definition countKey (pd : ParsedData) (t : Totals) (om : option MatrixEntry) : Totals :=
  match om with
  | None => t
  | Some m =>
      let p := getSideAndPhysCoords pd (Some m) in
      match counts t !! side p with
      | None => t
      | Some cs =>
          let counts' :=
            <[side p := mkRC (bump (rows cs) (physR p)) (bump (cols cs) (physC p))]>
              (counts t) in
          if hasGpios pd (side p) then
            match charlieTotals t !! side p with
            | Some ct =>
                {| counts := counts';
                   charlieTotals :=
                     <[side p := mkIO (bump (in_ ct) (physR p)) (bump (out ct) (physC p))]>
                       (charlieTotals t) |}
            | None => {| counts := counts'; charlieTotals := charlieTotals t |}
            end
          else {| counts := counts'; charlieTotals := charlieTotals t |}
      end
  end.

(** Step 3, the body of [selected.forEach(idx => ...)]. *)
Definition groupKey (pd : ParsedData) (t : Failing) (idx : nat) : Failing :=
  match entryAt pd idx with
  | None => t
  | Some m =>
      let p := getSideAndPhysCoords pd (Some m) in
      match groups t !! side p with
      | None => t
      | Some g =>
          let groups' :=
            <[side p := mkRC (pushAt (rows g) (physR p) idx) (pushAt (cols g) (physC p) idx)]>
              (groups t) in
          if hasGpios pd (side p) then
            match charlieCounts t !! side p with
            | Some cc =>
                {| groups := groups';
                   charlieCounts :=
                     <[side p := mkIO (bump (in_ cc) (physR p)) (bump (out cc) (physC p))]>
                       (charlieCounts t) |}
            | None => {| groups := groups'; charlieCounts := charlieCounts t |}
            end
          else {| groups := groups'; charlieCounts := charlieCounts t |}
      end
  end.

Definition totalsOf (pd : ParsedData) : Totals :=
  fold_left (countKey pd) (matrixMap pd) (initTotals (validShields pd)).

Definition failingOf (pd : ParsedData) (selected : list nat) : Failing :=
  fold_left (groupKey pd) selected (initFailing (validShields pd)).

(** ** Step 4: the pass over one shield *)

(** The two accumulators of step 4. *)
Record Acc := { report : list Report; coveredIndices : gset nat }.

(** [report.push(rep); covered.forEach(idx => coveredIndices.add(idx))] *)
Definition push (rep : Report) (covered : list nat) (a : Acc) : Acc :=
  {| report := report a ++ [rep];
     coveredIndices := coveredIndices a ∪ list_to_set covered |}.

(** [m && test(getSideAndPhysCoords(m))] *)
Definition passes (pd : ParsedData) (test : Pos → bool) (om : option MatrixEntry) : bool :=
  match om with
  | Some m => test (getSideAndPhysCoords pd (Some m))
  | None => false
  end.

(** The members [idx] of [l] whose key has a matrix entry at a position
    that passes [test]. *)
Definition keysOf (pd : ParsedData) (test : Pos → bool) (l : list nat) : list nat :=
  filter (λ idx, Is_true (passes pd test (entryAt pd idx))) l.

(** The indices collected by
    [parsedData.matrixMap.forEach((m, idx) => { if (!m) return; ... })]
    under a test on the key's position. *)
Definition keysWhere (pd : ParsedData) (test : Pos → bool) : list nat :=
  keysOf pd test (seq 0 (length (matrixMap pd))).

Definition onSide (s : string) (p : Pos) : bool := bool_decide (side p = s).

(** [selected.filter(idx => { m = matrixMap[idx]; return m && side(m) === s })] *)
Definition selectedOn (pd : ParsedData) (selected : list nat) (s : string) : list nat :=
  keysOf pd (onSide s) selected.

(** [l.filter(idx => selected.includes(idx))] *)
Definition thoseSelected (selected l : list nat) : list nat :=
  filter (λ idx, idx ∈ selected) l.

(** [o[k] || 'Unknown'] *)
Definition pinOrUnknown (o : gmap nat string) (k : nat) : string :=
  match o !! k with
  | Some p => if bool_decide (p = ""%string) then "Unknown"%string else p
  | None => "Unknown"%string
  end.

(** [total > 0 && (count / total) > 0.6] *)
Definition majority (count total : nat) : bool :=
  bool_decide (0 < total) && bool_decide (3 * total < 5 * count).

(** [(count / total) > 0.8] *)
Definition nearlyAll (count total : nat) : bool :=
  bool_decide (4 * total < 5 * count).

(** The same two tests on the numbers of the source, IEEE doubles: the
    counts as doubles, the rounded quotient, the literals [0.6] and [0.8]
    as their nearest doubles. *)
Definition jsNumber (n : nat) : PrimFloat.float :=
  PrimFloat.of_uint63 (Uint63.of_Z (Z.of_nat n)).

Definition jsMajority (count total : nat) : bool :=
  PrimFloat.ltb 0%float (jsNumber total)
  && PrimFloat.ltb 0x1.3333333333333p-1%float
       (PrimFloat.div (jsNumber count) (jsNumber total)).

Definition jsNearlyAll (count total : nat) : bool :=
  PrimFloat.ltb 0x1.999999999999ap-1%float
    (PrimFloat.div (jsNumber count) (jsNumber total)).

(** Both tests agree with their counterparts on doubles at one pair of
    counts. *)
Definition ratioCell (count total : nat) : bool :=
  Bool.eqb (jsMajority count total) (majority count total)
  && (Nat.eqb total 0 || Bool.eqb (jsNearlyAll count total) (nearlyAll count total)).

(** [f] holds of all pairs of numbers up to [n]. *)
Definition forallPairs (f : nat → nat → bool) (n : nat) : bool :=
  forallb (λ a, forallb (λ b, f b a) (seq 0 (S n))) (seq 0 (S n)).

(** --- Interrupt logic --- *)
Definition interruptPass (pd : ParsedData) (selected : list nat) (s : string)
    (pMap : PinMap) (a : Acc) : Acc :=
  match interrupt pMap with
  | Some pin =>
      if bool_decide (pin ≠ ""%string) then
        let sideIndices := keysWhere pd (onSide s) in
        let sideTotal := length sideIndices in
        let selectedOnSide := length (selectedOn pd selected s) in
        if bool_decide (5 < sideTotal) && nearlyAll selectedOnSide sideTotal
        then push (RInterrupt s pin sideIndices) sideIndices a
        else a
      else a
  | None => a
  end.

(** [new Set([...a, ...b])] as the list of its elements: first occurrences,
    in order. *)
Fixpoint setFrom (seen l : list nat) : list nat :=
  match l with
  | [] => []
  | x :: l' =>
      if bool_decide (x ∈ seen) then setFrom seen l' else x :: setFrom (x :: seen) l'
  end.

Definition roleTest (s : string) (roleFail : Role) (pIdx : nat) (p : Pos) : bool :=
  onSide s p &&
  match roleFail with
  | role_in => bool_decide (physR p = pIdx)
  | role_out => bool_decide (physC p = pIdx)
  | role_both => bool_decide (physR p = pIdx) || bool_decide (physC p = pIdx)
  end.

(** [let roleFail = 'both'; if (inFail && !outFail) roleFail = 'in';
    else if (!inFail && outFail) roleFail = 'out'] *)
Definition roleOf (inFail outFail : bool) : Role :=
  if inFail && negb outFail then role_in
  else if negb inFail && outFail then role_out
  else role_both.

(** The body of [allIndices.forEach(idxStr => ...)]. *)
Definition charliePin (pd : ParsedData) (selected : list nat) (s : string)
    (gp : gmap nat string) (cc ct : IO (gmap nat nat)) (a : Acc) (pIdx : nat) : Acc :=
  let inCount := default 0 (in_ cc !! pIdx) in
  let inTotal := default 0 (in_ ct !! pIdx) in
  let outCount := default 0 (out cc !! pIdx) in
  let outTotal := default 0 (out ct !! pIdx) in
  let inFail := majority inCount inTotal in
  let outFail := majority outCount outTotal in
  if inFail || outFail then
    let roleFail := roleOf inFail outFail in
    let involvedSelected := thoseSelected selected (keysWhere pd (roleTest s roleFail pIdx)) in
    push (RCharlie s pIdx (pinOrUnknown gp pIdx) roleFail involvedSelected) involvedSelected a
  else a.

(** --- Charlieplex Analysis --- The tables of a valid shield exist; the
    [None] cases do not occur. *)
Definition charliePass (pd : ParsedData) (selected : list nat) (T : Totals) (F : Failing)
    (s : string) (gp : gmap nat string) (a : Acc) : Acc :=
  match charlieTotals T !! s, charlieCounts F !! s with
  | Some ct, Some cc =>
      let allIndices := setFrom [] (Object_keys (in_ ct) ++ Object_keys (out ct)) in
      fold_left (charliePin pd selected s gp cc ct) allIndices a
  | _, _ => a
  end.

(** --- Direct GPIO Analysis --- *)
Definition directTest (s : string) (d : gmap nat string) (p : Pos) : bool :=
  onSide s p && bool_decide (is_Some (d !! physC p)).

Definition directKey (pd : ParsedData) (s : string) (d : gmap nat string)
    (a : Acc) (idx : nat) : Acc :=
  let pos := getSideAndPhysCoords pd (entryAt pd idx) in
  push (RDirect s (pinOrUnknown d (physC pos)) idx [idx]) [idx] a.

Definition directPass (pd : ParsedData) (selected : list nat) (s : string)
    (d : gmap nat string) (a : Acc) : Acc :=
  let directIndices := keysWhere pd (directTest s d) in
  let selectedDirectOnSide := thoseSelected selected directIndices in
  if bool_decide (2 < length directIndices)
     && nearlyAll (length selectedDirectOnSide) (length directIndices)
  then push (RDirectGnd s directIndices) directIndices a
  else fold_left (directKey pd s d) selectedDirectOnSide a.

(** --- Standard Matrix Analysis --- *)

(** [table ? table[k] : 'Unknown'] *)
Definition linePin (table : option (gmap nat string)) (k : nat) : option string :=
  match table with
  | Some o => o !! k
  | None => Some "Unknown"%string
  end.

Definition rowLine (s : string) (pMap : PinMap) (g : gmap nat (list nat))
    (tot : gmap nat nat) (a : Acc) (physR : nat) : Acc :=
  let l := default [] (g !! physR) in
  let count := length l in
  let total := default 0 (tot !! physR) in
  if majority count total then
    let pin := linePin (row pMap) physR in
    push (RRow s physR pin l) l a
  else a.

Definition colLine (s : string) (pMap : PinMap) (g : gmap nat (list nat))
    (tot : gmap nat nat) (a : Acc) (physC : nat) : Acc :=
  let l := default [] (g !! physC) in
  let count := length l in
  let total := default 0 (tot !! physC) in
  if majority count total then
    let pin := linePin (col pMap) physC in
    push (RCol s physC pin l) l a
  else a.

(** [counts[side]] of a valid shield exists; a missing table reads as
    empty, which makes every [total] undefined and the test fail. *)
Definition standardPass (T : Totals) (F : Failing) (s : string) (pMap : PinMap)
    (a : Acc) : Acc :=
  match groups F !! s with
  | Some g =>
      let cs := default (mkRC ∅ ∅) (counts T !! s) in
      let a1 := fold_left (rowLine s pMap (rows g) (rows cs)) (Object_keys (rows g)) a in
      fold_left (colLine s pMap (cols g) (cols cs)) (Object_keys (cols g)) a1
  | None => a
  end.

(** --- Single Key Failures --- *)
Definition singleKey (pd : ParsedData) (s : string) (a : Acc) (idx : nat) : Acc :=
  if bool_decide (idx ∈ coveredIndices a) then a
  else
    match entryAt pd idx with
    | Some m =>
        if onSide s (getSideAndPhysCoords pd (Some m))
        then {| report := report a ++ [RSingle s (r m) (c m) idx [idx]];
                coveredIndices := coveredIndices a |}
        else a
    | None => a
    end.

(** The [if (pMap.gpios) ... else if (pMap.direct) ... else ...] of the
    pass over one shield. *)
Definition wiringPass (pd : ParsedData) (selected : list nat) (T : Totals) (F : Failing)
    (s : string) (pMap : PinMap) (a : Acc) : Acc :=
  match gpios pMap with
  | Some gp => charliePass pd selected T F s gp a
  | None =>
      match direct pMap with
      | Some d => directPass pd selected s d a
      | None => standardPass T F s pMap a
      end
  end.

(** The body of [validShields.forEach(side => ...)]. *)
Definition analyzeSide (pd : ParsedData) (selected : list nat) (T : Totals) (F : Failing)
    (a : Acc) (s : string) : Acc :=
  match obj_get (pinMap pd) s with
  | None => a
  | Some pMap =>
      let a1 := interruptPass pd selected s pMap a in
      let a2 := wiringPass pd selected T F s pMap a1 in
      fold_left (singleKey pd s) selected a2
  end.

(** [analyzeFailures], as a function of the two globals it reads:
    [parsedData] and the elements of [state.selectedIndices] in insertion
    order. *)
Definition analyzeFailures (pd : ParsedData) (selected : list nat) : list Report :=
  let vs := validShields pd in
  if bool_decide (length vs = 0) then []
  else
    let T := totalsOf pd in
    let F := failingOf pd selected in
    report (fold_left (analyzeSide pd selected T F) vs
              {| report := []; coveredIndices := ∅ |}).

(** ** Pin-topology extraction: [ZMKParser.findAndParsePinConfig]

    File contents are strings of bytes; the regular expressions of the
    source are written out as the scans they perform. [\s] is the ASCII
    white space. *)

Definition isSpace (ch : ascii) : bool :=
  let n := nat_of_ascii ch in
  bool_decide (n = 32) || bool_decide (9 ≤ n ≤ 13).

(** The characters of a text. *)
Fixpoint chars (s : string) : list ascii :=
  match s with
  | EmptyString => []
  | String ch s' => ch :: chars s'
  end.

Definition isDigit (ch : ascii) : bool :=
  let n := nat_of_ascii ch in bool_decide (48 ≤ n ≤ 57).

(** [s.includes(sub)] *)
Definition includes (s sub : string) : bool :=
  bool_decide (is_Some (String.index 0 sub s)).

Fixpoint dropStr (n : nat) (s : string) : string :=
  match n, s with
  | S n', String _ s' => dropStr n' s'
  | _, _ => s
  end.

(** [\s*] at the head of [s]: what is left after it. *)
Fixpoint skipSpace (s : string) : string :=
  match s with
  | String ch s' => if isSpace ch then skipSpace s' else s
  | EmptyString => s
  end.

(** The text up to the first [stop], and what follows that character. *)
Fixpoint upTo (stop : ascii) (s : string) : option (string * string) :=
  match s with
  | EmptyString => None
  | String ch s' =>
      if bool_decide (ch = stop) then Some (EmptyString, s')
      else match upTo stop s' with
           | Some (a, b) => Some (String ch a, b)
           | None => None
           end
  end.

(** The leftmost match of a pattern that is tried at every position. *)
Fixpoint firstMatch {A} (f : string → option A) (s : string) : option A :=
  match f s with
  | Some a => Some a
  | None =>
      match s with
      | String _ s' => firstMatch f s'
      | EmptyString => None
      end
  end.



(** [name\s*=] at the head of [s]: what follows the [=]. The name is
    compared as text, as the pattern does for a [literalName]. *)
Definition assignAt (name s : string) : option string :=
  if String.prefix name s then
    match skipSpace (dropStr (String.length name) s) with
    | String "="%char rest => Some rest
    | _ => None
    end
  else None.

(** The double quote character. *)
Definition dquote : ascii := ascii_of_nat 34.

(** The pattern of [diodeMatch] at the head of [s]: [diode-direction], white
    space, [=], white space, then a non-empty run of characters other than
    the double quote between two double quotes; the run is the result. *)
Definition diodeAt (s : string) : option string :=
  match assignAt "diode-direction" s with
  | Some rest =>
      match skipSpace rest with
      | String ch rest' =>
          if bool_decide (ch = dquote) then
            match upTo dquote rest' with
            | Some (v, _) => if bool_decide (v = EmptyString) then None else Some v
            | None => None
            end
          else None
      | EmptyString => None
      end
  | None => None
  end.

Definition diodeMatch (content : string) : option string :=
  firstMatch diodeAt content.

(** [(?:^|[\s;])name\s*=]: the leftmost match, as what follows its [=]. *)
Fixpoint afterSeparator (name s : string) : option string :=
  match s with
  | String ch s' =>
      if isSpace ch || bool_decide (ch = ";"%char) then
        match assignAt name s' with
        | Some rest => Some rest
        | None => afterSeparator name s'
        end
      else afterSeparator name s'
  | EmptyString => None
  end.

Definition propertyAssign (name content : string) : option string :=
  match assignAt name content with
  | Some rest => Some rest
  | None => afterSeparator name content
  end.

(** [inner.split(/[\s,<>]+/).filter(t => t.length > 0)] *)
Definition isDelimiter (ch : ascii) : bool :=
  isSpace ch || bool_decide (ch = ","%char) || bool_decide (ch = "<"%char)
  || bool_decide (ch = ">"%char).

Fixpoint tokensOf (cur : string) (s : string) : list string :=
  match s with
  | EmptyString => if bool_decide (cur = EmptyString) then [] else [cur]
  | String ch s' =>
      if isDelimiter ch then
        if bool_decide (cur = EmptyString) then tokensOf EmptyString s'
        else cur :: tokensOf EmptyString s'
      else tokensOf (cur +:+ String ch EmptyString) s'
  end.

(** The loop of [extractGpioList] over the tokens: a token that starts with
    [&] gives the pin [phandle pinNum] without its [&]; a missing next token
    prints as [undefined]. *)
Fixpoint pinsOf (tokens : list string) : list string :=
  match tokens with
  | [] => []
  | t :: rest =>
      match t with
      | String "&"%char name =>
          (name +:+ " " +:+ default "undefined"%string (head rest)) :: pinsOf rest
      | _ => pinsOf rest
      end
  end.

(** [extractGpioList(content, propName)]; the list [p0; p1; ...] stands for
    the object [{0: p0, 1: p1, ...}] that the source builds. The pattern is
    [(?:^|[\s;])propName\s*=[\s\S]*?<([\s\S]*?);], built from [propName]
    as it is given. The scan below takes [propName] as text: it is the
    pattern's match when [propName] is a [literalName], as the five names of
    the call sites are ([row-gpios], [col-gpios], [gpios], [interrupt-gpios],
    [input-gpios]). With a pattern character in it the source matches
    something else or throws; that case is outside this definition. *)
Definition extractGpioList (content propName : string) : list string :=
  match propertyAssign propName content with
  | Some rest =>
      match upTo "<"%char rest with
      | Some (_, afterOpen) =>
          match upTo ";"%char afterOpen with
          | Some (inner, _) => pinsOf (tokensOf EmptyString inner)
          | None => []
          end
      | None => []
      end
  | None => []
  end.

(** The object [{0: p0, 1: p1, ...}]. *)
Definition pinsObj (l : list string) : gmap nat string :=
  list_to_map (zip (seq 0 (length l)) l).

(** [Object.assign(target, pins)] *)
Definition assignPins (target : option (gmap nat string)) (l : list string)
    : option (gmap nat string) :=
  Some (pinsObj l ∪ default ∅ target).

(** An integer-like key: the decimal numeral of a natural number, without
    a leading zero. An object lists such keys (those below 2^32 - 1) before
    its other keys and in ascending order, whenever they were created. *)
Definition integerLike (k : string) : bool :=
  match k with
  | EmptyString => false
  | String ch rest =>
      isDigit ch && forallb isDigit (chars rest)
      && (negb (bool_decide (ch = "0"%char)) || bool_decide (rest = EmptyString))
  end.

(** [o[k] = v] on an object given in key order: a key that is there keeps
    its place, a new key goes last. This is the key order of the source for
    keys that are not [integerLike]; a new integer-like key would be listed
    before the others, which this definition does not do. *)
Fixpoint obj_set {V} (o : list (string * V)) (k : string) (v : V) : list (string * V) :=
  match o with
  | [] => [(k, v)]
  | (k', v') :: o' =>
      if decide (k' = k) then (k, v) :: o' else (k', v') :: obj_set o' k v
  end.

(** [{ row: {}, col: {} }] *)
Definition freshPinMap : PinMap :=
  {| row := Some ∅; col := Some ∅; gpios := None; direct := None;
     interrupt := None; colOffset := None; rowOffset := None |}.

(** The names that every object inherits: [pinMap[s]] is not [undefined]
    for them, whether [pinMap] has an entry or not. *)
Definition inheritedNames : list string :=
  ["constructor"; "hasOwnProperty"; "isPrototypeOf"; "propertyIsEnumerable";
   "toLocaleString"; "toString"; "valueOf"; "__proto__"; "__defineGetter__";
   "__defineSetter__"; "__lookupGetter__"; "__lookupSetter__"]%string.

(** None of the names is inherited: for such shields [pinMap[s]] finds the
    entries that the parser made, and nothing else. *)
Definition ownNames (l : list string) : Prop := Forall (λ s, s ∉ inheritedNames) l.

(** Every entry of [pinMap] has its [row] and its [col] table, as the
    entries that the parser makes have. *)
Definition rowColTables (res : ParsedData) : Prop :=
  Forall (λ e, is_Some (row e.2) ∧ is_Some (col e.2)) (pinMap res).

(** The shield's entry after
    [if (!this.result.pinMap[s]) this.result.pinMap[s] = { row: {}, col: {} }].
    A missing entry reads as [undefined] for a name that is not inherited;
    for one of [inheritedNames] the source finds the inherited member, makes
    no entry and goes on with that member. The steps below are those of the
    source for shields with [ownNames]. *)
Definition entryOf (res : ParsedData) (s : string) : PinMap :=
  default freshPinMap (obj_get (pinMap res) s).

Definition setEntry (res : ParsedData) (s : string) (p : PinMap) : ParsedData :=
  {| matrixMap := matrixMap res; pinMap := obj_set (pinMap res) s p;
     diodeDirection := diodeDirection res |}.

Definition setDiode (res : ParsedData) (d : string) : ParsedData :=
  {| matrixMap := matrixMap res; pinMap := pinMap res; diodeDirection := d |}.

(** The side of a file: the first shield whose name the file name contains,
    [common] when there is none. *)
Definition sideOf (shields : list string) (filename : string) : string :=
  default "common"%string (head (filter (λ s, Is_true (includes filename s)) shields)).

Definition targetSides (shields : list string) (filename : string) : list string :=
  if bool_decide (sideOf shields filename = "common"%string) then shields
  else [sideOf shields filename].

(** The three [targetSides.forEach(s => ...)] of one file. In the first,
    [Object.assign(this.result.pinMap[s].row, rowGpios)] needs the [row]
    table of the entry (and the same for [col]): on an entry without it the
    source throws. The entries that the parser makes have both
    ([rowColTables]), and the steps keep them; the default of [assignPins]
    is not used then. *)
Definition standardStep (rowGpios colGpios : list string) (res : ParsedData) (s : string)
    : ParsedData :=
  let p := entryOf res s in
  setEntry res s
    {| row := if bool_decide (0 < length rowGpios) then assignPins (row p) rowGpios else row p;
       col := if bool_decide (0 < length colGpios) then assignPins (col p) colGpios else col p;
       gpios := gpios p; direct := direct p; interrupt := interrupt p;
       colOffset := colOffset p; rowOffset := rowOffset p |}.

Definition charlieStep (gp intGpios : list string) (res : ParsedData) (s : string)
    : ParsedData :=
  let p := entryOf res s in
  let res1 :=
    setEntry res s
      {| row := row p; col := col p;
         gpios := if bool_decide (0 < length gp) then assignPins (gpios p) gp else gpios p;
         direct := direct p;
         interrupt := if bool_decide (0 < length intGpios) then head intGpios else interrupt p;
         colOffset := colOffset p; rowOffset := rowOffset p |} in
  if bool_decide (0 < length gp) then setDiode res1 "col2row" else res1.

Definition directStep (directGpios : list string) (res : ParsedData) (s : string)
    : ParsedData :=
  let p := entryOf res s in
  let res1 :=
    setEntry res s
      {| row := row p; col := col p; gpios := gpios p;
         direct := if bool_decide (0 < length directGpios)
                   then assignPins (direct p) directGpios else direct p;
         interrupt := interrupt p;
         colOffset := colOffset p; rowOffset := rowOffset p |} in
  if bool_decide (0 < length directGpios) then setDiode res1 "row2col" else res1.

Definition isStandard (content : string) : bool :=
  includes content "row-gpios" || includes content "col-gpios".

Definition isCharlieMode (content : string) : bool :=
  (includes content "compatible" && includes content "zmk,kscan-gpio-charlieplex")
  || (bool_decide (is_Some (propertyAssign "gpios" content))
      && negb (includes content "row-gpios") && negb (includes content "col-gpios")).

Definition isDirectMode (content : string) : bool :=
  (includes content "compatible" && includes content "zmk,kscan-gpio-direct")
  || (includes content "input-gpios"
      && negb (includes content "row-gpios") && negb (includes content "col-gpios")).

(** The body of the loop over [Object.entries(this.rawFiles)]. *)
Definition pinConfigFile (shields : list string) (res : ParsedData)
    (file : string * string) : ParsedData :=
  let '(filename, content) := file in
  let res0 :=
    match diodeMatch content with
    | Some d => setDiode res d
    | None => res
    end in
  let targets := targetSides shields filename in
  if bool_decide (length targets = 0)
     && bool_decide (sideOf shields filename = "common"%string)
  then res0
  else
    let res1 :=
      if isStandard content then
        fold_left
          (standardStep (extractGpioList content "row-gpios")
             (extractGpioList content "col-gpios"))
          targets res0
      else res0 in
    let res2 :=
      if isCharlieMode content then
        fold_left
          (charlieStep (extractGpioList content "gpios")
             (extractGpioList content "interrupt-gpios"))
          targets res1
      else res1 in
    if isDirectMode content then
      fold_left (directStep (extractGpioList content "input-gpios")) targets res2
    else res2.

Definition findAndParsePinConfig (shields : list string)
    (rawFiles : list (string * string)) (res : ParsedData) : ParsedData :=
  fold_left (pinConfigFile shields) rawFiles res.

(** [this.result] as the constructor leaves it. *)
Definition initialResult : ParsedData :=
  {| matrixMap := []; pinMap := []; diodeDirection := "col2row" |}.

(** ** The globals of the page and a call of the localiser *)

(** [parsedData] and [state.selectedIndices]; the set is the list of its
    elements in insertion order. *)
Record World := {
  parsedData : ParsedData;
  selectedIndices : list nat
}.

(** A call of [analyzeFailures()] in terms of the globals alone: the
    returned list and the globals after the call. The body is embedded
    statement by statement as [analyzeFailuresBody] below. *)
Definition callAnalyzeFailures (w : World) : list Report * World :=
  (analyzeFailures (parsedData w) (selectedIndices w), w).

(** The caller toggles a key between two calls ([state.selectedIndices]). *)
Definition setSelection (sel : list nat) (w : World) : World :=
  {| parsedData := parsedData w; selectedIndices := sel |}.

(** ** The body of [analyzeFailures], statement by statement

    The variables that the body declares, next to the globals:
    [selected], [validShields], the tables [counts] and [charlieTotals],
    the tables [groups] and [charlieCounts], and [report] with
    [coveredIndices]. A call declares them anew. Here they stay in the store
    when the call returns, with what the call left in them, so that one can
    say what a later call makes of them. *)
Record Frame := {
  v_selected : list nat;
  v_validShields : list string;
  v_totals : Totals;
  v_failing : Failing;
  v_acc : Acc
}.

Record Store := { globals : World; frame : Frame }.

(** Assignments to the variables of the body. *)
Definition setSelected (l : list nat) (st : Store) : Store :=
  {| globals := globals st;
     frame := {| v_selected := l; v_validShields := v_validShields (frame st);
                 v_totals := v_totals (frame st); v_failing := v_failing (frame st);
                 v_acc := v_acc (frame st) |} |}.

Definition setValidShields (l : list string) (st : Store) : Store :=
  {| globals := globals st;
     frame := {| v_selected := v_selected (frame st); v_validShields := l;
                 v_totals := v_totals (frame st); v_failing := v_failing (frame st);
                 v_acc := v_acc (frame st) |} |}.

Definition setTotals (t : Totals) (st : Store) : Store :=
  {| globals := globals st;
     frame := {| v_selected := v_selected (frame st);
                 v_validShields := v_validShields (frame st);
                 v_totals := t; v_failing := v_failing (frame st);
                 v_acc := v_acc (frame st) |} |}.

Definition setFailing (t : Failing) (st : Store) : Store :=
  {| globals := globals st;
     frame := {| v_selected := v_selected (frame st);
                 v_validShields := v_validShields (frame st);
                 v_totals := v_totals (frame st); v_failing := t;
                 v_acc := v_acc (frame st) |} |}.

Definition setAcc (a : Acc) (st : Store) : Store :=
  {| globals := globals st;
     frame := {| v_selected := v_selected (frame st);
                 v_validShields := v_validShields (frame st);
                 v_totals := v_totals (frame st); v_failing := v_failing (frame st);
                 v_acc := a |} |}.

(** [const selected = Array.from(state.selectedIndices)] *)
Definition declSelected (st : Store) : Store :=
  setSelected (selectedIndices (globals st)) st.

(** [const report = []] *)
Definition declReport (st : Store) : Store :=
  setAcc {| report := []; coveredIndices := coveredIndices (v_acc (frame st)) |} st.

(** [const validShields = Object.keys(parsedData.pinMap).filter(...)] *)
Definition declValidShields (st : Store) : Store :=
  setValidShields (validShields (parsedData (globals st))) st.

(** [const groups = {}; const counts = {}; const charlieCounts = {};
    const charlieTotals = {}] *)
Definition declTables (st : Store) : Store :=
  setTotals {| counts := ∅; charlieTotals := ∅ |}
    (setFailing {| groups := ∅; charlieCounts := ∅ |} st).

(** The body of [validShields.forEach(s => { groups[s] = ...; ... })]. *)
Definition initShield (st : Store) (s : string) : Store :=
  setTotals
    {| counts := <[s := mkRC ∅ ∅]> (counts (v_totals (frame st)));
       charlieTotals := <[s := mkIO ∅ ∅]> (charlieTotals (v_totals (frame st))) |}
    (setFailing
       {| groups := <[s := mkRC ∅ ∅]> (groups (v_failing (frame st)));
          charlieCounts := <[s := mkIO ∅ ∅]> (charlieCounts (v_failing (frame st))) |}
       st).

Definition initTables (st : Store) : Store :=
  fold_left initShield (v_validShields (frame st)) st.

(** Step 2: [parsedData.matrixMap.forEach((m) => ...)]. The helper
    [getSideAndPhysCoords] reads [validShields], which holds the valid
    shields of [parsedData] by then. *)
Definition countKeys (st : Store) : Store :=
  setTotals
    (fold_left (countKey (parsedData (globals st))) (matrixMap (parsedData (globals st)))
       (v_totals (frame st)))
    st.

(** Step 3: [selected.forEach(idx => ...)] *)
Definition groupKeys (st : Store) : Store :=
  setFailing
    (fold_left (groupKey (parsedData (globals st))) (v_selected (frame st))
       (v_failing (frame st)))
    st.

(** [const coveredIndices = new Set()] *)
Definition declCovered (st : Store) : Store :=
  setAcc {| report := report (v_acc (frame st)); coveredIndices := ∅ |} st.

(** Step 4: [validShields.forEach(side => ...)] *)
Definition analyzeSides (st : Store) : Store :=
  setAcc
    (fold_left
       (analyzeSide (parsedData (globals st)) (v_selected (frame st))
          (v_totals (frame st)) (v_failing (frame st)))
       (v_validShields (frame st)) (v_acc (frame st)))
    st.

(** The body, with its early [return []] and its final [return report]:
    the returned list and the store that the call leaves. *)
Definition analyzeFailuresBody (st : Store) : list Report * Store :=
  let st1 := declValidShields (declReport (declSelected st)) in
  if bool_decide (length (v_validShields (frame st1)) = 0) then ([], st1)
  else
    let st2 :=
      analyzeSides (declCovered (groupKeys (countKeys (initTables (declTables st1))))) in
    (report (v_acc (frame st2)), st2).

(** The caller changes the failing set between two calls; what the earlier
    call left in the variables of the body is still in the store. *)
Definition select (sel : list nat) (st : Store) : Store :=
  {| globals := setSelection sel (globals st); frame := frame st |}.

(** The report with another [indices] field. *)
Definition withIndices (rep : Report) (l : list nat) : Report :=
  match rep with
  | RInterrupt s pin _ => RInterrupt s pin l
  | RCharlie s index pin roleFail _ => RCharlie s index pin roleFail l
  | RDirectGnd s _ => RDirectGnd s l
  | RDirect s pin index _ => RDirect s pin index l
  | RRow s k pin _ => RRow s k pin l
  | RCol s k pin _ => RCol s k pin l
  | RSingle s row col index _ => RSingle s row col index l
  end.

(** Two reports that differ at most in the order of their [indices]. *)
Definition sameKeys (rep rep' : Report) : Prop :=
  rep' = withIndices rep (indices rep') ∧ indices rep ≡ₚ indices rep'.

(** ** Notions used in the statements *)

(** The accumulators at the start of step 4. *)
Definition noReports : Acc := {| report := []; coveredIndices := ∅ |}.

(** Several pushes in a row. *)
Definition pushAll (L : list Report) (a : Acc) : Acc :=
  {| report := report a ++ L;
     coveredIndices := coveredIndices a ∪ list_to_set (L ≫= indices) |}.

(** A pass that only pushes reports, the same whatever it starts from. *)
Definition Pushes (f : Acc → Acc) : Prop :=
  ∀ a, f a = pushAll (report (f noReports)) a.

(** The tests on a position: the key is on row (column) [k] of shield [s]. *)
Definition rowTest (s : string) (k : nat) : Pos → bool := roleTest s role_in k.
Definition colTest (s : string) (k : nat) : Pos → bool := roleTest s role_out k.

(** [count / total > 0.6] and [count / total > 0.8]. *)
Definition over60 (count total : nat) : Prop := 3 * total < 5 * count.
Definition over80 (count total : nat) : Prop := 4 * total < 5 * count.

(** A table entry as the loops of steps 2 and 3 leave it: missing while
    nothing was counted. *)
Definition counted (n : nat) : option nat := if decide (n = 0) then None else Some n.
Definition grouped (l : list nat) : option (list nat) :=
  if decide (l = []) then None else Some l.

(** The reports of one shield's pass before its single keys: the interrupt
    report and those of its wiring mode. *)
Definition lineReports (pd : ParsedData) (selected : list nat) (s : string) : list Report :=
  match obj_get (pinMap pd) s with
  | Some pMap =>
      report (wiringPass pd selected (totalsOf pd) (failingOf pd selected) s pMap
                (interruptPass pd selected s pMap noReports))
  | None => []
  end.

(** The reports of type [t] of shield [s] in a report list. *)
Definition reportsOf (t : ReportType) (s : string) (l : list Report) : list Report :=
  filter (λ rep, reportType rep = t ∧ reportSide rep = s) l.

(** The [direct] report of a key. *)
Definition directOf (pd : ParsedData) (s : string) (d : gmap nat string) (idx : nat)
    : Report :=
  RDirect s (pinOrUnknown d (physC (getSideAndPhysCoords pd (entryAt pd idx)))) idx [idx].

(** The [single] report of a key. *)
Definition singleOf (pd : ParsedData) (s : string) (idx : nat) : Report :=
  match entryAt pd idx with
  | Some m => RSingle s (r m) (c m) idx [idx]
  | None => RSingle s 0 0 idx [idx]
  end.

(** The [single] reports of a shield, given the covered keys. *)
Definition singlesOf (pd : ParsedData) (s : string) (covered : gset nat)
    (selected : list nat) : list Report :=
  map (singleOf pd s)
    (filter (λ idx, (idx ∉ covered) ∧ Is_true (passes pd (onSide s) (entryAt pd idx)))
       selected).

(** The key [idx] has a matrix entry and belongs to shield [s]. *)
Definition keyOn (pd : ParsedData) (s : string) (idx : nat) : Prop :=
  ∃ m, entryAt pd idx = Some m ∧ side (getSideAndPhysCoords pd (Some m)) = s.

(** The reports of one shield's pass. *)
Definition sideReports (pd : ParsedData) (selected : list nat) (s : string) : list Report :=
  report (analyzeSide pd selected (totalsOf pd) (failingOf pd selected) noReports s).

(** The shield's offsets are both at most the key's coordinates. *)
Definition qualifies (pd : ParsedData) (m : MatrixEntry) (s : string) : Prop :=
  offsetC pd s ≤ c m ∧ offsetR pd s ≤ r m.

Definition score (pd : ParsedData) (s : string) : nat := offsetC pd s + offsetR pd s.

(** What the loop of [getSideAndPhysCoords] has established after the
    shields [l], started from [b0]. *)
Definition scanned (pd : ParsedData) (m : MatrixEntry) (b0 : Best) (l : list string)
    (b : Best) : Prop :=
  (b = b0 ∧ Forall (λ s, ¬ qualifies pd m s) l)
  ∨ (∃ l1 l2, l = l1 ++ bestShield b :: l2
       ∧ qualifies pd m (bestShield b)
       ∧ maxMatchScore b = Z.of_nat (score pd (bestShield b))
       ∧ bestC b = c m - offsetC pd (bestShield b)
       ∧ bestR b = r m - offsetR pd (bestShield b)
       ∧ Forall (λ s, qualifies pd m s → score pd s < score pd (bestShield b)) l1
       ∧ Forall (λ s, qualifies pd m s → score pd s ≤ score pd (bestShield b)) l2).

(** The position of the key [idx], when it has a matrix entry. *)
Definition posOf (pd : ParsedData) (idx : nat) : option Pos :=
  match entryAt pd idx with
  | Some m => Some (getSideAndPhysCoords pd (Some m))
  | None => None
  end.

(** The owner is chosen among the qualifying valid shields, with the
    largest offset sum, and the local coordinates are the logical ones
    minus its offsets. *)
Definition resolvedAmongQualifying (pd : ParsedData) (m : MatrixEntry) : Prop :=
  let p := getSideAndPhysCoords pd (Some m) in
  side p ∈ validShields pd
  ∧ qualifies pd m (side p)
  ∧ (∀ s, s ∈ validShields pd → qualifies pd m s → score pd s ≤ score pd (side p))
  ∧ physC p = c m - offsetC pd (side p)
  ∧ physR p = r m - offsetR pd (side p).

(** ** Example topologies *)

Definition noPins : PinMap :=
  {| row := None; col := None; gpios := None; direct := None;
     interrupt := None; colOffset := None; rowOffset := None |}.

(** A split keyboard: [left] at the origin, [right] shifted by six columns. *)
Definition splitPinMap : list (string * PinMap) :=
  [("left"%string,
    {| row := Some (pinsObj ["gpio0 1"; "gpio0 2"; "gpio0 3"]%string);
       col := Some (pinsObj ["gpio1 1"; "gpio1 2"; "gpio1 3"; "gpio1 4"]%string);
       gpios := None; direct := None; interrupt := None;
       colOffset := None; rowOffset := None |});
   ("right"%string,
    {| row := Some (pinsObj ["gpio0 1"; "gpio0 2"; "gpio0 3"]%string);
       col := Some (pinsObj ["gpio1 1"; "gpio1 2"; "gpio1 3"; "gpio1 4"]%string);
       gpios := None; direct := None; interrupt := None;
       colOffset := Some 6; rowOffset := None |})].

Definition entry (row col : nat) : option MatrixEntry := Some {| r := row; c := col |}.

Definition splitBoard : ParsedData :=
  {| matrixMap := [entry 0 0; entry 0 1; entry 0 2; entry 0 3;
                   entry 2 8; entry 1 0; entry 1 1];
     pinMap := splitPinMap; diodeDirection := "col2row" |}.

(** A store in which an earlier call has left its tables and its report,
    with the keys 0 and 6 of the split keyboard now selected. *)
Definition staleStore : Store :=
  {| globals := {| parsedData := splitBoard; selectedIndices := [0; 6] |};
     frame :=
       {| v_selected := [5];
          v_validShields := ["right"%string];
          v_totals := {| counts := {["right"%string := mkRC {[0 := 7]} ∅]};
                         charlieTotals := ∅ |};
          v_failing := {| groups := {["right"%string := mkRC {[0 := [5]]} ∅]};
                          charlieCounts := ∅ |};
          v_acc := {| report := [RDirectGnd "left" [5]]; coveredIndices := {[5]} |} |} |}.

(** Only the shifted half has pins. *)
Definition rightOnlyBoard : ParsedData :=
  {| matrixMap := [entry 0 2; entry 2 8];
     pinMap := [("left"%string, freshPinMap);
                ("right"%string,
                 {| row := Some (pinsObj ["gpio0 1"]%string); col := Some ∅;
                    gpios := None; direct := None; interrupt := None;
                    colOffset := Some 6; rowOffset := None |})];
     diodeDirection := "col2row" |}.

(** A pad wired as a charlieplex with an interrupt pin: ordinal 0 is the
    row of three keys and the column of two. *)
Definition charlieBoard : ParsedData :=
  {| matrixMap := [entry 0 1; entry 0 2; entry 0 3; entry 1 0; entry 2 0; entry 1 2];
     pinMap := [("pad"%string,
                 {| row := Some ∅; col := Some ∅;
                    gpios := Some (pinsObj ["gpio0 1"; "gpio0 2"; "gpio0 3"; "gpio0 4"]%string);
                    direct := None; interrupt := Some "gpio0 9"%string;
                    colOffset := None; rowOffset := None |})];
     diodeDirection := "col2row" |}.

(** A pad with five keys wired directly. *)
Definition directBoard : ParsedData :=
  {| matrixMap := [entry 0 0; entry 0 1; entry 0 2; entry 0 3; entry 0 4];
     pinMap := [("pad"%string,
                 {| row := Some ∅; col := Some ∅; gpios := None;
                    direct := Some (pinsObj ["gpio0 1"; "gpio0 2"; "gpio0 3";
                                             "gpio0 4"; "gpio0 5"]%string);
                    interrupt := None; colOffset := None; rowOffset := None |})];
     diodeDirection := "row2col" |}.

(** A pad with a direct pin list next to an empty [gpios] object. *)
Definition emptyGpiosBoard : ParsedData :=
  {| matrixMap := [entry 0 0];
     pinMap := [("pad"%string,
                 {| row := None; col := None; gpios := Some ∅;
                    direct := Some (pinsObj ["gpio0 1"]%string);
                    interrupt := None; colOffset := None; rowOffset := None |})];
     diodeDirection := "row2col" |}.

(** Shields without any pin. *)
Definition noPinsBoard : ParsedData :=
  {| matrixMap := [entry 0 0; entry 0 1];
     pinMap := [("left"%string, noPins); ("right"%string, freshPinMap)];
     diodeDirection := "col2row" |}.

(** ** The diode direction a file leaves *)

(** The direction that the wiring recognised in a file forces: [row2col]
    when the file is taken as direct wiring and gives input pins, else
    [col2row] when it is taken as a charlieplex and gives pins; none when the
    file has no shield to apply to. *)
Definition wiringDirection (shields : list string) (file : string * string)
    : option string :=
  let '(filename, content) := file in
  if bool_decide (length (targetSides shields filename) = 0) then None
  else if isDirectMode content
          && bool_decide (0 < length (extractGpioList content "input-gpios"))
  then Some "row2col"%string
  else if isCharlieMode content
          && bool_decide (0 < length (extractGpioList content "gpios"))
  then Some "col2row"%string
  else None.

(** The direction a file writes, if it writes one: the forced one, else the
    declared one. *)
Definition fileDirection (shields : list string) (file : string * string)
    : option string :=
  match wiringDirection shields file with
  | Some d => Some d
  | None => diodeMatch (snd file)
  end.

(** ** Example files *)

Definition quoted (s : string) : string :=
  String dquote EmptyString +:+ s +:+ String dquote EmptyString.

(** The overlay of a half wired as a charlieplex. *)
Definition charlieOverlay : string * string :=
  ("boards/shields/kb/kb_left.overlay"%string,
   "kscan0: kscan { compatible = " +:+ quoted "zmk,kscan-gpio-charlieplex"
   +:+ "; gpios = <&pro_micro 1 0>, <&pro_micro 2 0>, <&pro_micro 3 0>;"
   +:+ " interrupt-gpios = <&pro_micro 9 0>; };").

(** The overlay of a half wired as a matrix that declares its diodes. *)
Definition matrixOverlay : string * string :=
  ("boards/shields/kb/kb_right.overlay"%string,
   "kscan0: kscan { compatible = " +:+ quoted "zmk,kscan-gpio-matrix"
   +:+ "; diode-direction = " +:+ quoted "row2col"
   +:+ "; row-gpios = <&pro_micro 4 0>, <&pro_micro 5 0>;"
   +:+ " col-gpios = <&pro_micro 6 0>, <&pro_micro 7 0>; };").

(** A charlieplex node whose pins are declared in another file. *)
Definition charlieNoPins : string * string :=
  ("boards/shields/kb/kb_left.dtsi"%string,
   "kscan0: kscan { compatible = " +:+ quoted "zmk,kscan-gpio-charlieplex"
   +:+ "; diode-direction = " +:+ quoted "row2col" +:+ "; };").

Definition kbShields : list string := ["kb_left"; "kb_right"]%string.

(** ** Further notions used in the statements *)

(** The key [idx] has a matrix entry. *)
Definition hasEntry (pd : ParsedData) (idx : nat) : Prop := is_Some (entryAt pd idx).

(** The reports of a valid shield in the order in which its pass pushes
    them: the interrupt report, the reports of its wiring mode, the single
    keys that none of them covers. *)
Definition passReports (pd : ParsedData) (selected : list nat) (s : string) : list Report :=
  match obj_get (pinMap pd) s with
  | Some pMap =>
      let first := report (interruptPass pd selected s pMap noReports) in
      let second :=
        report (wiringPass pd selected (totalsOf pd) (failingOf pd selected) s pMap
                  noReports) in
      first ++ second
      ++ singlesOf pd s (list_to_set ((first ++ second) ≫= indices)) selected
  | None => []
  end.

(** The reports that stand for a whole shield. *)
Definition wholeSide (rep : Report) : bool :=
  match rep with
  | RInterrupt _ _ _ | RDirectGnd _ _ => true
  | _ => false
  end.

(** ** Comment removal: [ZMKParser.stripComments]

    The three replacements, each written as the scan it performs: the flag
    tells whether the scan is inside a comment. In the patterns, [.] is any
    character but a line terminator and [$] stands before one, or at the
    end of the text. The texts are ASCII, as in the pin extraction: the line
    terminators are the line feed and the carriage return. *)

Definition isLineEnd (ch : ascii) : bool :=
  let n := nat_of_ascii ch in
  bool_decide (n = 10) || bool_decide (n = 13).

(** [text.replace(/\/\/.*$/gm, '')] *)
Fixpoint dropLineComments (inside : bool) (s : string) : string :=
  match s with
  | EmptyString => EmptyString
  | String ch s' =>
      if inside then
        if isLineEnd ch then String ch (dropLineComments false s')
        else dropLineComments true s'
      else
        match s' with
        | String ch2 s'' =>
            if bool_decide (ch = "/"%char) && bool_decide (ch2 = "/"%char)
            then dropLineComments true s''
            else String ch (dropLineComments false s')
        | EmptyString => String ch EmptyString
        end
  end.

(** The text has a [*/]. *)
Fixpoint closes (s : string) : bool :=
  match s with
  | EmptyString => false
  | String ch s' =>
      match s' with
      | String ch2 _ =>
          (bool_decide (ch = "*"%char) && bool_decide (ch2 = "/"%char)) || closes s'
      | EmptyString => false
      end
  end.

(** [text.replace(/\/\*[\s\S]*?\*\//g, '')]: a [/*] opens a comment when a
    [*/] follows it; the comment ends with the first one. *)
Fixpoint dropBlockComments (inside : bool) (s : string) : string :=
  match s with
  | EmptyString => EmptyString
  | String ch s' =>
      match s' with
      | String ch2 s'' =>
          if inside then
            if bool_decide (ch = "*"%char) && bool_decide (ch2 = "/"%char)
            then dropBlockComments false s''
            else dropBlockComments true s'
          else
            if bool_decide (ch = "/"%char) && bool_decide (ch2 = "*"%char) && closes s''
            then dropBlockComments true s''
            else String ch (dropBlockComments false s')
      | EmptyString => if inside then EmptyString else String ch EmptyString
      end
  end.

(** [text.replace(/#.*$/gm, '')] *)
Fixpoint dropHashComments (inside : bool) (s : string) : string :=
  match s with
  | EmptyString => EmptyString
  | String ch s' =>
      if inside then
        if isLineEnd ch then String ch (dropHashComments false s')
        else dropHashComments true s'
      else if bool_decide (ch = "#"%char) then dropHashComments true s'
      else String ch (dropHashComments false s')
  end.

Definition stripComments (text : string) : string :=
  dropHashComments false (dropBlockComments false (dropLineComments false text)).

(** ** Shields of the build: [ZMKParser.findAndParseBuildConfig] *)

(** [s.endsWith(suffix)] *)
Definition endsWith (s suffix : string) : bool :=
  bool_decide (String.length suffix ≤ String.length s)
  && bool_decide (dropStr (String.length s - String.length suffix) s = suffix).

(** [s.split(sep)] for a separator of one character; [cur] is the piece
    read so far. *)
Fixpoint splitOn (sep : ascii) (cur s : string) : list string :=
  match s with
  | EmptyString => [cur]
  | String ch s' =>
      if bool_decide (ch = sep) then cur :: splitOn sep EmptyString s'
      else splitOn sep (cur +:+ String ch EmptyString) s'
  end.

(** The group [.*] at the head of [s]: the characters before a line
    terminator. *)
Fixpoint lineOf (s : string) : string :=
  match s with
  | EmptyString => EmptyString
  | String ch s' => if isLineEnd ch then EmptyString else String ch (lineOf s')
  end.

(** [s.trim()] *)
Fixpoint trimEnd (s : string) : string :=
  match s with
  | EmptyString => EmptyString
  | String ch s' =>
      let t := trimEnd s' in
      if isSpace ch && bool_decide (t = EmptyString) then EmptyString else String ch t
  end.

Definition trim (s : string) : string := trimEnd (skipSpace s).

(** [s.replace(/[...]/g, '')] for a class of characters. *)
Fixpoint without (class : ascii → bool) (s : string) : string :=
  match s with
  | EmptyString => EmptyString
  | String ch s' => if class ch then without class s' else String ch (without class s')
  end.

Definition isBracket (ch : ascii) : bool :=
  bool_decide (ch = "["%char) || bool_decide (ch = "]"%char).

Definition isQuote (ch : ascii) : bool :=
  bool_decide (ch = dquote) || bool_decide (ch = "'"%char).

(** [s.split(/\s+/)[0]]: the characters before the first white space. *)
Fixpoint firstWord (s : string) : string :=
  match s with
  | EmptyString => EmptyString
  | String ch s' => if isSpace ch then EmptyString else String ch (firstWord s')
  end.

(** [line.match(...)] with the pattern [shield:], white space, then the
    group [.*]: the group of the leftmost match. *)
Definition shieldAt (s : string) : option string :=
  if String.prefix "shield:" s then Some (lineOf (skipSpace (dropStr 7 s))) else None.

Definition shieldMatch (line : string) : option string := firstMatch shieldAt line.

Definition baseShieldOf (entry : string) : string :=
  firstWord (without isQuote (trim entry)).

(** [this.shields] and [this.result]. *)
Record Parser := { shields : list string; result : ParsedData }.

(** The body of [entries.forEach(entry => ...)]. *)
Definition addShield (p : Parser) (entry : string) : Parser :=
  let baseShield := baseShieldOf entry in
  if negb (bool_decide (baseShield = EmptyString))
     && negb (bool_decide (baseShield = "settings_reset"%string))
     && negb (bool_decide (baseShield ∈ shields p))
  then
    {| shields := shields p ++ [baseShield];
       result :=
         if bool_decide (is_Some (obj_get (pinMap (result p)) baseShield))
            || bool_decide (baseShield ∈ inheritedNames)
         then result p
         else setEntry (result p) baseShield freshPinMap |}
  else p.

(** The body of [lines.forEach(line => ...)]. *)
Definition buildLine (p : Parser) (line : string) : Parser :=
  match shieldMatch line with
  | Some group =>
      fold_left addShield (splitOn ","%char EmptyString (without isBracket (trim group))) p
  | None => p
  end.

Definition newline : ascii := ascii_of_nat 10.

Definition buildFile (p : Parser) (file : string * string) : Parser :=
  let '(name, content) := file in
  if endsWith name "build.yaml"
  then fold_left buildLine (splitOn newline EmptyString content) p
  else p.

Definition findAndParseBuildConfig (rawFiles : list (string * string)) (res : ParsedData)
    : Parser :=
  fold_left buildFile rawFiles {| shields := []; result := res |}.

(** ** Matrix transform: [ZMKParser.findAndParseMatrixTransform] *)

(** [(\d+)] at the head of [s]: [parseInt] of the digits, and what follows
    them. *)
Fixpoint digitsFrom (acc : nat) (s : string) : nat * string :=
  match s with
  | EmptyString => (acc, s)
  | String ch s' =>
      if isDigit ch then digitsFrom (10 * acc + (nat_of_ascii ch - 48)) s' else (acc, s)
  end.

Definition digitsAt (s : string) : option (nat * string) :=
  match s with
  | EmptyString => None
  | String ch _ => if isDigit ch then Some (digitsFrom 0 s) else None
  end.

(** One given character at the head of [s]: what follows it. *)
Definition charAt (ch : ascii) (s : string) : option string :=
  match s with
  | EmptyString => None
  | String ch' s' => if bool_decide (ch' = ch) then Some s' else None
  end.

(** [RC\(\s*(\d+)\s*,\s*(\d+)\s*\)] at the head of [s]: the entry and what
    follows the match. *)
Definition rcAt (s : string) : option (MatrixEntry * string) :=
  if String.prefix "RC(" s then
    match digitsAt (skipSpace (dropStr 3 s)) with
    | Some (row, s1) =>
        match charAt ","%char (skipSpace s1) with
        | Some s2 =>
            match digitsAt (skipSpace s2) with
            | Some (col, s3) =>
                match charAt ")"%char (skipSpace s3) with
                | Some s4 => Some ({| r := row; c := col |}, s4)
                | None => None
                end
            | None => None
            end
        | None => None
        end
    | None => None
    end
  else None.

(** The loop [while ((match = rcRegex.exec(block)) !== null) map.push(...)]:
    the matches from left to right, each search starting where the last
    match ended; [skip] counts the characters of the last match that are
    still ahead. *)
Fixpoint rcScan (skip : nat) (s : string) : list MatrixEntry :=
  match s with
  | EmptyString => []
  | String _ s' =>
      match skip with
      | S k => rcScan k s'
      | 0 =>
          match rcAt s with
          | Some (m, rest) => m :: rcScan (String.length s' - String.length rest) s'
          | None => rcScan 0 s'
          end
      end
  end.

(** The text before the first [>;]. *)
Fixpoint upToClose (s : string) : option string :=
  match s with
  | EmptyString => None
  | String ch s' =>
      match s' with
      | EmptyString => None
      | String ch2 _ =>
          if bool_decide (ch = ">"%char) && bool_decide (ch2 = ";"%char)
          then Some EmptyString
          else match upToClose s' with
               | Some block => Some (String ch block)
               | None => None
               end
      end
  end.

(** [/map\s*=\s*<([\s\S]*?)>;/] at the head of [s]: the group. *)
Definition mapAt (s : string) : option string :=
  match assignAt "map" s with
  | Some rest =>
      match charAt "<"%char (skipSpace rest) with
      | Some block => upToClose block
      | None => None
      end
  | None => None
  end.

(** The map of a file: the entries of its first map block, when the file
    has [map = <] and a block. *)
Definition fileMap (content : string) : option (list MatrixEntry) :=
  if includes content "map = <" then
    match firstMatch mapAt content with
    | Some block => Some (rcScan 0 block)
    | None => None
    end
  else None.

(** [/name\s*=\s*<(\d+)>/] at the head of [s]: [parseInt] of the group. *)
Definition offsetAt (name s : string) : option nat :=
  match assignAt name s with
  | Some rest =>
      match charAt "<"%char (skipSpace rest) with
      | Some s1 =>
          match digitsAt s1 with
          | Some (n, s2) =>
              match charAt ">"%char s2 with
              | Some _ => Some n
              | None => None
              end
          | None => None
          end
      | None => None
      end
  | None => None
  end.

Definition offsetMatch (name content : string) : option nat :=
  if includes content name then firstMatch (offsetAt name) content else None.

Definition setMatrixMap (res : ParsedData) (m : list (option MatrixEntry)) : ParsedData :=
  {| matrixMap := m; pinMap := pinMap res; diodeDirection := diodeDirection res |}.

(** [if (!pinMap[s]) pinMap[s] = { row: {}, col: {} }; pinMap[s].colOffset = n]
    and the same for rows. *)
Definition setColOffset (res : ParsedData) (s : string) (n : nat) : ParsedData :=
  let p := entryOf res s in
  setEntry res s
    {| row := row p; col := col p; gpios := gpios p; direct := direct p;
       interrupt := interrupt p; colOffset := Some n; rowOffset := rowOffset p |}.

Definition setRowOffset (res : ParsedData) (s : string) (n : nat) : ParsedData :=
  let p := entryOf res s in
  setEntry res s
    {| row := row p; col := col p; gpios := gpios p; direct := direct p;
       interrupt := interrupt p; colOffset := colOffset p; rowOffset := Some n |}.

(** The body of the loop over [Object.entries(this.rawFiles)]. *)
Definition transformFile (shields : list string) (res : ParsedData)
    (file : string * string) : ParsedData :=
  let '(filename, content) := file in
  let shieldName := sideOf shields filename in
  let res1 :=
    match fileMap content with
    | Some m =>
        if bool_decide (length (matrixMap res) < length m)
        then setMatrixMap res (map Some m) else res
    | None => res
    end in
  let res2 :=
    match offsetMatch "col-offset" content with
    | Some n =>
        if bool_decide (shieldName ≠ "common"%string)
        then setColOffset res1 shieldName n else res1
    | None => res1
    end in
  match offsetMatch "row-offset" content with
  | Some n =>
      if bool_decide (shieldName ≠ "common"%string)
      then setRowOffset res2 shieldName n else res2
  | None => res2
  end.

Definition findAndParseMatrixTransform (shields : list string)
    (rawFiles : list (string * string)) (res : ParsedData) : ParsedData :=
  fold_left (transformFile shields) rawFiles res.

(** ** [ZMKParser.parse]

    The comments are removed from every file, in place; then come the build
    configuration, the matrix transform and the pins. The physical layout,
    parsed between the first two, writes [physicalKeys] only, which is not
    part of [ParsedData]. *)
Definition parse (filesData : list (string * string)) : Parser :=
  let rawFiles := map (λ file, (file.1, stripComments file.2)) filesData in
  let p := findAndParseBuildConfig rawFiles initialResult in
  let res := findAndParseMatrixTransform (shields p) rawFiles (result p) in
  {| shields := shields p; result := findAndParsePinConfig (shields p) rawFiles res |}.

(** ** Example repository *)

Definition lf : string := String newline EmptyString.

Definition buildYaml : string * string :=
  ("build.yaml"%string,
   "include:" +:+ lf
   +:+ "  - board: nice_nano_v2" +:+ lf
   +:+ "    shield: kb_left" +:+ lf
   +:+ "  - board: nice_nano_v2" +:+ lf
   +:+ "    shield: [kb_right, 'settings_reset']  # reset" +:+ lf).

Definition transformFileExample : string * string :=
  ("boards/shields/kb/kb.dtsi"%string,
   "default_transform: keymap_transform_0 { map = <" +:+ lf
   +:+ "RC(0,0) RC(0,1) // first row" +:+ lf
   +:+ "RC( 1 , 0 ) RC(1,10)" +:+ lf
   +:+ ">; };").

Definition rightOffsetFile : string * string :=
  ("boards/shields/kb/kb_right.dtsi"%string,
   "&default_transform { col-offset = <6>; };").

Definition exampleRepo : list (string * string) :=
  [buildYaml; transformFileExample; rightOffsetFile; charlieOverlay; matrixOverlay].

(** ** Notions used in the statements about the parser *)

(** A character that a shield name can have: no white space, quote,
    bracket or comma. *)
Definition nameChar (ch : ascii) : bool :=
  negb (isSpace ch || isQuote ch || isBracket ch || bool_decide (ch = ","%char)).

Definition shieldNameOk (s : string) : Prop :=
  s ≠ EmptyString ∧ s ≠ "settings_reset"%string ∧ Forall (λ ch, Is_true (nameChar ch)) (chars s).

(** The pin tables of an entry as the parser leaves them: [row] and [col]
    always, [gpios] and [direct] only with pins. *)
Definition tablesOk (p : PinMap) : Prop :=
  is_Some (row p) ∧ is_Some (col p)
  ∧ (∀ g, gpios p = Some g → g ≠ ∅) ∧ (∀ d, direct p = Some d → d ≠ ∅).

(** [parsedData.matrixMap] after [parse]. *)
Definition parsedMap (filesData : list (string * string)) : list (option MatrixEntry) :=
  matrixMap (result (parse filesData)).

(** The map that [parse] reads in a file. *)
Definition mapOf (file : string * string) : option (list MatrixEntry) :=
  fileMap (stripComments file.2).

(** The text starts with a slash; the text has two slashes in a row. *)
Definition slashFirst (s : string) : Prop := ∃ s', s = String "/"%char s'.

Fixpoint slashPair (s : string) : Prop :=
  match s with
  | EmptyString => False
  | String ch s' => (ch = "/"%char ∧ slashFirst s') ∨ slashPair s'
  end.

(** What holds of [this.shields] all along the loops. *)
Definition shieldsOk (p : Parser) : Prop :=
  NoDup (shields p) ∧ Forall shieldNameOk (shields p).

(** What the three stages keep of [pinMap]: its keys are the shields, in
    their order, and every entry has its tables. *)
Definition pinMapOk (shields : list string) (res : ParsedData) : Prop :=
  map fst (pinMap res) = shields ∧ Forall (λ e, tablesOk e.2) (pinMap res).

(** The build configuration, started without shields and entries, gives a
    [pinMap] whose keys are the shields, when none has an inherited name. *)
Definition buildOk (p : Parser) : Prop :=
  ownNames (shields p) → pinMapOk (shields p) (result p).

(** ** The page: selection and colours of a diagnosis *)

Definition ISSUE_COLORS : list string :=
  ["#3b82f6"; "#f59e0b"; "#10b981"; "#8b5cf6"; "#f43f5e"; "#06b6d4"; "#6366f1";
   "#84cc16"]%string.

(** [ISSUE_COLORS[fIdx % ISSUE_COLORS.length]] *)
Definition colorOf (fIdx : nat) : string :=
  default EmptyString (ISSUE_COLORS !! (fIdx mod length ISSUE_COLORS)).

(** [if (!state.issueMapping.has(kIdx)) state.issueMapping.set(kIdx, color)] *)
Definition colorKey (color : string) (mapping : gmap nat string) (kIdx : nat)
    : gmap nat string :=
  if bool_decide (is_Some (mapping !! kIdx)) then mapping else <[kIdx := color]> mapping.

(** The body of [failures.forEach((f, fIdx) => ...)], as far as
    [state.issueMapping] goes. *)
Definition colorReport (mapping : gmap nat string) (item : nat * Report) : gmap nat string :=
  fold_left (colorKey (colorOf item.1)) (indices item.2) mapping.

Definition colorReports (failures : list Report) (mapping : gmap nat string)
    : gmap nat string :=
  fold_left colorReport (zip (seq 0 (length failures)) failures) mapping.

(** [state] next to [parsedData], and whether the result area is hidden. *)
Record PageState := {
  world : World;
  issueMapping : gmap nat string;
  resultHidden : bool
}.

(** [if (selectedIndices.has(index)) selectedIndices.delete(index);
    else selectedIndices.add(index)] on the elements in insertion order. *)
Definition toggle (index : nat) (sel : list nat) : list nat :=
  if bool_decide (index ∈ sel) then filter (λ i, i ≠ index) sel else sel ++ [index].

(** The click handler of the canvas, for a click on the key [index]. *)
Definition click (index : nat) (st : PageState) : PageState :=
  {| world := setSelection (toggle index (selectedIndices (world st))) (world st);
     issueMapping := ∅;
     resultHidden := true |}.

Definition resetSelection (st : PageState) : PageState :=
  {| world := setSelection [] (world st); issueMapping := ∅; resultHidden := true |}.

(** [diagnose], as far as the state goes: it returns before it clears the
    colours when nothing is selected. *)
Definition diagnose (st : PageState) : PageState :=
  if bool_decide (length (selectedIndices (world st)) = 0) then
    {| world := world st; issueMapping := issueMapping st; resultHidden := true |}
  else
    let failures := (callAnalyzeFailures (world st)).1 in
    {| world := (callAnalyzeFailures (world st)).2;
       issueMapping := colorReports failures ∅;
       resultHidden := false |}.

(** What the user does on a loaded repository. *)
Inductive Event := KeyClick (index : nat) | ResetClick | DiagnoseClick.

Definition handle (st : PageState) (e : Event) : PageState :=
  match e with
  | KeyClick index => click index st
  | ResetClick => resetSelection st
  | DiagnoseClick => diagnose st
  end.



(** The first report that lists the key [k], with its position. *)
Definition firstListing (k : nat) (failures : list Report) : option (nat * Report) :=
  list_find (λ f, k ∈ indices f) failures.

(** The state after [resetSelection] and then the events, in their order. *)
Definition after (events : list Event) (st : PageState) : PageState :=
  fold_left handle events (resetSelection st).


(** The page on the split keyboard, nothing selected. *)
Definition splitPage : PageState :=
  {| world := {| parsedData := splitBoard; selectedIndices := [] |};
     issueMapping := ∅; resultHidden := true |}.

(** ** The database of silk names

    [parsedData.database] is what the user supplies: a JSON object with
    [pins], keyed by pin names, and [keys]. A field that is missing or
    [null] is [None]; the entries are objects, and [matrix] holds the two
    coordinates of a key. *)

Record PinInfo := {
  silk : option string;
  line_diode : option string;
  interrupt_diode : option string;
  description : option string
}.

Record KeyInfo := { matrix : nat * nat; silk_sw : string; silk_d : string }.

Record Database := {
  pins : option (list (string * PinInfo));
  keys : option (list KeyInfo)
}.

(** [database && database.pins && database.pins[key]], for a key that is
    not a name that every object inherits. *)
Definition pinEntry (db : option Database) (key : string) : option PinInfo :=
  match db with
  | Some d =>
      match pins d with
      | Some entries => obj_get entries key
      | None => None
      end
  | None => None
  end.

(** A name inside a template literal: [undefined] is printed as such. *)
Definition printed (name : option string) : string := default "undefined"%string name.

Definition lowerChar (ch : ascii) : ascii :=
  let n := nat_of_ascii ch in
  if bool_decide (65 ≤ n ≤ 90) then ascii_of_nat (n + 32) else ch.

(** [s.toLowerCase()] *)
Fixpoint toLowerCase (s : string) : string :=
  match s with
  | EmptyString => EmptyString
  | String ch s' => String (lowerChar ch) (toLowerCase s')
  end.

Definition getPinInfo (db : option Database) (side : string) (rawPinName : option string)
    : PinInfo :=
  let specificKey := side +:+ "_" +:+ printed rawPinName in
  match pinEntry db specificKey with
  | Some info => info
  | None =>
      let isLeft := includes (toLowerCase side) "left" || bool_decide (side = "left"%string) in
      let legacyKey :=
        (if isLeft then "Left" else "Right")%string +:+ "_" +:+ printed rawPinName in
      match pinEntry db legacyKey with
      | Some info => info
      | None =>
          match pinEntry db (printed rawPinName) with
          | Some info => info
          | None =>
              {| silk := rawPinName; line_diode := None; interrupt_diode := None;
                 description := None |}
          end
      end
  end.

(** [database.keys.find(k => k.matrix[0] === r && k.matrix[1] === c)] *)
Definition getKeyInfo (db : option Database) (r c : nat) : option KeyInfo :=
  match db with
  | Some d =>
      match keys d with
      | Some entries => head (filter (λ k, (matrix k).1 = r ∧ (matrix k).2 = c) entries)
      | None => None
      end
  | None => None
  end.

(** [Object.values] of an object with integer keys: in the order of the
    keys. *)
Definition Object_values {V} (o : gmap nat V) : list V :=
  omap (λ k, o !! k) (Object_keys o).

(** [{ silk: '', line_diode: '', interrupt_diode: '' }] and
    [{ silk: '', description: '' }], the two blank entries of the
    template. *)
Definition blankPin : PinInfo :=
  {| silk := Some EmptyString; line_diode := Some EmptyString;
     interrupt_diode := Some EmptyString; description := None |}.

Definition blankInterrupt : PinInfo :=
  {| silk := Some EmptyString; line_diode := None; interrupt_diode := None;
     description := Some EmptyString |}.

(** [getPinKey] *)
Definition getPinKey (shieldName p : string) : string := shieldName +:+ "_" +:+ p.

(** [if (!db.pins[key]) db.pins[key] = blank] *)
Definition addPin (shieldName : string) (blank : PinInfo) (entries : list (string * PinInfo))
    (p : string) : list (string * PinInfo) :=
  if bool_decide (is_Some (obj_get entries (getPinKey shieldName p)))
     || bool_decide (getPinKey shieldName p ∈ inheritedNames)
  then entries
  else obj_set entries (getPinKey shieldName p) blank.

(** [if (table) Object.values(table).forEach(p => ...)] *)
Definition addTable (shieldName : string) (table : option (gmap nat string))
    (entries : list (string * PinInfo)) : list (string * PinInfo) :=
  match table with
  | Some o => fold_left (addPin shieldName blankPin) (Object_values o) entries
  | None => entries
  end.

(** The body of [Object.keys(parsedData.pinMap).forEach(shieldName => ...)]. *)
Definition templateShield (pd : ParsedData) (entries : list (string * PinInfo))
    (shieldName : string) : list (string * PinInfo) :=
  match obj_get (pinMap pd) shieldName with
  | None => entries
  | Some pm =>
      let e1 := addTable shieldName (row pm) entries in
      let e2 := addTable shieldName (col pm) e1 in
      let e3 := addTable shieldName (gpios pm) e2 in
      let e4 := addTable shieldName (direct pm) e3 in
      match interrupt pm with
      | Some p =>
          if bool_decide (p ≠ EmptyString) then addPin shieldName blankInterrupt e4 p
          else e4
      | None => e4
      end
  end.

(** [generateDatabaseTemplate]: the object [db] whose JSON text the
    function returns. *)
Definition generateDatabaseTemplate (pd : ParsedData) : Database :=
  {| pins := Some (fold_left (templateShield pd) (map fst (pinMap pd)) []);
     keys :=
       Some (omap (λ om : option MatrixEntry,
                     match om with
                     | Some m =>
                         Some {| matrix := (r m, c m); silk_sw := EmptyString;
                                 silk_d := EmptyString |}
                     | None => None
                     end)
               (matrixMap pd)) |}.

(** The pin that a report names, when it names one. *)
Definition reportPin (rep : Report) : option string :=
  match rep with
  | RInterrupt _ pin _ | RCharlie _ _ pin _ _ | RDirect _ pin _ _ => Some pin
  | RRow _ _ pin _ | RCol _ _ pin _ => pin
  | RDirectGnd _ _ | RSingle _ _ _ _ _ => None
  end.

(** What [diagnose] looks up for a report about one key: the entry of the
    key is there, and the database has the key. *)
Definition keyLookedUp (pd : ParsedData) (db : option Database) (rep : Report) : Prop :=
  match rep with
  | RDirect _ _ _ l =>
      ∃ idx m, l = [idx] ∧ entryAt pd idx = Some m
               ∧ is_Some (getKeyInfo db (r m) (c m))
  | RSingle _ r c _ _ => is_Some (getKeyInfo db r c)
  | _ => True
  end.

(** The pin is in one of the tables of the entry, or is its interrupt pin. *)
Definition pinOf (pm : PinMap) (p : string) : Prop :=
  (∃ o k, (row pm = Some o ∨ col pm = Some o ∨ gpios pm = Some o ∨ direct pm = Some o)
          ∧ o !! k = Some p)
  ∨ (interrupt pm = Some p ∧ p ≠ EmptyString).

(** ** What the pin extraction keeps *)

(** The table [t'] has every index of the table [t]. *)
Definition tableGrows (t t' : option (gmap nat string)) : Prop :=
  ∀ o, t = Some o → ∃ o', t' = Some o' ∧ ∀ i, is_Some (o !! i) → is_Some (o' !! i).

(** The entry [p'] has the tables of [p] with at least their indices, an
    interrupt pin if [p] has one, and the offsets of [p]. *)
Definition entryGrows (p p' : PinMap) : Prop :=
  tableGrows (row p) (row p') ∧ tableGrows (col p) (col p')
  ∧ tableGrows (gpios p) (gpios p') ∧ tableGrows (direct p) (direct p')
  ∧ (is_Some (interrupt p) → is_Some (interrupt p'))
  ∧ colOffset p' = colOffset p ∧ rowOffset p' = rowOffset p.

Definition pinMapGrows (res res' : ParsedData) : Prop :=
  ∀ s p, obj_get (pinMap res) s = Some p →
         ∃ p', obj_get (pinMap res') s = Some p' ∧ entryGrows p p'.

(** ** The repository of a fetcher: the constructor of [GitHubFetcher] *)

(** The first [n] characters. *)
Fixpoint takeStr (n : nat) (s : string) : string :=
  match n, s with
  | S n', String ch s' => String ch (takeStr n' s')
  | _, _ => EmptyString
  end.

(** [cleaned.replace(...)] with the pattern of [http], an optional [s] and
    [://github.com/] at the start of the text. *)
Definition dropGithub (s : string) : string :=
  if String.prefix "https://github.com/" s then dropStr 19 s
  else if String.prefix "http://github.com/" s then dropStr 18 s
  else s.

(** [cleaned.replace(...)] with the pattern of [.git] at the end of the
    text. *)
Definition dropDotGit (s : string) : string :=
  if endsWith s ".git" then takeStr (String.length s - 4) s else s.

(** [s.split(sep)] for a separator of several characters; [skip] counts
    the characters of the last separator that are still ahead, [cur] is the
    piece read so far. *)
Fixpoint splitStr (sep : string) (skip : nat) (cur s : string) : list string :=
  match s with
  | EmptyString => [cur]
  | String ch s' =>
      match skip with
      | S k => splitStr sep k cur s'
      | 0 =>
          if String.prefix sep s
          then cur :: splitStr sep (String.length sep - 1) EmptyString s'
          else splitStr sep 0 (cur +:+ String ch EmptyString) s'
      end
  end.

(** [this.repo], [this.branch] and [this.baseUrl]. *)
Record GitHubFetcher := { repo : string; branch : option string; baseUrl : string }.

(** The repository and the branch that the constructor reads in its
    argument. *)
Definition repoAndBranch (repoStr : string) : string * option string :=
  let cleaned := dropDotGit (dropGithub (trim repoStr)) in
  if includes cleaned "/tree/" then
    let parts := splitStr "/tree/" 0 EmptyString cleaned in
    (default EmptyString (parts !! 0),
     Some (default EmptyString
             (head (splitOn "/"%char EmptyString (default EmptyString (parts !! 1))))))
  else
    let parts := filter (λ p, 0 < String.length p) (splitOn "/"%char EmptyString cleaned) in
    (if bool_decide (2 ≤ length parts)
     then default EmptyString (parts !! 0) +:+ "/" +:+ default EmptyString (parts !! 1)
     else cleaned,
     None).

(** [new GitHubFetcher(repoStr)] *)
Definition newGitHubFetcher (repoStr : string) : GitHubFetcher :=
  let '(repo, branch) := repoAndBranch repoStr in
  {| repo := repo; branch := branch;
     baseUrl := "https://api.github.com/repos/" +:+ repo +:+ "/contents" |}.

(** A user, repository or branch name: not empty, without slash and
    white space. *)
Definition plainName (s : string) : Prop :=
  s ≠ EmptyString
  ∧ Forall (λ ch, ch ≠ "/"%char ∧ isSpace ch = false) (chars s).

(** The forms of an argument that name the repository [user/name] and no
    branch. *)
Definition repoForms (user name : string) : list string :=
  [user +:+ "/" +:+ name;
   user +:+ "/" +:+ name +:+ "/";
   user +:+ "/" +:+ name +:+ ".git";
   "https://github.com/" +:+ user +:+ "/" +:+ name;
   "https://github.com/" +:+ user +:+ "/" +:+ name +:+ "/";
   "https://github.com/" +:+ user +:+ "/" +:+ name +:+ ".git";
   "http://github.com/" +:+ user +:+ "/" +:+ name]%string.

(** The separator does not start at any position of [a], in [a] followed
    by [rest]. *)
Fixpoint noStart (sep a rest : string) : Prop :=
  match a with
  | EmptyString => True
  | String ch a' => String.prefix sep (a +:+ rest) = false ∧ noStart sep a' rest
  end.

(** What follows a branch in an address: nothing, or a slash and a path
    without white space. *)
Definition branchRest (rest : string) : Prop :=
  Forall (λ ch, isSpace ch = false) (chars rest)
  ∧ (rest = EmptyString ∨ slashFirst rest).

(** ** A pin list as the device tree writes it *)










(** ** A matrix map as the device tree writes it *)

(** A number: digits, at least one. *)
Definition digits (s : string) : Prop :=
  s ≠ EmptyString ∧ Forall (λ ch, isDigit ch = true) (chars s).

(** [parseInt] of a number. *)
Definition parseInt (s : string) : nat := (digitsFrom 0 s).1.

(** [RC(row,col)] *)
Definition rcText (cell : string * string) : string :=
  "RC(" +:+ cell.1 +:+ "," +:+ cell.2 +:+ ")".

Fixpoint rcCells (cells : list (string * string)) : string :=
  match cells with
  | [] => EmptyString
  | cell :: rest => rcText cell +:+ " " +:+ rcCells rest
  end.

(** [map = <RC(0,0) RC(0,1) ... >;] *)
Definition mapProperty (cells : list (string * string)) : string :=
  "map = <" +:+ rcCells cells +:+ ">;".

Definition rcEntry (cell : string * string) : MatrixEntry :=
  {| r := parseInt cell.1; c := parseInt cell.2 |}.

(** * Properties *)

(** ** The ratio tests

    The source divides two counts as doubles and compares the quotient with
    [0.6] or [0.8]. For all counts up to 200, more than the keys of a
    keyboard, that is the comparison of integers used in [majority] and
    [nearlyAll]. *)

Lemma ratioTestsAgree_200 : forallPairs ratioCell 200 = true.
Proof. vm_compute. reflexivity. Qed.

Lemma forallb_seq_spec (f : nat → bool) n x :
  forallb f (seq 0 (S n)) = true → x ≤ n → f x = true.
Proof.
  intros Hall Hx. rewrite forallb_forall in Hall. apply Hall, in_seq. lia.
Qed.

Lemma forallPairs_spec (f : nat → nat → bool) n x y :
  forallPairs f n = true → x ≤ n → y ≤ n → f y x = true.
Proof.
  unfold forallPairs. intros Hall Hx Hy.
  apply (forallb_seq_spec (λ b, f b x) n y); [|done].
  by apply (forallb_seq_spec (λ a, forallb (λ b, f b a) (seq 0 (S n))) n x).
Qed.

Lemma ratio_tests_agree (count total : nat) :
  count ≤ 200 → total ≤ 200 →
  jsMajority count total = majority count total
  ∧ (0 < total → jsNearlyAll count total = nearlyAll count total).
Proof.
  intros Hc Ht.
  pose proof (forallPairs_spec ratioCell 200 total count ratioTestsAgree_200 Ht Hc) as Hcell.
  unfold ratioCell in Hcell.
  apply andb_true_iff in Hcell as [H60 H80].
  split; [by apply Bool.eqb_prop|].
  intros Hpos. apply orb_true_iff in H80 as [Hz|H80]; [|by apply Bool.eqb_prop].
  apply Nat.eqb_eq in Hz. lia.
Qed.

(** ** Shields *)

Lemma validShields_pinMap pd s :
  s ∈ validShields pd → ∃ p, obj_get (pinMap pd) s = Some p ∧ hasPins p = true.
Proof.
  unfold validShields. rewrite list_elem_of_filter. intros [Hv _].
  destruct (obj_get (pinMap pd) s) as [p|]; [|done].
  exists p. split; [done|]. by apply Is_true_eq_true.
Qed.

Lemma obj_get_keys {V} (o : list (string * V)) k :
  is_Some (obj_get o k) ↔ k ∈ map fst o.
Proof.
  induction o as [|[k' v] o IH]; simpl.
  - split; [intros [? ?]; done | intros H; inversion H].
  - destruct (decide (k' = k)) as [->|Hne].
    + split; [intros _; left | eauto].
    + rewrite IH. split; [by right|]. intros H. inversion H; subst; done.
Qed.

Lemma validShields_NoDup pd : NoDup (map fst (pinMap pd)) → NoDup (validShields pd).
Proof. intros H. by apply NoDup_filter. Qed.

(** ** Resolution of a key's shield (step 2 of the localiser) *)

Section Resolution.
Variable pd : ParsedData.
Variable m : MatrixEntry.

Lemma scanShield_scanned b0 l :
  maxMatchScore b0 = (-1)%Z →
  scanned pd m b0 l (fold_left (scanShield pd m) l b0).
Proof.
  intros Hb0. induction l as [|s l IH] using rev_ind.
  - left. split; [done | constructor].
  - rewrite fold_left_app. simpl.
    remember (fold_left (scanShield pd m) l b0) as b eqn:Heqb. clear Heqb.
    assert (Hkeep : ¬ (qualifies pd m s ∧ (maxMatchScore b < Z.of_nat (score pd s))%Z) →
              scanned pd m b0 (l ++ [s]) b).
    { intros Hno.
      destruct IH as [[Hb Hall]|(l1 & l2 & -> & Hq & Hm & HC & HR & H1 & H2)].
      - left. split; [done|]. apply Forall_app. split; [done|].
        constructor; [|constructor]. intros Hqs. apply Hno. split; [done|].
        rewrite Hb, Hb0. lia.
      - right. exists l1, (l2 ++ [s]). rewrite <- app_assoc. simpl.
        split; [done|]. split; [exact Hq|]. split; [exact Hm|].
        split; [exact HC|]. split; [exact HR|]. split; [exact H1|].
        apply Forall_app. split; [done|]. constructor; [|constructor].
        intros Hqs. rewrite Hm in Hno.
        destruct (decide (score pd s ≤ score pd (bestShield b))); [done|].
        exfalso. apply Hno. split; [done | lia]. }
    unfold scanShield.
    destruct (bool_decide (offsetC pd s ≤ c m)) eqn:Hc; simpl;
      [destruct (bool_decide (offsetR pd s ≤ r m)) eqn:Hr; simpl|].
    + apply bool_decide_eq_true in Hc, Hr.
      fold (score pd s).
      destruct (bool_decide (maxMatchScore b < _)%Z) eqn:Hs.
      * apply bool_decide_eq_true in Hs. right. exists l, []. simpl.
        split; [done|]. split; [by split|]. split; [done|].
        split; [done|]. split; [done|]. split; [|constructor].
        destruct IH as [[Hb Hall]|(l1 & l2 & -> & Hq & Hm & _ & _ & H1 & H2)].
        -- eapply Forall_impl; [exact Hall|]. simpl. intros x Hx Hqx. done.
        -- rewrite Hm in Hs.
           apply Forall_app. split; [|constructor].
           ++ eapply Forall_impl; [exact H1|]. simpl.
              intros x Hx Hqx. specialize (Hx Hqx). lia.
           ++ lia.
           ++ eapply Forall_impl; [exact H2|]. simpl.
              intros x Hx Hqx. specialize (Hx Hqx). lia.
      * apply bool_decide_eq_false in Hs. apply Hkeep. tauto.
    + apply bool_decide_eq_false in Hr. apply Hkeep. unfold qualifies. tauto.
    + apply bool_decide_eq_false in Hc. apply Hkeep. unfold qualifies. tauto.
Qed.

(** The owner of a key is a valid shield. *)
Lemma getSideAndPhysCoords_valid om :
  validShields pd ≠ [] → side (getSideAndPhysCoords pd om) ∈ validShields pd.
Proof.
  intros Hne. unfold getSideAndPhysCoords.
  destruct (validShields pd) as [|s0 vs] eqn:Hvs; [done|].
  destruct om as [m'|]; simpl; [|left].
  clear Hne Hvs.
  set (b0 := {| bestShield := s0; maxMatchScore := (-1)%Z; bestC := c m'; bestR := r m' |}).
  assert (Hgen : ∀ l b, bestShield b ∈ s0 :: vs → (∀ x, x ∈ l → x ∈ s0 :: vs) →
            bestShield (fold_left (scanShield pd m') l b) ∈ s0 :: vs).
  { induction l as [|x l IH]; intros b Hb Hl; simpl; [done|].
    apply IH.
    - unfold scanShield. repeat case_match; simpl; try done. apply Hl. left.
    - intros y Hy. apply Hl. by right. }
  apply (Hgen (s0 :: vs) b0); [left | done].
Qed.
End Resolution.

(** C1 (as stated, refuted): on a board where only the shield shifted by
    six columns has pins, the key at logical row 0, column 2 is attributed
    to that shield although its column offset exceeds the key's column, and
    its coordinates are left as they are. *)
Lemma C1_counterexample_no_qualifying_shield :
  validShields rightOnlyBoard = ["right"%string]
  ∧ getSideAndPhysCoords rightOnlyBoard (entry 0 2)
    = {| side := "right"; physC := 2; physR := 0 |}
  ∧ ¬ resolvedAmongQualifying rightOnlyBoard {| r := 0; c := 2 |}.
Proof.
  split; [by vm_compute|]. split; [by vm_compute|].
  intros (_ & [Hc _] & _). vm_compute in Hc. lia.
Qed.

(** C1 (amended): for a key with a matrix entry, when some valid shield has
    both offsets at most the key's logical column and row, the owner is such
    a shield with the largest offset sum, the earliest one in shield order
    among equals, and the local coordinates are the logical ones minus its
    offsets; when no valid shield qualifies, the owner is the first valid
    shield and the coordinates stay the logical ones. A key at (row 2,
    col 8) under a shield with colOffset 6 resolves to local (row 2, col 2)
    on it, also next to a shield at the origin that qualifies too. *)
Theorem C1_owner_resolution (pd : ParsedData) (m : MatrixEntry) :
  validShields pd ≠ [] →
  let p := getSideAndPhysCoords pd (Some m) in
  ((∃ s, s ∈ validShields pd ∧ qualifies pd m s) →
     resolvedAmongQualifying pd m
     ∧ ∃ l1 l2, validShields pd = l1 ++ side p :: l2
         ∧ Forall (λ s, qualifies pd m s → score pd s < score pd (side p)) l1)
  ∧ ((∀ s, s ∈ validShields pd → ¬ qualifies pd m s) →
       Some (side p) = head (validShields pd) ∧ physC p = c m ∧ physR p = r m)
  ∧ getSideAndPhysCoords splitBoard (entry 2 8)
    = {| side := "right"; physC := 2; physR := 2 |}.
Proof.
  intros Hne p.
  pose proof (getSideAndPhysCoords_valid pd (Some m) Hne) as Hin. fold p in Hin.
  subst p. unfold resolvedAmongQualifying.
  unfold getSideAndPhysCoords in *.
  destruct (validShields pd) as [|s0 vs] eqn:Hvs; [done|]. simpl in *.
  set (b0 := {| bestShield := s0; maxMatchScore := (-1)%Z; bestC := c m; bestR := r m |}) in *.
  pose proof (scanShield_scanned pd m b0 (s0 :: vs) eq_refl) as Hsc. simpl in Hsc.
  remember (fold_left (scanShield pd m) vs (scanShield pd m b0 s0)) as b eqn:Hb. clear Hb.
  split; [|split; [|by vm_compute]].
  - intros (s & Hs & Hq).
    destruct Hsc as [[_ Hall]|(l1 & l2 & Hl & Hqb & Hm & HC & HR & H1 & H2)].
    { rewrite Forall_forall in Hall. by destruct (Hall s Hs). }
    split.
    + split; [done|]. split; [done|]. split; [|done].
      intros s' Hs' Hq'. rewrite Hl in Hs'.
      apply elem_of_app in Hs' as [Hs'|Hs'].
      * rewrite Forall_forall in H1. specialize (H1 s' Hs' Hq'). lia.
      * apply elem_of_cons in Hs' as [->|Hs']; [done|].
        rewrite Forall_forall in H2. by apply H2.
    + by exists l1, l2.
  - intros Hnone.
    destruct Hsc as [[-> _]|(l1 & l2 & Hl & Hqb & _)]; [done|].
    exfalso. by apply (Hnone (bestShield b)).
Qed.

Lemma C1_owner_resolution_witness :
  validShields splitBoard ≠ []
  ∧ resolvedAmongQualifying splitBoard {| r := 2; c := 8 |}.
Proof.
  assert (Hne : validShields splitBoard ≠ []) by (by vm_compute).
  split; [exact Hne|].
  apply (C1_owner_resolution splitBoard {| r := 2; c := 8 |} Hne).
  exists "left"%string. split; [vm_compute; left | split; vm_compute; lia].
Defined.

(** ** The tables of steps 2 and 3 *)

Arguments getSideAndPhysCoords : simpl never.

Lemma filter_snoc {A} (P : A → Prop) `{∀ x, Decision (P x)} (l : list A) x :
  filter P (l ++ [x]) = filter P l ++ (if decide (P x) then [x] else []).
Proof. by rewrite filter_app. Qed.

Lemma filter_ext_in {A} (P Q : A → Prop) `{∀ x, Decision (P x)} `{∀ x, Decision (Q x)}
    (l : list A) :
  (∀ x, x ∈ l → (P x ↔ Q x)) → filter P l = filter Q l.
Proof.
  induction l as [|x l IH]; intros Hext; [done|].
  rewrite !filter_cons.
  assert (HPQ : P x ↔ Q x) by (apply Hext; left).
  rewrite IH by (intros y Hy; apply Hext; by right).
  destruct (decide (P x)), (decide (Q x)); tauto.
Qed.

Lemma bump_lookup (o : gmap nat nat) k k' n :
  o !! k' = counted n →
  bump o k !! k' = counted (n + (if decide (k = k') then 1 else 0)).
Proof.
  intros Ho. unfold bump. destruct (decide (k = k')) as [->|Hne].
  - rewrite lookup_insert_eq, Ho. unfold counted.
    destruct (decide (n = 0)), (decide (n + 1 = 0)); simpl; try lia; f_equal; lia.
  - rewrite lookup_insert_ne by done. rewrite Ho. f_equal. lia.
Qed.

Lemma pushAt_lookup (o : gmap nat (list nat)) k k' idx l :
  o !! k' = grouped l →
  pushAt o k idx !! k' = grouped (l ++ (if decide (k = k') then [idx] else [])).
Proof.
  intros Ho. unfold pushAt. destruct (decide (k = k')) as [->|Hne].
  - rewrite lookup_insert_eq, Ho. unfold grouped.
    destruct (decide (l ++ [idx] = [])) as [Hn|_]; [by destruct l|].
    by destruct (decide (l = [])) as [->|].
  - rewrite lookup_insert_ne by done. by rewrite Ho, app_nil_r.
Qed.

Lemma initTotals_lookup vs s :
  counts (initTotals vs) !! s = (if decide (s ∈ vs) then Some (mkRC ∅ ∅) else None)
  ∧ charlieTotals (initTotals vs) !! s = (if decide (s ∈ vs) then Some (mkIO ∅ ∅) else None).
Proof.
  unfold initTotals. induction vs as [|x vs IH] using rev_ind.
  - simpl. rewrite !lookup_empty.
    destruct (decide (s ∈ [])) as [Hin%elem_of_nil|]; done.
  - rewrite fold_left_app. simpl. destruct IH as [IH1 IH2].
    destruct (decide (x = s)) as [->|Hne].
    + rewrite !lookup_insert_eq.
      destruct (decide (s ∈ vs ++ [s])) as [_|Hn]; [done|].
      destruct Hn. apply elem_of_app. right. left.
    + rewrite !lookup_insert_ne by done. rewrite IH1, IH2.
      destruct (decide (s ∈ vs)) as [Hin|Hnin], (decide (s ∈ vs ++ [x])) as [Hin'|Hnin'];
        try done.
      * destruct Hnin'. apply elem_of_app. by left.
      * apply elem_of_app in Hin' as [?|Hx%list_elem_of_singleton]; done.
Qed.

Lemma initFailing_lookup vs s :
  groups (initFailing vs) !! s = (if decide (s ∈ vs) then Some (mkRC ∅ ∅) else None)
  ∧ charlieCounts (initFailing vs) !! s
    = (if decide (s ∈ vs) then Some (mkIO ∅ ∅) else None).
Proof.
  unfold initFailing. induction vs as [|x vs IH] using rev_ind.
  - simpl. rewrite !lookup_empty.
    destruct (decide (s ∈ [])) as [Hin%elem_of_nil|]; done.
  - rewrite fold_left_app. simpl. destruct IH as [IH1 IH2].
    destruct (decide (x = s)) as [->|Hne].
    + rewrite !lookup_insert_eq.
      destruct (decide (s ∈ vs ++ [s])) as [_|Hn]; [done|].
      destruct Hn. apply elem_of_app. right. left.
    + rewrite !lookup_insert_ne by done. rewrite IH1, IH2.
      destruct (decide (s ∈ vs)) as [Hin|Hnin], (decide (s ∈ vs ++ [x])) as [Hin'|Hnin'];
        try done.
      * destruct Hnin'. apply elem_of_app. by left.
      * apply elem_of_app in Hin' as [?|Hx%list_elem_of_singleton]; done.
Qed.

Lemma passes_snoc_length pd test (l : list (option MatrixEntry)) om :
  length (filter (λ x, Is_true (passes pd test x)) (l ++ [om]))
  = length (filter (λ x, Is_true (passes pd test x)) l)
    + (if passes pd test om then 1 else 0).
Proof.
  rewrite filter_snoc, length_app.
  destruct (decide (Is_true (passes pd test om))) as [Hp|Hp];
    destruct (passes pd test om); simpl in *; done.
Qed.

Lemma roleTest_in_eq s k p :
  roleTest s role_in k p = bool_decide (side p = s) && bool_decide (physR p = k).
Proof. done. Qed.

Lemma roleTest_out_eq s k p :
  roleTest s role_out k p = bool_decide (side p = s) && bool_decide (physC p = k).
Proof. done. Qed.

(** After any number of rounds of step 2, the tables of a valid shield hold
    the number of keys seen on each of its rows and columns. *)
Lemma totals_fold pd (l : list (option MatrixEntry)) s :
  s ∈ validShields pd →
  ∃ cs ct,
    counts (fold_left (countKey pd) l (initTotals (validShields pd))) !! s = Some cs
    ∧ charlieTotals (fold_left (countKey pd) l (initTotals (validShields pd))) !! s = Some ct
    ∧ (∀ k, rows cs !! k
            = counted (length (filter (λ om, Is_true (passes pd (rowTest s k) om)) l)))
    ∧ (∀ k, cols cs !! k
            = counted (length (filter (λ om, Is_true (passes pd (colTest s k) om)) l)))
    ∧ (∀ k, in_ ct !! k = if hasGpios pd s then rows cs !! k else None)
    ∧ (∀ k, out ct !! k = if hasGpios pd s then cols cs !! k else None).
Proof.
  intros Hs. induction l as [|om l IH] using rev_ind.
  - simpl. destruct (initTotals_lookup (validShields pd) s) as [H1 H2].
    rewrite decide_True in H1 by done. rewrite decide_True in H2 by done.
    exists (mkRC ∅ ∅), (mkIO ∅ ∅). simpl. rewrite H1, H2.
    repeat split; try done; intros k; rewrite ?lookup_empty; by destruct (hasGpios pd s).
  - rewrite fold_left_app. simpl.
    remember (fold_left (countKey pd) l (initTotals (validShields pd))) as T eqn:HT. clear HT.
    destruct IH as (cs & ct & Hcs & Hct & Hr & Hc & Hi & Ho).
    unfold countKey.
    destruct om as [m|]; cbv zeta.
    2:{ exists cs, ct. repeat split; try done; intros k;
          rewrite passes_snoc_length; simpl; rewrite Nat.add_0_r; done. }
    assert (Hpass : ∀ test, passes pd test (Some m) = test (getSideAndPhysCoords pd (Some m)))
      by done.
    remember (getSideAndPhysCoords pd (Some m)) as p eqn:Hp. clear Hp.
    destruct (decide (side p = s)) as [Hsp|Hsp].
    + rewrite Hsp, Hcs.
      assert (Hrow : ∀ k, bump (rows cs) (physR p) !! k
                = counted (length (filter (λ om, Is_true (passes pd (rowTest s k) om))
                                     (l ++ [Some m])))).
      { intros k. rewrite passes_snoc_length. erewrite bump_lookup by apply Hr.
        do 2 f_equal. rewrite Hpass. unfold rowTest. rewrite roleTest_in_eq.
        rewrite (bool_decide_eq_true_2 _ Hsp). simpl.
        destruct (decide (physR p = k)).
        - by rewrite bool_decide_eq_true_2.
        - by rewrite bool_decide_eq_false_2. }
      assert (Hcol : ∀ k, bump (cols cs) (physC p) !! k
                = counted (length (filter (λ om, Is_true (passes pd (colTest s k) om))
                                     (l ++ [Some m])))).
      { intros k. rewrite passes_snoc_length. erewrite bump_lookup by apply Hc.
        do 2 f_equal. rewrite Hpass. unfold colTest. rewrite roleTest_out_eq.
        rewrite (bool_decide_eq_true_2 _ Hsp). simpl.
        destruct (decide (physC p = k)).
        - by rewrite bool_decide_eq_true_2.
        - by rewrite bool_decide_eq_false_2. }
      destruct (hasGpios pd s) eqn:Hg.
      * rewrite Hct. simpl. rewrite !lookup_insert_eq.
        eexists _, _. split; [done|]. split; [done|]. simpl.
        split; [done|]. split; [done|].
        split; intros k; unfold bump.
        -- destruct (decide (physR p = k)) as [->|Hne];
             [by rewrite !lookup_insert_eq, Hi
             | by rewrite !lookup_insert_ne, Hi by done].
        -- destruct (decide (physC p = k)) as [->|Hne];
             [by rewrite !lookup_insert_eq, Ho
             | by rewrite !lookup_insert_ne, Ho by done].
      * simpl. rewrite !lookup_insert_eq, Hct.
        eexists _, _. split; [done|]. split; [done|]. simpl.
        split; [done|]. split; [done|]. split; intros k; [by rewrite Hi | by rewrite Ho].
    + assert (Hfilt : ∀ test k,
                test = rowTest ∨ test = colTest →
                length (filter (λ om, Is_true (passes pd (test s k) om)) (l ++ [Some m]))
                = length (filter (λ om, Is_true (passes pd (test s k) om)) l)).
      { intros test k Htest. rewrite passes_snoc_length.
        destruct Htest as [-> | ->]; rewrite Hpass;
          unfold rowTest, colTest, roleTest, onSide;
          rewrite (bool_decide_eq_false_2 _ Hsp); simpl; lia. }
      destruct (counts T !! side p) as [cs0|] eqn:Hcs0.
      * destruct (hasGpios pd (side p)); [destruct (charlieTotals T !! side p)|]; simpl;
          rewrite ?lookup_insert_ne by done; rewrite Hcs, Hct;
          exists cs, ct; (split; [done|]); (split; [done|]);
          (split; [intros k; rewrite Hfilt; auto|]);
          (split; [intros k; rewrite Hfilt; auto|]); done.
      * rewrite Hcs, Hct. exists cs, ct. split; [done|]. split; [done|].
        split; [intros k; rewrite Hfilt; auto|].
        split; [intros k; rewrite Hfilt; auto|]. done.
Qed.

Lemma keysOf_snoc pd test (l : list nat) idx :
  keysOf pd test (l ++ [idx])
  = keysOf pd test l ++ (if passes pd test (entryAt pd idx) then [idx] else []).
Proof.
  unfold keysOf. rewrite filter_snoc.
  destruct (decide (Is_true (passes pd test (entryAt pd idx)))) as [Hp|Hp];
    destruct (passes pd test (entryAt pd idx)); simpl in *; done.
Qed.

Lemma elem_of_keysOf pd test (l : list nat) idx :
  idx ∈ keysOf pd test l
  ↔ idx ∈ l ∧ ∃ m, entryAt pd idx = Some m ∧ test (getSideAndPhysCoords pd (Some m)) = true.
Proof.
  unfold keysOf. rewrite list_elem_of_filter. unfold passes.
  destruct (entryAt pd idx) as [m|]; simpl.
  - rewrite Is_true_true. split.
    + intros [Ht Hin]. split; [done|]. by exists m.
    + intros [Hin (m' & [= <-] & Ht)]. done.
  - split; [by intros [[] _] | by intros [_ (m' & [=] & _)]].
Qed.

(** After any number of rounds of step 3, the tables of a valid shield hold
    the failing keys seen on each of its rows and columns, in the order in
    which they were selected. *)
Lemma failing_fold pd (l : list nat) s :
  s ∈ validShields pd →
  ∃ g cc,
    groups (fold_left (groupKey pd) l (initFailing (validShields pd))) !! s = Some g
    ∧ charlieCounts (fold_left (groupKey pd) l (initFailing (validShields pd))) !! s = Some cc
    ∧ (∀ k, rows g !! k = grouped (keysOf pd (rowTest s k) l))
    ∧ (∀ k, cols g !! k = grouped (keysOf pd (colTest s k) l))
    ∧ (∀ k, in_ cc !! k
            = if hasGpios pd s then counted (length (keysOf pd (rowTest s k) l)) else None)
    ∧ (∀ k, out cc !! k
            = if hasGpios pd s then counted (length (keysOf pd (colTest s k) l)) else None).
Proof.
  intros Hs. induction l as [|idx l IH] using rev_ind.
  - simpl. destruct (initFailing_lookup (validShields pd) s) as [H1 H2].
    rewrite decide_True in H1 by done. rewrite decide_True in H2 by done.
    exists (mkRC ∅ ∅), (mkIO ∅ ∅). simpl. rewrite H1, H2.
    repeat split; try done; intros k; rewrite ?lookup_empty; by destruct (hasGpios pd s).
  - rewrite fold_left_app. simpl.
    remember (fold_left (groupKey pd) l (initFailing (validShields pd))) as T eqn:HT. clear HT.
    destruct IH as (g & cc & Hg & Hcc & Hr & Hc & Hi & Ho).
    unfold groupKey.
    destruct (entryAt pd idx) as [m|] eqn:Hm; cbv zeta.
    2:{ exists g, cc. repeat split; try done; intros k;
          rewrite keysOf_snoc, Hm; simpl; rewrite app_nil_r; done. }
    assert (Hpass : ∀ test, passes pd test (Some m) = test (getSideAndPhysCoords pd (Some m)))
      by done.
    remember (getSideAndPhysCoords pd (Some m)) as p eqn:Hp. clear Hp.
    destruct (decide (side p = s)) as [Hsp|Hsp].
    + rewrite Hsp, Hg.
      assert (Hrow : ∀ k, keysOf pd (rowTest s k) (l ++ [idx])
                = keysOf pd (rowTest s k) l ++ (if decide (physR p = k) then [idx] else [])).
      { intros k. rewrite keysOf_snoc, Hm, Hpass. unfold rowTest. rewrite roleTest_in_eq.
        rewrite (bool_decide_eq_true_2 _ Hsp). simpl.
        destruct (decide (physR p = k)).
        - by rewrite bool_decide_eq_true_2.
        - by rewrite bool_decide_eq_false_2. }
      assert (Hcol : ∀ k, keysOf pd (colTest s k) (l ++ [idx])
                = keysOf pd (colTest s k) l ++ (if decide (physC p = k) then [idx] else [])).
      { intros k. rewrite keysOf_snoc, Hm, Hpass. unfold colTest. rewrite roleTest_out_eq.
        rewrite (bool_decide_eq_true_2 _ Hsp). simpl.
        destruct (decide (physC p = k)).
        - by rewrite bool_decide_eq_true_2.
        - by rewrite bool_decide_eq_false_2. }
      assert (Hlen : ∀ (a : list nat) (b : bool) (P : Prop) (d : Decision P),
                length (a ++ (if d then [idx] else [])) = length a + (if d then 1 else 0)).
      { intros a _ P d. rewrite length_app. by destruct d. }
      destruct (hasGpios pd s) eqn:Hgp.
      * rewrite Hcc. simpl. rewrite !lookup_insert_eq.
        eexists _, _. split; [done|]. split; [done|]. simpl.
        split; [intros k; rewrite Hrow; by apply pushAt_lookup|].
        split; [intros k; rewrite Hcol; by apply pushAt_lookup|].
        split; intros k.
        -- rewrite Hrow, (Hlen _ true). by apply bump_lookup.
        -- rewrite Hcol, (Hlen _ true). by apply bump_lookup.
      * simpl. rewrite !lookup_insert_eq, Hcc.
        eexists _, _. split; [done|]. split; [done|]. simpl.
        split; [intros k; rewrite Hrow; by apply pushAt_lookup|].
        split; [intros k; rewrite Hcol; by apply pushAt_lookup|].
        split; intros k; [by rewrite Hi | by rewrite Ho].
    + assert (Hfilt : ∀ test k,
                test = rowTest ∨ test = colTest →
                keysOf pd (test s k) (l ++ [idx]) = keysOf pd (test s k) l).
      { intros test k Htest. rewrite keysOf_snoc, Hm, Hpass.
        destruct Htest as [-> | ->];
          unfold rowTest, colTest, roleTest, onSide;
          rewrite (bool_decide_eq_false_2 _ Hsp); simpl; by rewrite app_nil_r. }
      destruct (groups T !! side p) as [g0|] eqn:Hg0.
      * destruct (hasGpios pd (side p)); [destruct (charlieCounts T !! side p)|]; simpl;
          rewrite ?lookup_insert_ne by done; rewrite Hg, Hcc;
          exists g, cc; (split; [done|]); (split; [done|]);
          (split; [intros k; rewrite Hfilt; auto|]);
          (split; [intros k; rewrite Hfilt; auto|]);
          (split; intros k; rewrite Hfilt; auto).
      * rewrite Hg, Hcc. exists g, cc. split; [done|]. split; [done|].
        split; [intros k; rewrite Hfilt; auto|].
        split; [intros k; rewrite Hfilt; auto|].
        split; intros k; rewrite Hfilt; auto.
Qed.

Lemma filter_lookup_seq (Q : option MatrixEntry → Prop) `{∀ x, Decision (Q x)}
    (l : list (option MatrixEntry)) :
  length (filter (λ i, Q (mjoin (l !! i))) (seq 0 (length l))) = length (filter Q l).
Proof.
  induction l as [|x l IH] using rev_ind; [done|].
  rewrite length_app. simpl. rewrite Nat.add_1_r, seq_S. simpl.
  rewrite !filter_app, !length_app. f_equal.
  - rewrite <- IH. f_equal. apply filter_ext_in. intros i Hi.
    apply elem_of_seq in Hi. by rewrite lookup_app_l by lia.
  - rewrite !filter_cons, !filter_nil.
    rewrite lookup_app_r by lia. rewrite Nat.sub_diag. simpl.
    by destruct (decide (Q x)).
Qed.

Lemma length_keysWhere pd test :
  length (keysWhere pd test)
  = length (filter (λ om, Is_true (passes pd test om)) (matrixMap pd)).
Proof.
  unfold keysWhere, keysOf, entryAt.
  exact (@filter_lookup_seq (λ om, Is_true (passes pd test om))
           (λ om, Is_true_dec (passes pd test om)) (matrixMap pd)).
Qed.

Lemma elem_of_keysWhere pd test idx :
  idx ∈ keysWhere pd test
  ↔ ∃ m, entryAt pd idx = Some m ∧ test (getSideAndPhysCoords pd (Some m)) = true.
Proof.
  unfold keysWhere. rewrite elem_of_keysOf. split; [by intros [_ ?]|].
  intros (m & Hm & Ht). split; [|by exists m].
  apply elem_of_seq. split; [lia|]. simpl.
  unfold entryAt in Hm. destruct (matrixMap pd !! idx) as [om|] eqn:Hl; [|done].
  by apply lookup_lt_Some in Hl.
Qed.

(** The tables with which step 4 starts. *)
Lemma totalsOf_lookup pd s :
  s ∈ validShields pd →
  ∃ cs ct,
    counts (totalsOf pd) !! s = Some cs
    ∧ charlieTotals (totalsOf pd) !! s = Some ct
    ∧ (∀ k, rows cs !! k = counted (length (keysWhere pd (rowTest s k))))
    ∧ (∀ k, cols cs !! k = counted (length (keysWhere pd (colTest s k))))
    ∧ (∀ k, in_ ct !! k = if hasGpios pd s then rows cs !! k else None)
    ∧ (∀ k, out ct !! k = if hasGpios pd s then cols cs !! k else None).
Proof.
  intros Hs. destruct (totals_fold pd (matrixMap pd) s Hs)
    as (cs & ct & Hcs & Hct & Hr & Hc & Hi & Ho).
  exists cs, ct. repeat split; try done; intros k; by rewrite length_keysWhere.
Qed.

(** ** Passes that push reports *)

Lemma pushAll_nil a : pushAll [] a = a.
Proof.
  destruct a as [rep cov]. unfold pushAll. simpl.
  by rewrite app_nil_r, (right_id_L ∅ (∪)).
Qed.

Lemma pushAll_app L1 L2 a : pushAll L2 (pushAll L1 a) = pushAll (L1 ++ L2) a.
Proof.
  unfold pushAll. simpl. f_equal.
  - by rewrite app_assoc.
  - by rewrite bind_app, list_to_set_app_L, (assoc_L (∪)).
Qed.

Lemma push_pushAll rep a : push rep (indices rep) a = pushAll [rep] a.
Proof. unfold push, pushAll. simpl. by rewrite app_nil_r. Qed.

Lemma Pushes_id : Pushes (λ a, a).
Proof. intros a. simpl. by rewrite pushAll_nil. Qed.

Lemma Pushes_push rep : Pushes (push rep (indices rep)).
Proof. intros a. by rewrite !push_pushAll. Qed.

Lemma Pushes_comp f g :
  Pushes f → Pushes g →
  Pushes (λ a, g (f a))
  ∧ report (g (f noReports)) = report (f noReports) ++ report (g noReports).
Proof.
  intros Hf Hg.
  assert (Hrep : report (g (f noReports)) = report (f noReports) ++ report (g noReports))
    by (by rewrite (Hg (f noReports))).
  split; [|done]. intros a. rewrite Hrep, <- pushAll_app, <- Hf. apply Hg.
Qed.

Lemma Pushes_fold {B} (step : Acc → B → Acc) (l : list B) :
  (∀ x, Pushes (λ a, step a x)) →
  Pushes (fold_left step l)
  ∧ report (fold_left step l noReports) = l ≫= (λ x, report (step noReports x)).
Proof.
  intros Hstep. induction l as [|x l [IH1 IH2]] using rev_ind.
  - split; [apply Pushes_id | done].
  - destruct (Pushes_comp (fold_left step l) (λ a, step a x) IH1 (Hstep x)) as [H1 H2].
    split.
    + intros a. rewrite !fold_left_app. simpl. apply H1.
    + rewrite fold_left_app. simpl. rewrite H2, IH2, bind_app. simpl.
      by rewrite app_nil_r.
Qed.

(** ** Key enumeration of the tables *)

Lemma elem_of_Object_keys {V} (o : gmap nat V) k : k ∈ Object_keys o ↔ is_Some (o !! k).
Proof.
  unfold Object_keys. rewrite merge_sort_Permutation.
  rewrite list_elem_of_fmap. split.
  - intros ([k' v] & -> & Hin). apply elem_of_map_to_list in Hin. by exists v.
  - intros [v Hv]. exists (k, v). split; [done|]. by apply elem_of_map_to_list.
Qed.

Lemma NoDup_Object_keys {V} (o : gmap nat V) : NoDup (Object_keys o).
Proof.
  unfold Object_keys. rewrite merge_sort_Permutation. apply NoDup_fst_map_to_list.
Qed.

Lemma elem_of_setFrom seen l x : x ∈ setFrom seen l ↔ x ∈ l ∧ x ∉ seen.
Proof.
  revert seen. induction l as [|y l IH]; intros seen; simpl.
  - split; [by intros ?%elem_of_nil | by intros [?%elem_of_nil _]].
  - destruct (bool_decide (y ∈ seen)) eqn:Hy.
    + apply bool_decide_eq_true in Hy. rewrite IH, elem_of_cons. split.
      * intros [? ?]. split; [by right | done].
      * intros [[-> | ?] ?]; done.
    + apply bool_decide_eq_false in Hy. rewrite !elem_of_cons, IH, elem_of_cons. split.
      * intros [-> | [? ?]]; [by split; [left|] | split; [by right | tauto]].
      * intros [[-> | ?] ?]; [by left|].
        destruct (decide (x = y)) as [->|]; [by left | right; tauto].
Qed.

Lemma NoDup_setFrom seen l : NoDup (setFrom seen l).
Proof.
  revert seen. induction l as [|y l IH]; intros seen; simpl; [constructor|].
  destruct (bool_decide (y ∈ seen)); [apply IH|].
  constructor; [|apply IH]. rewrite elem_of_setFrom. intros [_ Hn]. apply Hn. left.
Qed.

(** ** The passes of step 4 push reports *)

Lemma interruptPass_Pushes pd sel s pMap : Pushes (interruptPass pd sel s pMap).
Proof.
  intros a. unfold interruptPass.
  destruct (interrupt pMap) as [pin|]; [|apply Pushes_id].
  destruct (bool_decide (pin ≠ ""%string)); [|apply Pushes_id].
  destruct (_ && _); [|apply Pushes_id].
  apply (Pushes_push (RInterrupt s pin (keysWhere pd (onSide s)))).
Qed.

Lemma charliePin_Pushes pd sel s gp cc ct pIdx :
  Pushes (λ a, charliePin pd sel s gp cc ct a pIdx).
Proof.
  intros a. unfold charliePin. cbv zeta.
  destruct (_ || _); [|apply Pushes_id].
  match goal with |- push ?rep _ _ = _ => apply (Pushes_push rep) end.
Qed.

Lemma charliePass_Pushes pd sel T F s gp : Pushes (charliePass pd sel T F s gp).
Proof.
  unfold charliePass.
  destruct (charlieTotals T !! s) as [ct|]; [|apply Pushes_id].
  destruct (charlieCounts F !! s) as [cc|]; [|apply Pushes_id].
  apply Pushes_fold. intros pIdx. apply charliePin_Pushes.
Qed.

Lemma directKey_Pushes pd s d idx : Pushes (λ a, directKey pd s d a idx).
Proof.
  intros a. unfold directKey. cbv zeta.
  match goal with |- push ?rep _ _ = _ => apply (Pushes_push rep) end.
Qed.

Lemma directPass_Pushes pd sel s d : Pushes (directPass pd sel s d).
Proof.
  unfold directPass. cbv zeta.
  destruct (_ && _).
  - apply (Pushes_push (RDirectGnd s (keysWhere pd (directTest s d)))).
  - apply Pushes_fold. intros idx. apply directKey_Pushes.
Qed.

Lemma rowLine_Pushes s pMap g tot k : Pushes (λ a, rowLine s pMap g tot a k).
Proof.
  intros a. unfold rowLine. cbv zeta.
  destruct (majority _ _); [|apply Pushes_id].
  match goal with |- push ?rep _ _ = _ => apply (Pushes_push rep) end.
Qed.

Lemma colLine_Pushes s pMap g tot k : Pushes (λ a, colLine s pMap g tot a k).
Proof.
  intros a. unfold colLine. cbv zeta.
  destruct (majority _ _); [|apply Pushes_id].
  match goal with |- push ?rep _ _ = _ => apply (Pushes_push rep) end.
Qed.

Lemma standardPass_Pushes T F s pMap : Pushes (standardPass T F s pMap).
Proof.
  unfold standardPass.
  destruct (groups F !! s) as [g|]; [|apply Pushes_id]. cbv zeta.
  eapply Pushes_comp; apply Pushes_fold; intros k;
    [apply rowLine_Pushes | apply colLine_Pushes].
Qed.

Lemma wiringPass_Pushes pd sel T F s pMap : Pushes (wiringPass pd sel T F s pMap).
Proof.
  unfold wiringPass. destruct (gpios pMap); [apply charliePass_Pushes|].
  destruct (direct pMap); [apply directPass_Pushes | apply standardPass_Pushes].
Qed.

(** The reports before the single keys: the interrupt report, then those of
    the wiring mode. *)
Lemma lineReports_eq pd sel s pMap :
  obj_get (pinMap pd) s = Some pMap →
  lineReports pd sel s
  = report (interruptPass pd sel s pMap noReports)
    ++ report (wiringPass pd sel (totalsOf pd) (failingOf pd sel) s pMap noReports).
Proof.
  intros Hp. unfold lineReports. rewrite Hp.
  apply (Pushes_comp (interruptPass pd sel s pMap)
           (wiringPass pd sel (totalsOf pd) (failingOf pd sel) s pMap)).
  - apply interruptPass_Pushes.
  - apply wiringPass_Pushes.
Qed.

(** The single keys of a pass: the failing keys of the shield that are not
    covered, in the order of selection. *)
Lemma singleKey_fold pd s (l : list nat) a :
  fold_left (singleKey pd s) l a
  = {| report := report a ++ singlesOf pd s (coveredIndices a) l;
       coveredIndices := coveredIndices a |}.
Proof.
  induction l as [|idx l IH] using rev_ind.
  - simpl. unfold singlesOf. simpl. rewrite app_nil_r. by destruct a.
  - rewrite fold_left_app, IH. simpl. unfold singleKey at 1. simpl.
    unfold singlesOf. rewrite filter_snoc, map_app, app_assoc.
    destruct (decide ((idx ∉ coveredIndices a)
                      ∧ Is_true (passes pd (onSide s) (entryAt pd idx)))) as [[Hc Hp]|Hn].
    + rewrite bool_decide_eq_false_2 by done.
      unfold singleOf. simpl. unfold passes in Hp.
      destruct (entryAt pd idx) as [m|]; [|done].
      apply Is_true_eq_true in Hp. by rewrite Hp.
    + simpl. rewrite app_nil_r.
      destruct (bool_decide (idx ∈ coveredIndices a)) eqn:Hb; [done|].
      apply bool_decide_eq_false in Hb. unfold passes in Hn.
      destruct (entryAt pd idx) as [m|]; [|done].
      destruct (onSide s (getSideAndPhysCoords pd (Some m))); [|done].
      destruct Hn. by split.
Qed.

(** One shield's pass, from any accumulator. *)
Lemma analyzeSide_eq pd sel a s pMap :
  obj_get (pinMap pd) s = Some pMap →
  analyzeSide pd sel (totalsOf pd) (failingOf pd sel) a s
  = {| report := report a ++ lineReports pd sel s
                 ++ singlesOf pd s
                      (coveredIndices a ∪ list_to_set (lineReports pd sel s ≫= indices)) sel;
       coveredIndices :=
         coveredIndices a ∪ list_to_set (lineReports pd sel s ≫= indices) |}.
Proof.
  intros Hp. unfold analyzeSide. rewrite Hp. cbv zeta.
  rewrite singleKey_fold.
  pose proof (Pushes_comp (interruptPass pd sel s pMap)
           (wiringPass pd sel (totalsOf pd) (failingOf pd sel) s pMap)
           (interruptPass_Pushes _ _ _ _) (wiringPass_Pushes _ _ _ _ _ _)) as [HP _].
  rewrite (HP a). unfold lineReports. rewrite Hp. simpl. by rewrite app_assoc.
Qed.

(** ** What each wiring-mode pass reports *)

Lemma default_counted n : default 0 (counted n) = n.
Proof. unfold counted. by destruct (decide (n = 0)) as [->|]. Qed.

Lemma default_grouped l : default [] (grouped l) = l.
Proof. unfold grouped. by destruct (decide (l = [])) as [->|]. Qed.

Lemma is_Some_counted n : is_Some (counted n) ↔ 0 < n.
Proof.
  unfold counted. destruct (decide (n = 0)) as [->|].
  - split; [by intros [? ?] | lia].
  - split; [lia | by eexists].
Qed.

Lemma is_Some_grouped l : is_Some (grouped l) ↔ 0 < length l.
Proof.
  unfold grouped. destruct (decide (l = [])) as [->|].
  - split; [by intros [? ?] | simpl; lia].
  - split; [destruct l; simpl; [done | lia] | by eexists].
Qed.

(** A failing key with a position is one of the keys with that position. *)
Lemma keysOf_keysWhere pd test (l : list nat) idx :
  idx ∈ keysOf pd test l → idx ∈ keysWhere pd test.
Proof. rewrite elem_of_keysOf, elem_of_keysWhere. by intros [_ ?]. Qed.

Lemma keysOf_pos pd test (l : list nat) :
  0 < length (keysOf pd test l) → 0 < length (keysWhere pd test).
Proof.
  destruct (keysOf pd test l) as [|idx l'] eqn:Hl; simpl; [lia|]. intros _.
  assert (Hin : idx ∈ keysWhere pd test).
  { apply (keysOf_keysWhere pd test l). rewrite Hl. left. }
  destruct (keysWhere pd test); [by apply elem_of_nil in Hin | simpl; lia].
Qed.

Lemma majority_over60 pd test (l : list nat) :
  majority (length (keysOf pd test l)) (length (keysWhere pd test)) = true
  ↔ over60 (length (keysOf pd test l)) (length (keysWhere pd test)).
Proof.
  unfold majority, over60. rewrite andb_true_iff, !bool_decide_eq_true.
  split; [by intros [_ ?]|]. intros Ho. split; [|done].
  apply (keysOf_pos pd test l). lia.
Qed.

Lemma failingOf_lookup pd sel s :
  s ∈ validShields pd →
  ∃ g cc,
    groups (failingOf pd sel) !! s = Some g
    ∧ charlieCounts (failingOf pd sel) !! s = Some cc
    ∧ (∀ k, rows g !! k = grouped (keysOf pd (rowTest s k) sel))
    ∧ (∀ k, cols g !! k = grouped (keysOf pd (colTest s k) sel))
    ∧ (∀ k, in_ cc !! k
            = if hasGpios pd s then counted (length (keysOf pd (rowTest s k) sel)) else None)
    ∧ (∀ k, out cc !! k
            = if hasGpios pd s then counted (length (keysOf pd (colTest s k) sel)) else None).
Proof. apply failing_fold. Qed.

Lemma charliePin_report pd sel s gp cc ct pIdx inC inT outC outT :
  in_ cc !! pIdx = counted inC → in_ ct !! pIdx = counted inT →
  out cc !! pIdx = counted outC → out ct !! pIdx = counted outT →
  report (charliePin pd sel s gp cc ct noReports pIdx)
  = if majority inC inT || majority outC outT
    then [RCharlie s pIdx (pinOrUnknown gp pIdx)
            (roleOf (majority inC inT) (majority outC outT))
            (thoseSelected sel
               (keysWhere pd
                  (roleTest s (roleOf (majority inC inT) (majority outC outT)) pIdx)))]
    else [].
Proof.
  intros H1 H2 H3 H4. unfold charliePin. cbv zeta.
  rewrite H1, H2, H3, H4, !default_counted.
  by destruct (_ || _).
Qed.

Lemma charliePass_reports pd sel s gp rep :
  s ∈ validShields pd → hasGpios pd s = true →
  rep ∈ report (charliePass pd sel (totalsOf pd) (failingOf pd sel) s gp noReports)
  ↔ ∃ pIdx,
      let inFail := majority (length (keysOf pd (rowTest s pIdx) sel))
                      (length (keysWhere pd (rowTest s pIdx))) in
      let outFail := majority (length (keysOf pd (colTest s pIdx) sel))
                       (length (keysWhere pd (colTest s pIdx))) in
      inFail || outFail = true
      ∧ rep = RCharlie s pIdx (pinOrUnknown gp pIdx) (roleOf inFail outFail)
                (thoseSelected sel (keysWhere pd (roleTest s (roleOf inFail outFail) pIdx))).
Proof.
  intros Hs Hg.
  destruct (totalsOf_lookup pd s Hs) as (cs & ct & Hcs & Hct & Hr & Hc & Hi & Ho).
  destruct (failingOf_lookup pd sel s Hs) as (g & cc & Hgr & Hcc & _ & _ & Hci & Hco).
  rewrite Hg in Hi, Ho, Hci, Hco.
  unfold charliePass. rewrite Hct, Hcc.
  destruct (Pushes_fold (charliePin pd sel s gp cc ct)
              (setFrom [] (Object_keys (in_ ct) ++ Object_keys (out ct)))
              (charliePin_Pushes pd sel s gp cc ct)) as [_ ->].
  rewrite list_elem_of_bind.
  pose proof (λ pIdx, charliePin_report pd sel s gp cc ct pIdx _ _ _ _
          (Hci pIdx) (eq_trans (Hi pIdx) (Hr pIdx))
          (Hco pIdx) (eq_trans (Ho pIdx) (Hc pIdx))) as Hpin.
  setoid_rewrite Hpin. cbv zeta.
  split.
  - intros (pIdx & Hrep & _). exists pIdx.
    destruct (_ || _); [|by apply elem_of_nil in Hrep].
    apply list_elem_of_singleton in Hrep. by split.
  - intros (pIdx & Hfail & ->). exists pIdx. rewrite Hfail. split; [left|].
    rewrite elem_of_setFrom. split; [|by intros ?%elem_of_nil].
    rewrite elem_of_app, !elem_of_Object_keys, Hi, Ho, Hr, Hc, !is_Some_counted.
    apply orb_true_iff in Hfail as [Hf|Hf]; [left|right];
      unfold majority in Hf; apply andb_true_iff in Hf as [Hf _];
      by apply bool_decide_eq_true in Hf.
Qed.

Lemma rowLine_report s pMap (g : gmap nat (list nat)) (tot : gmap nat nat) k l n :
  g !! k = grouped l → tot !! k = counted n →
  report (rowLine s pMap g tot noReports k)
  = if majority (length l) n then [RRow s k (linePin (row pMap) k) l] else [].
Proof.
  intros Hg Ht. unfold rowLine. cbv zeta.
  rewrite Hg, Ht, default_counted, default_grouped. by destruct (majority _ _).
Qed.

Lemma colLine_report s pMap (g : gmap nat (list nat)) (tot : gmap nat nat) k l n :
  g !! k = grouped l → tot !! k = counted n →
  report (colLine s pMap g tot noReports k)
  = if majority (length l) n then [RCol s k (linePin (col pMap) k) l] else [].
Proof.
  intros Hg Ht. unfold colLine. cbv zeta.
  rewrite Hg, Ht, default_counted, default_grouped. by destruct (majority _ _).
Qed.

Lemma standardPass_reports pd sel s pMap rep :
  s ∈ validShields pd →
  rep ∈ report (standardPass (totalsOf pd) (failingOf pd sel) s pMap noReports)
  ↔ (∃ k, over60 (length (keysOf pd (rowTest s k) sel)) (length (keysWhere pd (rowTest s k)))
          ∧ rep = RRow s k (linePin (row pMap) k) (keysOf pd (rowTest s k) sel))
    ∨ (∃ k, over60 (length (keysOf pd (colTest s k) sel))
              (length (keysWhere pd (colTest s k)))
            ∧ rep = RCol s k (linePin (col pMap) k) (keysOf pd (colTest s k) sel)).
Proof.
  intros Hs.
  destruct (totalsOf_lookup pd s Hs) as (cs & ct & Hcs & _ & Hr & Hc & _ & _).
  destruct (failingOf_lookup pd sel s Hs) as (g & cc & Hgr & _ & Hgr' & Hgc & _ & _).
  unfold standardPass. rewrite Hgr, Hcs. cbv zeta. simpl default.
  destruct (Pushes_comp
              (fold_left (rowLine s pMap (rows g) (rows cs)) (Object_keys (rows g)))
              (fold_left (colLine s pMap (cols g) (cols cs)) (Object_keys (cols g))))
    as [_ ->].
  { apply Pushes_fold. intros k. apply rowLine_Pushes. }
  { apply Pushes_fold. intros k. apply colLine_Pushes. }
  destruct (Pushes_fold (rowLine s pMap (rows g) (rows cs)) (Object_keys (rows g))
              (rowLine_Pushes s pMap (rows g) (rows cs))) as [_ ->].
  destruct (Pushes_fold (colLine s pMap (cols g) (cols cs)) (Object_keys (cols g))
              (colLine_Pushes s pMap (cols g) (cols cs))) as [_ ->].
  rewrite elem_of_app, !list_elem_of_bind.
  pose proof (λ k, rowLine_report s pMap (rows g) (rows cs) k _ _ (Hgr' k) (Hr k)) as Hrow.
  pose proof (λ k, colLine_report s pMap (cols g) (cols cs) k _ _ (Hgc k) (Hc k)) as Hcol.
  setoid_rewrite Hrow. setoid_rewrite Hcol.
  setoid_rewrite elem_of_Object_keys.
  setoid_rewrite Hgr'. setoid_rewrite Hgc. setoid_rewrite is_Some_grouped.
  setoid_rewrite <- majority_over60.
  split.
  - intros [(k & Hrep & _)|(k & Hrep & _)]; [left|right]; exists k;
      (destruct (majority _ _); [|by apply elem_of_nil in Hrep]);
      apply list_elem_of_singleton in Hrep; by split.
  - intros [(k & Hm & ->)|(k & Hm & ->)]; [left|right]; exists k; rewrite Hm;
      (split; [left|]);
      unfold majority in Hm; apply andb_true_iff in Hm as [_ Hm];
      apply bool_decide_eq_true in Hm; lia.
Qed.

Lemma directKey_report pd s d idx :
  report (directKey pd s d noReports idx) = [directOf pd s d idx].
Proof. done. Qed.

Lemma directPass_report pd sel s d :
  report (directPass pd sel s d noReports)
  = if bool_decide (2 < length (keysWhere pd (directTest s d)))
       && nearlyAll (length (thoseSelected sel (keysWhere pd (directTest s d))))
            (length (keysWhere pd (directTest s d)))
    then [RDirectGnd s (keysWhere pd (directTest s d))]
    else map (directOf pd s d) (thoseSelected sel (keysWhere pd (directTest s d))).
Proof.
  unfold directPass. cbv zeta. destruct (_ && _); [done|].
  destruct (Pushes_fold (directKey pd s d)
              (thoseSelected sel (keysWhere pd (directTest s d)))
              (directKey_Pushes pd s d)) as [_ ->].
  induction (thoseSelected sel (keysWhere pd (directTest s d))) as [|x l IH]; [done|].
  simpl. by rewrite <- IH.
Qed.

Lemma interruptPass_report pd sel s pMap :
  report (interruptPass pd sel s pMap noReports)
  = match interrupt pMap with
    | Some pin =>
        if bool_decide (pin ≠ ""%string)
           && (bool_decide (5 < length (keysWhere pd (onSide s)))
               && nearlyAll (length (selectedOn pd sel s))
                    (length (keysWhere pd (onSide s))))
        then [RInterrupt s pin (keysWhere pd (onSide s))]
        else []
    | None => []
    end.
Proof.
  unfold interruptPass. destruct (interrupt pMap) as [pin|]; [|done].
  destruct (bool_decide (pin ≠ ""%string)); [|done]. simpl.
  by destruct (_ && _).
Qed.

(** ** The reports of a shield concern its own keys *)

Lemma keyOn_keysWhere pd s test idx :
  (∀ p, test p = true → onSide s p = true) →
  idx ∈ keysWhere pd test → keyOn pd s idx.
Proof.
  intros Htest (m & Hm & Ht)%elem_of_keysWhere. exists m. split; [done|].
  apply Htest in Ht. by apply bool_decide_eq_true in Ht.
Qed.

Lemma keyOn_keysOf pd s test (l : list nat) idx :
  (∀ p, test p = true → onSide s p = true) →
  idx ∈ keysOf pd test l → keyOn pd s idx.
Proof. intros Htest Hin. eapply keyOn_keysWhere; [done|]. by eapply keysOf_keysWhere. Qed.

Lemma roleTest_onSide s role k p : roleTest s role k p = true → onSide s p = true.
Proof. unfold roleTest. by intros [? _]%andb_true_iff. Qed.

Lemma directTest_onSide s d p : directTest s d p = true → onSide s p = true.
Proof. unfold directTest. by intros [? _]%andb_true_iff. Qed.

Lemma keyOn_unique pd s1 s2 idx : keyOn pd s1 idx → keyOn pd s2 idx → s1 = s2.
Proof. intros (m1 & Hm1 & <-) (m2 & Hm2 & <-). congruence. Qed.

Lemma elem_of_thoseSelected sel (l : list nat) idx :
  idx ∈ thoseSelected sel l ↔ idx ∈ sel ∧ idx ∈ l.
Proof. unfold thoseSelected. by rewrite list_elem_of_filter. Qed.

Lemma hasGpios_of pd s pMap gp :
  obj_get (pinMap pd) s = Some pMap → gpios pMap = Some gp → hasGpios pd s = true.
Proof. intros Hp Hg. unfold hasGpios. rewrite Hp, Hg. by apply bool_decide_eq_true. Qed.

Lemma lineReports_own pd sel s rep :
  s ∈ validShields pd → rep ∈ lineReports pd sel s →
  reportSide rep = s ∧ isSingle rep = false ∧ ∀ idx, idx ∈ indices rep → keyOn pd s idx.
Proof.
  intros Hs. destruct (validShields_pinMap pd s Hs) as (pMap & Hp & _).
  rewrite (lineReports_eq pd sel s pMap Hp), elem_of_app.
  intros [Hrep|Hrep].
  - rewrite interruptPass_report in Hrep.
    destruct (interrupt pMap) as [pin|]; [|by apply elem_of_nil in Hrep].
    destruct (_ && _); [|by apply elem_of_nil in Hrep].
    apply list_elem_of_singleton in Hrep as ->. simpl. split; [done|]. split; [done|].
    intros idx. apply keyOn_keysWhere. done.
  - unfold wiringPass in Hrep. destruct (gpios pMap) as [gp|] eqn:Hgp.
    + apply charliePass_reports in Hrep as (pIdx & _ & ->);
        [|done|by eapply hasGpios_of].
      simpl. split; [done|]. split; [done|].
      intros idx [_ Hin]%elem_of_thoseSelected.
      eapply keyOn_keysWhere; [|done]. apply roleTest_onSide.
    + destruct (direct pMap) as [d|].
      * rewrite directPass_report in Hrep. destruct (_ && _).
        -- apply list_elem_of_singleton in Hrep as ->. simpl.
           split; [done|]. split; [done|]. intros idx.
           apply keyOn_keysWhere, directTest_onSide.
        -- apply list_elem_of_fmap in Hrep as (idx' & -> & Hin). simpl.
           split; [done|]. split; [done|].
           intros idx ->%list_elem_of_singleton.
           apply elem_of_thoseSelected in Hin as [_ Hin].
           eapply keyOn_keysWhere; [|done]. apply directTest_onSide.
      * apply standardPass_reports in Hrep as [(k & _ & ->)|(k & _ & ->)]; [| |done];
          simpl; (split; [done|]); (split; [done|]); intros idx;
          apply keyOn_keysOf, roleTest_onSide.
Qed.

Lemma singlesOf_ext pd s (C1 C2 : gset nat) (sel : list nat) :
  (∀ idx, keyOn pd s idx → (idx ∈ C1 ↔ idx ∈ C2)) →
  singlesOf pd s C1 sel = singlesOf pd s C2 sel.
Proof.
  intros Hext. unfold singlesOf. f_equal. apply filter_ext_in. intros idx _.
  split; intros [Hc Hp]; (split; [|done]); intros Hin; apply Hc;
    apply Hext; try done; unfold passes in Hp;
    (destruct (entryAt pd idx) as [m|] eqn:Hm; [|done]);
    exists m; (split; [done|]); apply Is_true_eq_true in Hp;
    by apply bool_decide_eq_true in Hp.
Qed.

(** The reports of one shield's pass: its line reports, then the failing
    keys of the shield that none of them covers. *)
Lemma sideReports_eq pd sel s :
  s ∈ validShields pd →
  sideReports pd sel s
  = lineReports pd sel s
    ++ singlesOf pd s (list_to_set (lineReports pd sel s ≫= indices)) sel.
Proof.
  intros Hs. destruct (validShields_pinMap pd s Hs) as (pMap & Hp & _).
  unfold sideReports. rewrite (analyzeSide_eq pd sel noReports s pMap Hp). simpl.
  by rewrite (left_id_L ∅ (∪)).
Qed.

(** The passes of the shields do not interfere: whatever was covered
    before, a shield's pass appends its own reports. *)
Lemma analyzeSide_fold pd sel (l : list string) a :
  (∀ s, s ∈ l → s ∈ validShields pd) →
  (∀ idx, idx ∈ coveredIndices a →
     ∃ s, s ∈ validShields pd ∧ idx ∈ lineReports pd sel s ≫= indices) →
  report (fold_left (analyzeSide pd sel (totalsOf pd) (failingOf pd sel)) l a)
  = report a ++ l ≫= sideReports pd sel.
Proof.
  revert a. induction l as [|s l IH]; intros a Hl Hcov; simpl.
  - by rewrite app_nil_r.
  - assert (Hs : s ∈ validShields pd) by (apply Hl; left).
    destruct (validShields_pinMap pd s Hs) as (pMap & Hp & _).
    rewrite IH.
    + rewrite (analyzeSide_eq pd sel a s pMap Hp). simpl.
      rewrite (sideReports_eq pd sel s Hs), <- !app_assoc. do 2 f_equal.
      f_equal. apply singlesOf_ext. intros idx Hon.
      rewrite elem_of_union. split; [|by right].
      intros [Hc|Hc]; [|done]. apply elem_of_list_to_set.
      destruct (Hcov idx Hc) as (s' & Hs' & Hin).
      apply list_elem_of_bind in Hin as (rep & Hidx & Hrep).
      destruct (lineReports_own pd sel s' rep Hs' Hrep) as (_ & _ & Hown).
      rewrite (keyOn_unique pd s s' idx Hon (Hown idx Hidx)).
      apply list_elem_of_bind. by exists rep.
    + intros s' Hs'. apply Hl. by right.
    + intros idx. rewrite (analyzeSide_eq pd sel a s pMap Hp). simpl.
      rewrite elem_of_union, elem_of_list_to_set.
      intros [Hc|Hc]; [by apply Hcov | by exists s].
Qed.

(** The report list: the passes of the valid shields, in shield order. *)
Theorem analyzeFailures_eq pd sel :
  analyzeFailures pd sel = validShields pd ≫= sideReports pd sel.
Proof.
  unfold analyzeFailures. cbv zeta.
  destruct (bool_decide (length (validShields pd) = 0)) eqn:Hlen.
  - apply bool_decide_eq_true in Hlen. by destruct (validShields pd).
  - rewrite analyzeSide_fold; [done|done|]. simpl. by intros idx ?%elem_of_empty.
Qed.

(** ** Membership in the report list *)

Lemma elem_of_singlesOf pd s (C : gset nat) (sel : list nat) rep :
  rep ∈ singlesOf pd s C sel
  ↔ ∃ idx m, idx ∈ sel ∧ (idx ∉ C) ∧ entryAt pd idx = Some m
      ∧ side (getSideAndPhysCoords pd (Some m)) = s
      ∧ rep = RSingle s (r m) (c m) idx [idx].
Proof.
  unfold singlesOf. rewrite list_elem_of_fmap. split.
  - intros (idx & -> & Hin). apply list_elem_of_filter in Hin as [[Hc Hp] Hin].
    unfold passes in Hp. unfold singleOf.
    destruct (entryAt pd idx) as [m|] eqn:Hm; [|done].
    apply Is_true_eq_true, bool_decide_eq_true in Hp.
    by exists idx, m.
  - intros (idx & m & Hin & Hc & Hm & Hs & ->). exists idx. split.
    + unfold singleOf. by rewrite Hm.
    + apply list_elem_of_filter. split; [|done]. split; [done|].
      unfold passes. rewrite Hm. apply Is_true_eq_left. by apply bool_decide_eq_true.
Qed.

Lemma sideReports_own pd sel s rep :
  s ∈ validShields pd → rep ∈ sideReports pd sel s → reportSide rep = s.
Proof.
  intros Hs. rewrite (sideReports_eq pd sel s Hs), elem_of_app.
  intros [Hrep|Hrep].
  - by destruct (lineReports_own pd sel s rep Hs Hrep).
  - by apply elem_of_singlesOf in Hrep as (idx & m & _ & _ & _ & _ & ->).
Qed.

Lemma elem_of_analyzeFailures pd sel rep :
  rep ∈ analyzeFailures pd sel
  ↔ reportSide rep ∈ validShields pd ∧ rep ∈ sideReports pd sel (reportSide rep).
Proof.
  rewrite analyzeFailures_eq, list_elem_of_bind. split.
  - intros (s & Hrep & Hs). by rewrite (sideReports_own pd sel s rep Hs Hrep).
  - intros [Hs Hrep]. by exists (reportSide rep).
Qed.

(** A report other than a single key of shield [s] is in the list exactly
    when [s] is valid and its pass reports it before the single keys. *)
Lemma elem_of_analyzeFailures_line pd sel rep :
  isSingle rep = false →
  rep ∈ analyzeFailures pd sel
  ↔ reportSide rep ∈ validShields pd ∧ rep ∈ lineReports pd sel (reportSide rep).
Proof.
  intros Hns. rewrite elem_of_analyzeFailures. split; intros [Hs Hrep]; (split; [done|]).
  - rewrite (sideReports_eq pd sel _ Hs), elem_of_app in Hrep.
    destruct Hrep as [?|Hrep]; [done|].
    apply elem_of_singlesOf in Hrep as (idx & m & _ & _ & _ & _ & Heq).
    by rewrite Heq in Hns.
  - rewrite (sideReports_eq pd sel _ Hs), elem_of_app. by left.
Qed.

(** A single key is in the list exactly when it is a failing key of a valid
    shield that no line report of that shield covers. *)
Lemma elem_of_analyzeFailures_single pd sel s row col idx l :
  RSingle s row col idx l ∈ analyzeFailures pd sel
  ↔ s ∈ validShields pd ∧ idx ∈ sel ∧ l = [idx]
    ∧ (∃ m, entryAt pd idx = Some m ∧ side (getSideAndPhysCoords pd (Some m)) = s
            ∧ row = r m ∧ col = c m)
    ∧ ∀ rep, rep ∈ lineReports pd sel s → idx ∉ indices rep.
Proof.
  rewrite elem_of_analyzeFailures. simpl. split.
  - intros [Hs Hrep]. rewrite (sideReports_eq pd sel _ Hs), elem_of_app in Hrep.
    destruct Hrep as [Hrep|Hrep].
    { destruct (lineReports_own pd sel s _ Hs Hrep) as (_ & Hsingle & _).
      by simpl in Hsingle. }
    apply elem_of_singlesOf in Hrep as (idx' & m & Hin & Hc & Hm & Hside & [= -> -> -> ->]).
    split; [done|]. split; [done|]. split; [done|]. split; [by exists m|].
    intros rep Hrep Hidx. apply Hc, elem_of_list_to_set, list_elem_of_bind. by exists rep.
  - intros (Hs & Hin & -> & (m & Hm & Hside & -> & ->) & Hc). split; [done|].
    rewrite (sideReports_eq pd sel _ Hs), elem_of_app. right.
    apply elem_of_singlesOf. exists idx, m. split; [done|]. split; [|done].
    rewrite elem_of_list_to_set, list_elem_of_bind. intros (rep & Hidx & Hrep).
    by apply (Hc rep).
Qed.

(** ** The standard matrix *)

Lemma wiring_reports_standard pd sel s pMap rep :
  s ∈ validShields pd → obj_get (pinMap pd) s = Some pMap →
  gpios pMap = None → direct pMap = None →
  reportSide rep = s →
  (∀ pin l, rep ≠ RInterrupt s pin l) → isSingle rep = false →
  rep ∈ analyzeFailures pd sel
  ↔ rep ∈ report (standardPass (totalsOf pd) (failingOf pd sel) s pMap noReports).
Proof.
  intros Hs Hp Hg Hd Hside Hni Hns.
  rewrite (elem_of_analyzeFailures_line pd sel rep Hns), Hside.
  rewrite (lineReports_eq pd sel s pMap Hp), elem_of_app.
  unfold wiringPass. rewrite Hg, Hd. split.
  - intros [_ [Hrep|Hrep]]; [|done]. rewrite interruptPass_report in Hrep.
    destruct (interrupt pMap) as [pin|]; [|by apply elem_of_nil in Hrep].
    destruct (_ && _); [|by apply elem_of_nil in Hrep].
    apply list_elem_of_singleton in Hrep. by destruct (Hni _ _ Hrep).
  - intros Hrep. split; [done | by right].
Qed.

Lemma row_report_iff pd sel s pMap k pin l :
  s ∈ validShields pd → obj_get (pinMap pd) s = Some pMap →
  gpios pMap = None → direct pMap = None →
  RRow s k pin l ∈ analyzeFailures pd sel
  ↔ over60 (length (keysOf pd (rowTest s k) sel)) (length (keysWhere pd (rowTest s k)))
    ∧ pin = linePin (row pMap) k ∧ l = keysOf pd (rowTest s k) sel.
Proof.
  intros Hs Hp Hg Hd.
  rewrite (wiring_reports_standard pd sel s pMap _ Hs Hp Hg Hd) by done.
  rewrite (standardPass_reports pd sel s pMap _ Hs). split.
  - intros [(k' & Ho & [= -> -> ->])|(k' & _ & [=])]. done.
  - intros (Ho & -> & ->). left. by exists k.
Qed.

Lemma col_report_iff pd sel s pMap k pin l :
  s ∈ validShields pd → obj_get (pinMap pd) s = Some pMap →
  gpios pMap = None → direct pMap = None →
  RCol s k pin l ∈ analyzeFailures pd sel
  ↔ over60 (length (keysOf pd (colTest s k) sel)) (length (keysWhere pd (colTest s k)))
    ∧ pin = linePin (col pMap) k ∧ l = keysOf pd (colTest s k) sel.
Proof.
  intros Hs Hp Hg Hd.
  rewrite (wiring_reports_standard pd sel s pMap _ Hs Hp Hg Hd) by done.
  rewrite (standardPass_reports pd sel s pMap _ Hs). split.
  - intros [(k' & _ & [=])|(k' & Ho & [= -> -> ->])]. done.
  - intros (Ho & -> & ->). right. by exists k.
Qed.

(** C2: on a shield with neither a [gpios] nor a [direct] list, a [row]
    report for physical row [k] is in the report list exactly when five times
    the number of failing keys of the row exceeds three times the number of
    its keys (the ratio is above 0.6), and the same, independently, for a
    [col] report of a physical column; the report names the line's pin and
    all its failing keys. So 2 failing keys of 4 give no [row] report and 3
    of 4 give one, and a key can be in a [row] and in a [col] report, as key
    2 of the split board when keys 0, 1 and 2 fail. *)
Theorem C2_standard_matrix_threshold (pd : ParsedData) (sel : list nat) (s : string)
    (pMap : PinMap) :
  s ∈ validShields pd → obj_get (pinMap pd) s = Some pMap →
  gpios pMap = None → direct pMap = None →
  (∀ k,
     let failing := keysOf pd (rowTest s k) sel in
     let total := length (keysWhere pd (rowTest s k)) in
     ((∃ pin l, RRow s k pin l ∈ analyzeFailures pd sel) ↔ 3 * total < 5 * length failing)
     ∧ (∀ pin l, RRow s k pin l ∈ analyzeFailures pd sel →
          pin = linePin (row pMap) k ∧ l = failing)
     ∧ (total = 4 → length failing = 2 → ¬ ∃ pin l, RRow s k pin l ∈ analyzeFailures pd sel)
     ∧ (total = 4 → length failing = 3 → ∃ pin l, RRow s k pin l ∈ analyzeFailures pd sel))
  ∧ (∀ k,
       let failing := keysOf pd (colTest s k) sel in
       let total := length (keysWhere pd (colTest s k)) in
       ((∃ pin l, RCol s k pin l ∈ analyzeFailures pd sel) ↔ 3 * total < 5 * length failing)
       ∧ (∀ pin l, RCol s k pin l ∈ analyzeFailures pd sel →
            pin = linePin (col pMap) k ∧ l = failing))
  ∧ (∃ pinR pinC lR lC,
       RRow "left" 0 pinR lR ∈ analyzeFailures splitBoard [0; 1; 2]
       ∧ RCol "left" 2 pinC lC ∈ analyzeFailures splitBoard [0; 1; 2]
       ∧ 2 ∈ lR ∧ 2 ∈ lC).
Proof.
  intros Hs Hp Hg Hd.
  assert (Hrow : ∀ k, (∃ pin l, RRow s k pin l ∈ analyzeFailures pd sel)
            ↔ 3 * length (keysWhere pd (rowTest s k))
              < 5 * length (keysOf pd (rowTest s k) sel)).
  { intros k. split.
    - intros (pin & l & Hin). by apply (row_report_iff pd sel s pMap) in Hin as [? _].
    - intros Ho. eexists _, _. by apply (row_report_iff pd sel s pMap). }
  split; [|split].
  - intros k failing total. split; [apply Hrow|]. split; [|split].
    + intros pin l Hin. by apply (row_report_iff pd sel s pMap) in Hin as (_ & ? & ?).
    + intros Ht Hf. rewrite Hrow. subst failing total. lia.
    + intros Ht Hf. rewrite Hrow. subst failing total. lia.
  - intros k failing total. split.
    + split.
      * intros (pin & l & Hin). by apply (col_report_iff pd sel s pMap) in Hin as [? _].
      * intros Ho. eexists _, _. by apply (col_report_iff pd sel s pMap).
    + intros pin l Hin. by apply (col_report_iff pd sel s pMap) in Hin as (_ & ? & ?).
  - exists (Some "gpio0 1"%string), (Some "gpio1 3"%string), [0; 1; 2], [2].
    vm_compute. repeat split; repeat constructor.
Qed.

Lemma C2_standard_matrix_threshold_witness :
  (∃ pin l, RRow "left" 0 pin l ∈ analyzeFailures splitBoard [0; 1; 2])
  ∧ ¬ (∃ pin l, RRow "left" 0 pin l ∈ analyzeFailures splitBoard [0; 1]).
Proof.
  assert (Hs : "left"%string ∈ validShields splitBoard) by (vm_compute; left).
  split.
  - apply (C2_standard_matrix_threshold splitBoard [0; 1; 2] "left" _ Hs eq_refl eq_refl eq_refl).
    + vm_compute. reflexivity.
    + vm_compute. reflexivity.
  - apply (C2_standard_matrix_threshold splitBoard [0; 1] "left" _ Hs eq_refl eq_refl eq_refl).
    + vm_compute. reflexivity.
    + vm_compute. reflexivity.
Defined.

(** ** The charlieplex *)

Lemma charlie_report_iff pd sel s pMap gp rep :
  s ∈ validShields pd → obj_get (pinMap pd) s = Some pMap → gpios pMap = Some gp →
  reportSide rep = s → (∀ pin l, rep ≠ RInterrupt s pin l) → isSingle rep = false →
  rep ∈ analyzeFailures pd sel
  ↔ rep ∈ report (charliePass pd sel (totalsOf pd) (failingOf pd sel) s gp noReports).
Proof.
  intros Hs Hp Hg Hside Hni Hns.
  rewrite (elem_of_analyzeFailures_line pd sel rep Hns), Hside.
  rewrite (lineReports_eq pd sel s pMap Hp), elem_of_app.
  unfold wiringPass. rewrite Hg. split.
  - intros [_ [Hrep|Hrep]]; [|done]. rewrite interruptPass_report in Hrep.
    destruct (interrupt pMap) as [pin|]; [|by apply elem_of_nil in Hrep].
    destruct (_ && _); [|by apply elem_of_nil in Hrep].
    apply list_elem_of_singleton in Hrep. by destruct (Hni _ _ Hrep).
  - intros Hrep. split; [done | by right].
Qed.

Lemma majority_false pd test (l : list nat) :
  majority (length (keysOf pd test l)) (length (keysWhere pd test)) = false
  ↔ ¬ over60 (length (keysOf pd test l)) (length (keysWhere pd test)).
Proof. rewrite <- majority_over60. by destruct (majority _ _). Qed.

Lemma posOf_Some pd idx p :
  posOf pd idx = Some p ↔ ∃ m, entryAt pd idx = Some m ∧ p = getSideAndPhysCoords pd (Some m).
Proof.
  unfold posOf. destruct (entryAt pd idx) as [m|].
  - split; [intros [= <-]; by exists m | by intros (m' & [= <-] & ->)].
  - split; [done | by intros (m' & [=] & _)].
Qed.

(** C3: on a shield with a [gpios] list, for every ordinal pin the ratio of
    failing keys to keys is taken for its row role and for its column role
    on their own, a role being flagged above 0.6; a [charlie] report for the
    pin is in the list exactly when a role is flagged, with role [in] when
    only the row role is, [out] when only the column role is, [both] when
    both are, and its indices are the failing keys that use the ordinal in
    the flagged role or roles. With ordinal 0 the row of 3 keys and the
    column of 2: 2 failing row keys alone give [in], the 2 column keys alone
    give [out], both give [both]. *)
Theorem C3_charlieplex_roles (pd : ParsedData) (sel : list nat) (s : string)
    (pMap : PinMap) (gp : gmap nat string) (pIdx : nat) :
  s ∈ validShields pd → obj_get (pinMap pd) s = Some pMap → gpios pMap = Some gp →
  let inTotal := length (keysWhere pd (rowTest s pIdx)) in
  let inCount := length (keysOf pd (rowTest s pIdx) sel) in
  let outTotal := length (keysWhere pd (colTest s pIdx)) in
  let outCount := length (keysOf pd (colTest s pIdx) sel) in
  let inFail := 3 * inTotal < 5 * inCount in
  let outFail := 3 * outTotal < 5 * outCount in
  let implicated role := thoseSelected sel (keysWhere pd (roleTest s role pIdx)) in
  let charlie role := RCharlie s pIdx (pinOrUnknown gp pIdx) role (implicated role) in
  (inFail ∧ ¬ outFail → charlie role_in ∈ analyzeFailures pd sel)
  ∧ (¬ inFail ∧ outFail → charlie role_out ∈ analyzeFailures pd sel)
  ∧ (inFail ∧ outFail → charlie role_both ∈ analyzeFailures pd sel)
  ∧ (∀ pin role l, RCharlie s pIdx pin role l ∈ analyzeFailures pd sel →
       (inFail ∨ outFail)
       ∧ (role = role_in → inFail ∧ ¬ outFail)
       ∧ (role = role_out → ¬ inFail ∧ outFail)
       ∧ (role = role_both → inFail ∧ outFail)
       ∧ RCharlie s pIdx pin role l = charlie role)
  ∧ (∀ role idx,
       idx ∈ implicated role
       ↔ idx ∈ sel
         ∧ ∃ p, posOf pd idx = Some p ∧ side p = s
             ∧ match role with
               | role_in => physR p = pIdx
               | role_out => physC p = pIdx
               | role_both => physR p = pIdx ∨ physC p = pIdx
               end)
  ∧ (inTotal = 3 → outTotal = 2 →
       (inCount = 2 → outCount = 0 → charlie role_in ∈ analyzeFailures pd sel)
       ∧ (inCount = 0 → outCount = 2 → charlie role_out ∈ analyzeFailures pd sel)
       ∧ (inCount = 2 → outCount = 2 → charlie role_both ∈ analyzeFailures pd sel)).
Proof.
  intros Hs Hp Hg inTotal inCount outTotal outCount inFail outFail implicated charlie.
  assert (Hgp : hasGpios pd s = true) by (by eapply hasGpios_of).
  assert (Hiff : ∀ pin role l, RCharlie s pIdx pin role l ∈ analyzeFailures pd sel
            ↔ (majority inCount inTotal || majority outCount outTotal = true)
              ∧ pin = pinOrUnknown gp pIdx
              ∧ role = roleOf (majority inCount inTotal) (majority outCount outTotal)
              ∧ l = implicated role).
  { intros pin role l.
    rewrite (charlie_report_iff pd sel s pMap gp _ Hs Hp Hg) by done.
    rewrite (charliePass_reports pd sel s gp _ Hs Hgp). cbv zeta. split.
    - intros (p & Hf & [= <- -> -> ->]). done.
    - intros (Hf & -> & -> & ->). by exists pIdx. }
  assert (Hin : majority inCount inTotal = true ↔ inFail) by apply majority_over60.
  assert (Hout : majority outCount outTotal = true ↔ outFail) by apply majority_over60.
  assert (Hyes : ∀ role, (inFail ∨ outFail) →
            role = roleOf (majority inCount inTotal) (majority outCount outTotal) →
            charlie role ∈ analyzeFailures pd sel).
  { intros role Hf Hrole. apply Hiff. split; [|done].
    apply orb_true_iff. tauto. }
  assert (Hrole : ∀ role,
            role = roleOf (majority inCount inTotal) (majority outCount outTotal) →
            majority inCount inTotal || majority outCount outTotal = true →
            (role = role_in → inFail ∧ ¬ outFail)
            ∧ (role = role_out → ¬ inFail ∧ outFail)
            ∧ (role = role_both → inFail ∧ outFail)).
  { intros role -> Hf.
    destruct (majority inCount inTotal) eqn:Hi;
      [assert (Pi : inFail) by (by apply Hin)
      |assert (Pi : ¬ inFail) by (intros X; by apply Hin in X)];
      (destruct (majority outCount outTotal) eqn:Ho;
       [assert (Po : outFail) by (by apply Hout)
       |assert (Po : ¬ outFail) by (intros X; by apply Hout in X)]);
      simpl in Hf |- *; try done;
      (split; [|split]); intros Heq; try discriminate Heq; by split. }
  split; [|split; [|split; [|split; [|split]]]].
  - intros [Hi Ho]. apply Hyes; [by left|].
    assert (Hi' : majority inCount inTotal = true) by (by apply Hin).
    assert (Ho' : majority outCount outTotal = false).
    { apply not_true_is_false. intros E. destruct Ho. by apply Hout. }
    by rewrite Hi', Ho'.
  - intros [Hi Ho]. apply Hyes; [by right|].
    assert (Ho' : majority outCount outTotal = true) by (by apply Hout).
    assert (Hi' : majority inCount inTotal = false).
    { apply not_true_is_false. intros E. destruct Hi. by apply Hin. }
    by rewrite Hi', Ho'.
  - intros [Hi Ho]. apply Hyes; [by left|]. apply Hin in Hi. apply Hout in Ho.
    by rewrite Hi, Ho.
  - intros pin role l (Hf & -> & Hr & ->)%Hiff.
    destruct (Hrole role Hr Hf) as (H1 & H2 & H3).
    split; [apply orb_true_iff in Hf; tauto|]. done.
  - intros role idx. unfold implicated.
    rewrite elem_of_thoseSelected, elem_of_keysWhere.
    setoid_rewrite posOf_Some. split.
    + intros [Hsel (m & Hm & Ht)]. split; [done|].
      exists (getSideAndPhysCoords pd (Some m)). split; [by exists m|].
      unfold roleTest, onSide in Ht. apply andb_true_iff in Ht as [Hside Ht].
      apply bool_decide_eq_true in Hside. split; [done|].
      destruct role; rewrite ?orb_true_iff, ?bool_decide_eq_true in Ht; done.
    + intros [Hsel (p & (m & Hm & ->) & Hside & Ht)]. split; [done|].
      exists m. split; [done|]. unfold roleTest, onSide.
      apply andb_true_iff. split; [by apply bool_decide_eq_true|].
      destruct role; rewrite ?orb_true_iff, ?bool_decide_eq_true; done.
  - intros HiT HoT. subst inFail outFail. split; [|split]; intros HiC HoC.
    + apply Hyes; [left; lia|].
      assert (Hi : majority inCount inTotal = true) by (apply Hin; lia).
      assert (Ho : majority outCount outTotal = false).
      { apply not_true_is_false. intros E. apply Hout in E. lia. }
      by rewrite Hi, Ho.
    + apply Hyes; [right; lia|].
      assert (Ho : majority outCount outTotal = true) by (apply Hout; lia).
      assert (Hi : majority inCount inTotal = false).
      { apply not_true_is_false. intros E. apply Hin in E. lia. }
      by rewrite Hi, Ho.
    + apply Hyes; [left; lia|].
      assert (Hi : majority inCount inTotal = true) by (apply Hin; lia).
      assert (Ho : majority outCount outTotal = true) by (apply Hout; lia).
      by rewrite Hi, Ho.
Qed.

(** ** Filtering the report list *)

Lemma filter_all {A} (P : A → Prop) `{∀ x, Decision (P x)} (l : list A) :
  (∀ x, x ∈ l → P x) → filter P l = l.
Proof.
  induction l as [|x l IH]; intros Hall; [done|].
  rewrite filter_cons_True by (apply Hall; left).
  f_equal. apply IH. intros y Hy. apply Hall. by right.
Qed.

Lemma filter_none {A} (P : A → Prop) `{∀ x, Decision (P x)} (l : list A) :
  (∀ x, x ∈ l → ¬ P x) → filter P l = [].
Proof.
  induction l as [|x l IH]; intros Hall; [done|].
  rewrite filter_cons_False by (apply Hall; left).
  apply IH. intros y Hy. apply Hall. by right.
Qed.

Lemma filter_bind_one {A B} `{EqDecision A} (P : B → Prop) `{∀ x, Decision (P x)}
    (f : A → list B) (l : list A) (a : A) :
  NoDup l → a ∈ l →
  (∀ a' x, a' ∈ l → a' ≠ a → x ∈ f a' → ¬ P x) →
  filter P (l ≫= f) = filter P (f a).
Proof.
  induction l as [|b l IH]; intros Hnd Hin Hother; [by apply elem_of_nil in Hin|].
  apply NoDup_cons in Hnd as [Hb Hnd]. rewrite bind_cons, filter_app.
  destruct (decide (b = a)) as [->|Hne].
  - rewrite (filter_none P (l ≫= f)); [by rewrite app_nil_r|].
    intros x (a' & Hx & Ha')%list_elem_of_bind.
    apply (Hother a' x); [by right | by intros -> | done].
  - rewrite (filter_none P (f b)).
    + apply IH; [done| |].
      * apply elem_of_cons in Hin as [->|?]; done.
      * intros a' x Ha'. apply Hother. by right.
    + intros x Hx. apply (Hother b x); [left | done | done].
Qed.

(** The reports of a shield in the list are those of its pass. *)
Lemma filter_side pd sel (P : Report → Prop) `{∀ x, Decision (P x)} s :
  NoDup (map fst (pinMap pd)) → s ∈ validShields pd →
  (∀ rep, P rep → reportSide rep = s) →
  filter P (analyzeFailures pd sel) = filter P (sideReports pd sel s).
Proof.
  intros Hnd Hs HP. rewrite analyzeFailures_eq.
  apply filter_bind_one; [by apply validShields_NoDup | done |].
  intros s' rep Hs' Hne Hrep HPrep. apply Hne.
  rewrite <- (HP rep HPrep). symmetry. by apply (sideReports_own pd sel s' rep).
Qed.

Lemma wiring_reports pd sel s pMap rep :
  s ∈ validShields pd → obj_get (pinMap pd) s = Some pMap →
  reportSide rep = s → reportType rep ≠ t_interrupt → reportType rep ≠ t_single →
  rep ∈ analyzeFailures pd sel
  ↔ rep ∈ report (wiringPass pd sel (totalsOf pd) (failingOf pd sel) s pMap noReports).
Proof.
  intros Hs Hp Hside Hni Hns.
  assert (Hns' : isSingle rep = false) by (by destruct rep).
  rewrite (elem_of_analyzeFailures_line pd sel rep Hns'), Hside.
  rewrite (lineReports_eq pd sel s pMap Hp), elem_of_app. split.
  - intros [_ [Hrep|Hrep]]; [|done]. rewrite interruptPass_report in Hrep.
    destruct (interrupt pMap) as [pin|]; [|by apply elem_of_nil in Hrep].
    destruct (_ && _); [|by apply elem_of_nil in Hrep].
    apply list_elem_of_singleton in Hrep. by rewrite Hrep in Hni.
  - intros Hrep. split; [done | by right].
Qed.

(** ** Direct wiring *)

Lemma reportsOf_direct pd sel s pMap d :
  NoDup (map fst (pinMap pd)) →
  s ∈ validShields pd → obj_get (pinMap pd) s = Some pMap →
  gpios pMap = None → direct pMap = Some d →
  reportsOf t_direct s (analyzeFailures pd sel)
  = reportsOf t_direct s (report (directPass pd sel s d noReports)).
Proof.
  intros Hnd Hs Hp Hg Hd. unfold reportsOf.
  rewrite (filter_side pd sel _ s Hnd Hs) by (by intros rep [_ ?]).
  rewrite (sideReports_eq pd sel s Hs), (lineReports_eq pd sel s pMap Hp).
  rewrite !filter_app.
  rewrite (filter_none _ (report (interruptPass pd sel s pMap noReports))).
  2:{ intros rep Hrep [Ht _]. rewrite interruptPass_report in Hrep.
      destruct (interrupt pMap) as [pin|]; [|by apply elem_of_nil in Hrep].
      destruct (_ && _); [|by apply elem_of_nil in Hrep].
      apply list_elem_of_singleton in Hrep. by rewrite Hrep in Ht. }
  rewrite (filter_none _ (singlesOf _ _ _ _)).
  2:{ intros rep (idx & m & _ & _ & _ & _ & ->)%elem_of_singlesOf [Ht _]. done. }
  unfold wiringPass. rewrite Hg, Hd. simpl. by rewrite app_nil_r.
Qed.

(** C4 (as stated, refuted): on the pad with five direct keys, four of them
    failing, the list holds four [direct] reports, one per failing key, not
    five. *)
Lemma C4_counterexample_four_direct_reports :
  length (keysWhere directBoard
            (directTest "pad" (pinsObj ["gpio0 1"; "gpio0 2"; "gpio0 3";
                                        "gpio0 4"; "gpio0 5"]%string))) = 5
  ∧ analyzeFailures directBoard [0; 1; 2; 3]
    = [RDirect "pad" "gpio0 1" 0 [0]; RDirect "pad" "gpio0 2" 1 [1];
       RDirect "pad" "gpio0 3" 2 [2]; RDirect "pad" "gpio0 4" 3 [3]]
  ∧ length (reportsOf t_direct "pad" (analyzeFailures directBoard [0; 1; 2; 3])) ≠ 5.
Proof. split; [|split]; by vm_compute. Qed.

(** C4 (amended): on a shield with a [direct] list and no [gpios] list, one
    [direct_gnd] report covering all the direct keys of the shield is in the
    list exactly when the shield has more than 2 direct keys and more than
    0.8 of them fail; otherwise the list holds one [direct] report per
    failing direct key, in the order of the keys, naming the pin of the key's
    column. With 5 direct keys, 4 failing give four [direct] reports and no
    [direct_gnd]; 5 failing give one [direct_gnd] over all 5 and no
    [direct]. *)
Theorem C4_direct_wiring (pd : ParsedData) (sel : list nat) (s : string)
    (pMap : PinMap) (d : gmap nat string) :
  NoDup (map fst (pinMap pd)) →
  s ∈ validShields pd → obj_get (pinMap pd) s = Some pMap →
  gpios pMap = None → direct pMap = Some d →
  let directIndices := keysWhere pd (directTest s d) in
  let failing := thoseSelected sel directIndices in
  let gnd := 2 < length directIndices ∧ 4 * length directIndices < 5 * length failing in
  let directReports := reportsOf t_direct s (analyzeFailures pd sel) in
  (∀ l, RDirectGnd s l ∈ analyzeFailures pd sel ↔ gnd ∧ l = directIndices)
  ∧ (gnd → directReports = [])
  ∧ (¬ gnd → directReports = map (directOf pd s d) failing)
  ∧ (length directIndices = 5 → length failing = 4 →
       length directReports = 4 ∧ ∀ l, RDirectGnd s l ∉ analyzeFailures pd sel)
  ∧ (length directIndices = 5 → length failing = 5 →
       directReports = [] ∧ RDirectGnd s directIndices ∈ analyzeFailures pd sel).
Proof.
  intros Hnd Hs Hp Hg Hd directIndices failing gnd directReports.
  assert (Hpass : report (directPass pd sel s d noReports)
            = if bool_decide (2 < length directIndices)
                 && nearlyAll (length failing) (length directIndices)
              then [RDirectGnd s directIndices]
              else map (directOf pd s d) failing) by apply directPass_report.
  assert (Hcond : bool_decide (2 < length directIndices)
                  && nearlyAll (length failing) (length directIndices) = true
                  ↔ gnd).
  { unfold nearlyAll. by rewrite andb_true_iff, !bool_decide_eq_true. }
  assert (Hgnd : ∀ l, RDirectGnd s l ∈ analyzeFailures pd sel ↔ gnd ∧ l = directIndices).
  { intros l. rewrite (wiring_reports pd sel s pMap _ Hs Hp) by done.
    unfold wiringPass. rewrite Hg, Hd, Hpass.
    destruct (_ && _) eqn:Hc.
    - rewrite list_elem_of_singleton. split.
      + intros [= ->]. split; [by apply Hcond | done].
      + by intros [_ ->].
    - split.
      + intros (idx & Heq & _)%list_elem_of_fmap. done.
      + intros [Hgnd' _]. apply Hcond in Hgnd'. done. }
  assert (Hdir : directReports
            = if bool_decide (2 < length directIndices)
                 && nearlyAll (length failing) (length directIndices)
              then [] else map (directOf pd s d) failing).
  { unfold directReports. rewrite (reportsOf_direct pd sel s pMap d Hnd Hs Hp Hg Hd), Hpass.
    unfold reportsOf. destruct (_ && _).
    - apply filter_none. by intros rep ->%list_elem_of_singleton [Ht _].
    - apply filter_all. by intros rep (idx & -> & _)%list_elem_of_fmap. }
  split; [done|]. split; [|split; [|split]].
  - intros Hy. apply Hcond in Hy. by rewrite Hdir, Hy.
  - intros Hn. rewrite Hdir. destruct (_ && _) eqn:Hc; [|done].
    destruct Hn. by apply Hcond.
  - intros H5 H4. assert (Hn : ¬ gnd) by (unfold gnd; lia). split.
    + rewrite Hdir. destruct (_ && _) eqn:Hc; [destruct Hn; by apply Hcond|].
      by rewrite length_map.
    + intros l [Hy _]%Hgnd. done.
  - intros H5 H5'. assert (Hy : gnd) by (unfold gnd; lia). split.
    + apply Hcond in Hy. by rewrite Hdir, Hy.
    + by apply Hgnd.
Qed.

Lemma C4_direct_wiring_witness :
  length (reportsOf t_direct "pad" (analyzeFailures directBoard [0; 1; 2; 3])) = 4
  ∧ reportsOf t_direct "pad" (analyzeFailures directBoard [0; 1; 2; 3; 4]) = [].
Proof.
  assert (Hnd : NoDup (map fst (pinMap directBoard))).
  { vm_compute. apply NoDup_singleton. }
  assert (Hs : "pad"%string ∈ validShields directBoard) by (vm_compute; left).
  split.
  - apply (C4_direct_wiring directBoard [0; 1; 2; 3] "pad" _ _ Hnd Hs eq_refl eq_refl eq_refl).
    + vm_compute. reflexivity.
    + vm_compute. reflexivity.
  - apply (C4_direct_wiring directBoard [0; 1; 2; 3; 4] "pad" _ _ Hnd Hs
             eq_refl eq_refl eq_refl).
    + vm_compute. reflexivity.
    + vm_compute. reflexivity.
Defined.

(** ** The interrupt check and the single keys *)

Lemma keyOn_valid pd s idx : validShields pd ≠ [] → keyOn pd s idx → s ∈ validShields pd.
Proof. intros Hne (m & _ & <-). by apply getSideAndPhysCoords_valid. Qed.

Lemma elem_of_sideKeys pd s idx : idx ∈ keysWhere pd (onSide s) ↔ keyOn pd s idx.
Proof.
  rewrite elem_of_keysWhere. unfold keyOn, onSide.
  by setoid_rewrite bool_decide_eq_true.
Qed.

Lemma lineReports_in pd sel s rep :
  s ∈ validShields pd → rep ∈ lineReports pd sel s → rep ∈ analyzeFailures pd sel.
Proof.
  intros Hs Hrep. destruct (lineReports_own pd sel s rep Hs Hrep) as (Hside & Hns & _).
  apply elem_of_analyzeFailures_line; [done|]. by rewrite Hside.
Qed.

(** C5: for a shield with an interrupt pin and more than 5 keys, more than
    0.8 of them failing, the list holds an [interrupt] report whose indices
    are all the keys of the shield, failing or not, and none of these keys
    is reported as a [single]. *)
Theorem C5_interrupt_whole_side (pd : ParsedData) (sel : list nat) (s : string)
    (pMap : PinMap) (pin : string) :
  validShields pd ≠ [] →
  obj_get (pinMap pd) s = Some pMap → interrupt pMap = Some pin → pin ≠ ""%string →
  let sideKeys := keysWhere pd (onSide s) in
  5 < length sideKeys →
  4 * length sideKeys < 5 * length (selectedOn pd sel s) →
  RInterrupt s pin sideKeys ∈ analyzeFailures pd sel
  ∧ (∀ idx, idx ∈ sideKeys ↔ keyOn pd s idx)
  ∧ ∀ idx rep, idx ∈ sideKeys → rep ∈ analyzeFailures pd sel →
      reportType rep = t_single → idx ∉ indices rep.
Proof.
  intros Hne Hp Hint Hpin sideKeys H5 H80.
  assert (Hs : s ∈ validShields pd).
  { destruct sideKeys as [|idx l] eqn:Hk; [simpl in H5; lia|].
    apply (keyOn_valid pd s idx Hne), elem_of_sideKeys. fold sideKeys. rewrite Hk. left. }
  assert (Hline : RInterrupt s pin sideKeys ∈ lineReports pd sel s).
  { rewrite (lineReports_eq pd sel s pMap Hp), elem_of_app. left.
    rewrite interruptPass_report, Hint. fold sideKeys.
    unfold nearlyAll.
    rewrite (bool_decide_eq_true_2 _ Hpin), (bool_decide_eq_true_2 _ H5),
      (bool_decide_eq_true_2 _ H80). left. }
  split; [by apply (lineReports_in pd sel s)|].
  split; [intros idx; apply elem_of_sideKeys|].
  intros idx rep Hidx Hrep Ht Hin.
  destruct rep as [| | | | | |s' row col idx' l]; try done.
  apply elem_of_analyzeFailures_single in Hrep
    as (Hs' & _ & -> & (m & Hm & Hside & _) & Hcov).
  simpl in Hin. apply list_elem_of_singleton in Hin as ->.
  assert (s' = s) as ->.
  { apply (keyOn_unique pd s' s idx'); [by exists m | by apply elem_of_sideKeys]. }
  by apply (Hcov _ Hline).
Qed.

Lemma C5_interrupt_whole_side_witness :
  RInterrupt "pad" "gpio0 9" [0; 1; 2; 3; 4; 5] ∈ analyzeFailures charlieBoard [0; 1; 2; 3; 4].
Proof.
  assert (Hne : validShields charlieBoard ≠ []) by (by vm_compute).
  assert (Hpin : "gpio0 9"%string ≠ ""%string) by done.
  apply (C5_interrupt_whole_side charlieBoard [0; 1; 2; 3; 4] "pad" _ "gpio0 9"
           Hne eq_refl eq_refl Hpin).
  - vm_compute. lia.
  - vm_compute. lia.
Defined.

Lemma filter_side_in pd sel (P : Report → Prop) `{∀ x, Decision (P x)} s :
  NoDup (map fst (pinMap pd)) → s ∈ validShields pd →
  (∀ s' rep, s' ∈ validShields pd → rep ∈ sideReports pd sel s' → P rep → s' = s) →
  filter P (analyzeFailures pd sel) = filter P (sideReports pd sel s).
Proof.
  intros Hnd Hs HP. rewrite analyzeFailures_eq.
  apply filter_bind_one; [by apply validShields_NoDup | done |].
  intros s' rep Hs' Hne Hrep HPrep. apply Hne. by apply (HP s' rep).
Qed.

Lemma filter_map_one {A B} `{EqDecision A} (P : B → Prop) `{∀ x, Decision (P x)}
    (Q : A → Prop) `{∀ x, Decision (Q x)} (g : A → B) (l : list A) (a : A) :
  NoDup l → a ∈ l → Q a → (∀ x, P (g x) ↔ x = a) →
  filter P (map g (filter Q l)) = [g a].
Proof.
  intros Hnd Hin Hq HP.
  induction l as [|x l IH]; [by apply elem_of_nil in Hin|].
  apply NoDup_cons in Hnd as [Hx Hnd].
  destruct (decide (x = a)) as [->|Hne].
  - rewrite filter_cons_True by done. simpl.
    rewrite filter_cons_True by (by apply HP). f_equal.
    apply filter_none. intros y (z & -> & Hz)%list_elem_of_fmap Hy.
    apply HP in Hy as ->. by apply list_elem_of_filter in Hz as [_ ?].
  - assert (Htail : filter P (map g (filter Q l)) = [g a]).
    { apply IH; [done|]. apply elem_of_cons in Hin as [->|?]; done. }
    rewrite filter_cons. destruct (decide (Q x)); [|done]. simpl.
    rewrite filter_cons_False; [done|]. intros Hy. by apply HP in Hy.
Qed.

(** C7: a failing key that has a matrix entry, on a board with a valid
    shield, and that no interrupt, charlie, direct, direct_gnd, row or col
    report lists, is the subject of exactly one [single] report of the list,
    which carries the key's shield and its logical row and column. *)
Theorem C7_single_exactly_once (pd : ParsedData) (sel : list nat) (idx : nat)
    (m : MatrixEntry) :
  NoDup (map fst (pinMap pd)) → NoDup sel → validShields pd ≠ [] →
  idx ∈ sel → entryAt pd idx = Some m →
  (∀ rep, rep ∈ analyzeFailures pd sel → reportType rep ≠ t_single → idx ∉ indices rep) →
  filter (λ rep, reportType rep = t_single ∧ idx ∈ indices rep) (analyzeFailures pd sel)
  = [RSingle (side (getSideAndPhysCoords pd (Some m))) (r m) (c m) idx [idx]].
Proof.
  intros Hnd Hsel Hne Hin Hm Hfree.
  set (s := side (getSideAndPhysCoords pd (Some m))).
  assert (Hon : keyOn pd s idx) by (by exists m).
  assert (Hs : s ∈ validShields pd) by (by apply (keyOn_valid pd s idx)).
  rewrite (filter_side_in pd sel _ s Hnd Hs).
  2:{ intros s' rep Hs' Hrep [Ht Hidx].
      rewrite (sideReports_eq pd sel s' Hs'), elem_of_app in Hrep.
      destruct Hrep as [Hrep|Hrep].
      - destruct (lineReports_own pd sel s' rep Hs' Hrep) as (_ & Hns & _).
        by destruct rep.
      - apply elem_of_singlesOf in Hrep as (idx' & m' & _ & _ & Hm' & Hside & ->).
        simpl in Hidx. apply list_elem_of_singleton in Hidx as ->.
        apply (keyOn_unique pd s' s idx'); [by exists m' | done]. }
  rewrite (sideReports_eq pd sel s Hs), filter_app.
  rewrite (filter_none _ (lineReports pd sel s)).
  2:{ intros rep Hrep [Ht _].
      destruct (lineReports_own pd sel s rep Hs Hrep) as (_ & Hns & _). by destruct rep. }
  simpl. unfold singlesOf.
  rewrite (filter_map_one _ _ (singleOf pd s) sel idx Hsel Hin).
  - unfold singleOf. by rewrite Hm.
  - split.
    + rewrite elem_of_list_to_set, list_elem_of_bind. intros (rep & Hidx & Hrep).
      apply (Hfree rep); [by apply (lineReports_in pd sel s)| |done].
      destruct (lineReports_own pd sel s rep Hs Hrep) as (_ & Hns & _). by destruct rep.
    + unfold passes. rewrite Hm. apply Is_true_eq_left. by apply bool_decide_eq_true.
  - intros x. unfold singleOf. destruct (entryAt pd x); simpl;
      rewrite list_elem_of_singleton; split; try (by intros [_ ->]); by intros ->.
Qed.

Lemma C7_single_exactly_once_witness :
  filter (λ rep, reportType rep = t_single ∧ 0 ∈ indices rep)
    (analyzeFailures splitBoard [0; 4])
  = [RSingle "left" 0 0 0 [0]].
Proof.
  assert (Hnd : NoDup (map fst (pinMap splitBoard))).
  { refine (bool_decide_unpack _ _). vm_compute. exact I. }
  assert (Hsel : NoDup [0; 4]).
  { refine (bool_decide_unpack _ _). vm_compute. exact I. }
  assert (Hne : validShields splitBoard ≠ []) by (by vm_compute).
  assert (Hin : 0 ∈ [0; 4]) by left.
  apply (C7_single_exactly_once splitBoard [0; 4] 0 {| r := 0; c := 0 |}
           Hnd Hsel Hne Hin eq_refl).
  intros rep Hrep Ht. vm_compute in Hrep.
  repeat (apply elem_of_cons in Hrep as [->|Hrep]; [vm_compute in Ht |- *; try done|]).
  all: try by apply elem_of_nil in Hrep.
  all: intros Hx; repeat (apply elem_of_cons in Hx as [Hx|Hx]; [discriminate Hx|]);
    by apply elem_of_nil in Hx.
Defined.

Lemma C3_charlieplex_roles_witness :
  RCharlie "pad" 0 "gpio0 1" role_in [0; 1] ∈ analyzeFailures charlieBoard [0; 1].
Proof.
  assert (Hs : "pad"%string ∈ validShields charlieBoard) by (vm_compute; left).
  pose proof (C3_charlieplex_roles charlieBoard [0; 1] "pad" _ _ 0 Hs eq_refl eq_refl) as H.
  cbv zeta in H. destruct H as (_ & _ & _ & _ & _ & H).
  assert (H3 : length (keysWhere charlieBoard (rowTest "pad" 0)) = 3) by (by vm_compute).
  assert (H2 : length (keysWhere charlieBoard (colTest "pad" 0)) = 2) by (by vm_compute).
  destruct (H H3 H2) as (Hin & _ & _).
  assert (Hc : length (keysOf charlieBoard (rowTest "pad" 0) [0; 1]) = 2) by (by vm_compute).
  assert (Ho : length (keysOf charlieBoard (colTest "pad" 0) [0; 1]) = 0) by (by vm_compute).
  specialize (Hin Hc Ho). vm_compute in Hin. vm_compute. exact Hin.
Defined.

(** ** Calls of the localiser *)

(** The loop that gives every valid shield its empty tables touches the
    tables alone, and does to them what [initTotals] and [initFailing]
    do. *)
Lemma initShield_fold (vs : list string) (st : Store) :
  globals (fold_left initShield vs st) = globals st
  ∧ v_selected (frame (fold_left initShield vs st)) = v_selected (frame st)
  ∧ v_validShields (frame (fold_left initShield vs st)) = v_validShields (frame st)
  ∧ v_acc (frame (fold_left initShield vs st)) = v_acc (frame st)
  ∧ v_totals (frame (fold_left initShield vs st))
    = fold_left
        (λ t s, {| counts := <[s := mkRC ∅ ∅]> (counts t);
                   charlieTotals := <[s := mkIO ∅ ∅]> (charlieTotals t) |})
        vs (v_totals (frame st))
  ∧ v_failing (frame (fold_left initShield vs st))
    = fold_left
        (λ t s, {| groups := <[s := mkRC ∅ ∅]> (groups t);
                   charlieCounts := <[s := mkIO ∅ ∅]> (charlieCounts t) |})
        vs (v_failing (frame st)).
Proof.
  revert st. induction vs as [|s vs IH]; intros st; simpl; [done|].
  destruct (IH (initShield st s)) as (-> & -> & -> & -> & -> & ->). done.
Qed.

(** The body returns what the function of the two globals gives, whatever
    the variables of the body hold when the call starts. *)
Lemma analyzeFailuresBody_result (st : Store) :
  (analyzeFailuresBody st).1
  = analyzeFailures (parsedData (globals st)) (selectedIndices (globals st)).
Proof.
  unfold analyzeFailuresBody, analyzeFailures. cbv zeta. simpl.
  destruct (bool_decide (length (validShields (parsedData (globals st))) = 0)); [done|].
  simpl. unfold initTables. simpl.
  destruct (initShield_fold (validShields (parsedData (globals st)))
              (declTables (declValidShields (declReport (declSelected st)))))
    as (Hg & Hsel & Hvs & Hacc & HT & HF).
  unfold analyzeSides, declCovered, groupKeys, countKeys. simpl.
  rewrite Hg, Hsel, Hvs, Hacc, HT, HF. done.
Qed.

(** The body assigns to no global. *)
Lemma analyzeFailuresBody_globals (st : Store) :
  globals (analyzeFailuresBody st).2 = globals st.
Proof.
  unfold analyzeFailuresBody. cbv zeta. simpl.
  destruct (bool_decide (length (validShields (parsedData (globals st))) = 0)); [done|].
  simpl. unfold initTables. simpl.
  by destruct (initShield_fold (validShields (parsedData (globals st)))
                 (declTables (declValidShields (declReport (declSelected st)))))
    as (-> & _).
Qed.

(** *** The same failing keys in another order *)

Lemma thoseSelected_perm (sel sel' l : list nat) :
  sel ≡ₚ sel' → thoseSelected sel l = thoseSelected sel' l.
Proof. intros Hp. apply filter_ext_in. intros x _. by rewrite Hp. Qed.

Lemma keysOf_perm pd test (sel sel' : list nat) :
  sel ≡ₚ sel' → keysOf pd test sel ≡ₚ keysOf pd test sel'.
Proof. intros Hp. unfold keysOf. by apply filter_Permutation. Qed.

Lemma Object_keys_dom {V W} (o : gmap nat V) (o' : gmap nat W) :
  (∀ k, is_Some (o !! k) ↔ is_Some (o' !! k)) → Object_keys o = Object_keys o'.
Proof.
  intros Hdom. apply (Sorted_unique Nat.le).
  - apply Sorted_merge_sort. intros x y. unfold Nat.le. lia.
  - apply Sorted_merge_sort. intros x y. unfold Nat.le. lia.
  - apply NoDup_Permutation; [apply NoDup_Object_keys..|].
    intros k. rewrite !elem_of_Object_keys. apply Hdom.
Qed.

Lemma sameKeys_refl rep : sameKeys rep rep.
Proof. by destruct rep. Qed.

Lemma Forall2_sameKeys_refl (l : list Report) : Forall2 sameKeys l l.
Proof. induction l; constructor; [apply sameKeys_refl | done]. Qed.

Lemma bind_ext_all {A B} (f g : A → list B) (l : list A) :
  (∀ x, f x = g x) → l ≫= f = l ≫= g.
Proof.
  intros Hfg. induction l as [|x l IH]; [done|]. by rewrite !bind_cons, Hfg, IH.
Qed.

Lemma Forall2_bind_all {A B} (R : B → B → Prop) (f g : A → list B) (l : list A) :
  (∀ x, Forall2 R (f x) (g x)) → Forall2 R (l ≫= f) (l ≫= g).
Proof.
  intros Hfg. induction l as [|x l IH]; [constructor|].
  rewrite !bind_cons. by apply Forall2_app.
Qed.

(** The charlieplex analysis counts the failing keys and picks them by
    membership: it gives the same list. *)
Lemma charliePass_perm pd (sel sel' : list nat) s gp :
  s ∈ validShields pd → hasGpios pd s = true → sel ≡ₚ sel' →
  report (charliePass pd sel (totalsOf pd) (failingOf pd sel) s gp noReports)
  = report (charliePass pd sel' (totalsOf pd) (failingOf pd sel') s gp noReports).
Proof.
  intros Hs Hg Hperm.
  destruct (totalsOf_lookup pd s Hs) as (cs & ct & Hcs & Hct & Hr & Hc & Hi & Ho).
  destruct (failingOf_lookup pd sel s Hs) as (g & cc & _ & Hcc & _ & _ & Hci & Hco).
  destruct (failingOf_lookup pd sel' s Hs) as (g' & cc' & _ & Hcc' & _ & _ & Hci' & Hco').
  rewrite Hg in Hi, Ho, Hci, Hco, Hci', Hco'.
  unfold charliePass. rewrite Hct, Hcc, Hcc'.
  destruct (Pushes_fold (charliePin pd sel s gp cc ct)
              (setFrom [] (Object_keys (in_ ct) ++ Object_keys (out ct)))
              (charliePin_Pushes pd sel s gp cc ct)) as [_ ->].
  destruct (Pushes_fold (charliePin pd sel' s gp cc' ct)
              (setFrom [] (Object_keys (in_ ct) ++ Object_keys (out ct)))
              (charliePin_Pushes pd sel' s gp cc' ct)) as [_ ->].
  apply bind_ext_all. intros pIdx.
  rewrite (charliePin_report pd sel s gp cc ct pIdx _ _ _ _
             (Hci pIdx) (eq_trans (Hi pIdx) (Hr pIdx))
             (Hco pIdx) (eq_trans (Ho pIdx) (Hc pIdx))).
  rewrite (charliePin_report pd sel' s gp cc' ct pIdx _ _ _ _
             (Hci' pIdx) (eq_trans (Hi pIdx) (Hr pIdx))
             (Hco' pIdx) (eq_trans (Ho pIdx) (Hc pIdx))).
  rewrite <- (Permutation_length (keysOf_perm pd (rowTest s pIdx) sel sel' Hperm)).
  rewrite <- (Permutation_length (keysOf_perm pd (colTest s pIdx) sel sel' Hperm)).
  by rewrite (thoseSelected_perm sel sel' _ Hperm).
Qed.

(** The standard-matrix analysis visits the same rows and columns, in
    ascending order, and reports a line with its failing keys in the order
    of their selection. *)
Lemma standardPass_perm pd (sel sel' : list nat) s pMap :
  s ∈ validShields pd → sel ≡ₚ sel' →
  Forall2 sameKeys
    (report (standardPass (totalsOf pd) (failingOf pd sel) s pMap noReports))
    (report (standardPass (totalsOf pd) (failingOf pd sel') s pMap noReports)).
Proof.
  intros Hs Hperm.
  destruct (totalsOf_lookup pd s Hs) as (cs & ct & Hcs & _ & Hr & Hc & _ & _).
  destruct (failingOf_lookup pd sel s Hs) as (g & cc & Hgr & _ & Hrows & Hcols & _ & _).
  destruct (failingOf_lookup pd sel' s Hs)
    as (g' & cc' & Hgr' & _ & Hrows' & Hcols' & _ & _).
  unfold standardPass. rewrite Hgr, Hgr', Hcs. cbv zeta. simpl default.
  destruct (Pushes_comp
              (fold_left (rowLine s pMap (rows g) (rows cs)) (Object_keys (rows g)))
              (fold_left (colLine s pMap (cols g) (cols cs)) (Object_keys (cols g))))
    as [_ ->].
  { apply Pushes_fold. intros k. apply rowLine_Pushes. }
  { apply Pushes_fold. intros k. apply colLine_Pushes. }
  destruct (Pushes_comp
              (fold_left (rowLine s pMap (rows g') (rows cs)) (Object_keys (rows g')))
              (fold_left (colLine s pMap (cols g') (cols cs)) (Object_keys (cols g'))))
    as [_ ->].
  { apply Pushes_fold. intros k. apply rowLine_Pushes. }
  { apply Pushes_fold. intros k. apply colLine_Pushes. }
  destruct (Pushes_fold (rowLine s pMap (rows g) (rows cs)) (Object_keys (rows g))
              (rowLine_Pushes s pMap (rows g) (rows cs))) as [_ ->].
  destruct (Pushes_fold (colLine s pMap (cols g) (cols cs)) (Object_keys (cols g))
              (colLine_Pushes s pMap (cols g) (cols cs))) as [_ ->].
  destruct (Pushes_fold (rowLine s pMap (rows g') (rows cs)) (Object_keys (rows g'))
              (rowLine_Pushes s pMap (rows g') (rows cs))) as [_ ->].
  destruct (Pushes_fold (colLine s pMap (cols g') (cols cs)) (Object_keys (cols g'))
              (colLine_Pushes s pMap (cols g') (cols cs))) as [_ ->].
  assert (Hkr : Object_keys (rows g') = Object_keys (rows g)).
  { apply Object_keys_dom. intros k.
    rewrite Hrows, Hrows', !is_Some_grouped.
    by rewrite (Permutation_length (keysOf_perm pd (rowTest s k) sel sel' Hperm)). }
  assert (Hkc : Object_keys (cols g') = Object_keys (cols g)).
  { apply Object_keys_dom. intros k.
    rewrite Hcols, Hcols', !is_Some_grouped.
    by rewrite (Permutation_length (keysOf_perm pd (colTest s k) sel sel' Hperm)). }
  rewrite Hkr, Hkc. apply Forall2_app; apply Forall2_bind_all; intros k.
  - rewrite (rowLine_report s pMap (rows g) (rows cs) k _ _ (Hrows k) (Hr k)).
    rewrite (rowLine_report s pMap (rows g') (rows cs) k _ _ (Hrows' k) (Hr k)).
    rewrite <- (Permutation_length (keysOf_perm pd (rowTest s k) sel sel' Hperm)).
    destruct (majority _ _); repeat constructor. by apply keysOf_perm.
  - rewrite (colLine_report s pMap (cols g) (cols cs) k _ _ (Hcols k) (Hc k)).
    rewrite (colLine_report s pMap (cols g') (cols cs) k _ _ (Hcols' k) (Hc k)).
    rewrite <- (Permutation_length (keysOf_perm pd (colTest s k) sel sel' Hperm)).
    destruct (majority _ _); repeat constructor. by apply keysOf_perm.
Qed.

(** The reports of a shield before its single keys: the same ones in the
    same order, the keys of a row or column report in the order of their
    selection. *)
Lemma lineReports_perm pd (sel sel' : list nat) s :
  s ∈ validShields pd → sel ≡ₚ sel' →
  Forall2 sameKeys (lineReports pd sel s) (lineReports pd sel' s).
Proof.
  intros Hs Hperm. destruct (validShields_pinMap pd s Hs) as (pMap & Hp & _).
  rewrite (lineReports_eq pd sel s pMap Hp), (lineReports_eq pd sel' s pMap Hp).
  apply Forall2_app.
  - rewrite !interruptPass_report. unfold selectedOn.
    rewrite <- (Permutation_length (keysOf_perm pd (onSide s) sel sel' Hperm)).
    apply Forall2_sameKeys_refl.
  - unfold wiringPass. destruct (gpios pMap) as [gp|] eqn:Hgp.
    + rewrite (charliePass_perm pd sel sel' s gp Hs (hasGpios_of pd s pMap gp Hp Hgp) Hperm).
      apply Forall2_sameKeys_refl.
    + destruct (direct pMap) as [d|].
      * rewrite !directPass_report, (thoseSelected_perm sel sel' _ Hperm).
        apply Forall2_sameKeys_refl.
      * by apply standardPass_perm.
Qed.

Lemma sameKeys_indices (L L' : list Report) :
  Forall2 sameKeys L L' → L ≫= indices ≡ₚ L' ≫= indices.
Proof.
  induction 1 as [|rep rep' L L' [_ Hrep] _ IH]; [done|].
  rewrite !bind_cons. by rewrite Hrep, IH.
Qed.

Lemma sideReports_perm pd (sel sel' : list nat) s :
  s ∈ validShields pd → sel ≡ₚ sel' →
  ∃ L, Forall2 sameKeys (sideReports pd sel s) L ∧ L ≡ₚ sideReports pd sel' s.
Proof.
  intros Hs Hperm. rewrite (sideReports_eq pd sel s Hs), (sideReports_eq pd sel' s Hs).
  pose proof (lineReports_perm pd sel sel' s Hs Hperm) as Hlines.
  assert (Hcov : list_to_set (lineReports pd sel' s ≫= indices)
                 =@{gset nat} list_to_set (lineReports pd sel s ≫= indices)).
  { apply list_to_set_perm_L. symmetry. by apply sameKeys_indices. }
  rewrite Hcov.
  exists (lineReports pd sel' s
          ++ singlesOf pd s (list_to_set (lineReports pd sel s ≫= indices)) sel).
  split.
  - apply Forall2_app; [done | apply Forall2_sameKeys_refl].
  - apply Permutation_app_head. unfold singlesOf.
    by apply Permutation_map, filter_Permutation.
Qed.

Lemma bind_sameKeys_perm {A} (f g : A → list Report) (l : list A) :
  (∀ x, x ∈ l → ∃ L, Forall2 sameKeys (f x) L ∧ L ≡ₚ g x) →
  ∃ L, Forall2 sameKeys (l ≫= f) L ∧ L ≡ₚ l ≫= g.
Proof.
  induction l as [|x l IH]; intros Hl.
  - exists []. by split; [constructor|].
  - destruct (Hl x) as (L1 & HF1 & HP1); [left|].
    destruct IH as (L2 & HF2 & HP2); [intros y Hy; apply Hl; by right|].
    exists (L1 ++ L2). rewrite !bind_cons.
    split; [by apply Forall2_app | by rewrite HP1, HP2].
Qed.

(** The same failing keys selected in another order give the same reports
    up to order: the list is that of the first order with its reports
    rearranged, and within a report its keys. *)
Lemma analyzeFailures_perm pd (sel sel' : list nat) :
  sel ≡ₚ sel' →
  ∃ L, Forall2 sameKeys (analyzeFailures pd sel) L ∧ L ≡ₚ analyzeFailures pd sel'.
Proof.
  intros Hperm. rewrite !analyzeFailures_eq. apply bind_sameKeys_perm.
  intros s Hs. by apply sideReports_perm.
Qed.

(** C8 (as stated, refuted): on the split keyboard the user selects the
    keys 0 and 6; taking key 0 out of the selection and putting it back
    leaves the same set of failing keys, entered in another order. The two
    calls return the same two reports in opposite orders. With the keys 5
    and 6 of one row, the row report lists its keys in the order of their
    selection. *)
Lemma C8_counterexample_reselected :
  selectedIndices (world (after [KeyClick 0; KeyClick 6] splitPage)) = [0; 6]
  ∧ selectedIndices
      (world (after [KeyClick 0; KeyClick 6; KeyClick 0; KeyClick 0] splitPage))
    = [6; 0]
  ∧ list_to_set [0; 6] =@{gset nat} list_to_set [6; 0]
  ∧ analyzeFailures splitBoard [0; 6]
    = [RSingle "left" 0 0 0 [0]; RSingle "left" 1 1 6 [6]]
  ∧ analyzeFailures splitBoard [6; 0]
    = [RSingle "left" 1 1 6 [6]; RSingle "left" 0 0 0 [0]]
  ∧ analyzeFailures splitBoard [0; 6] ≠ analyzeFailures splitBoard [6; 0]
  ∧ analyzeFailures splitBoard [5; 6] = [RRow "left" 1 (Some "gpio0 2"%string) [5; 6]]
  ∧ analyzeFailures splitBoard [6; 5] = [RRow "left" 1 (Some "gpio0 2"%string) [6; 5]].
Proof.
  split; [by vm_compute|]. split; [by vm_compute|]. split; [set_solver|].
  assert (H1 : analyzeFailures splitBoard [0; 6]
               = [RSingle "left" 0 0 0 [0]; RSingle "left" 1 1 6 [6]]) by (by vm_compute).
  assert (H2 : analyzeFailures splitBoard [6; 0]
               = [RSingle "left" 1 1 6 [6]; RSingle "left" 0 0 0 [0]]) by (by vm_compute).
  split; [done|]. split; [done|]. split; [by rewrite H1, H2|].
  split; by vm_compute.
Qed.

(** C8 (amended): a call of the localiser returns what the function of the
    two globals gives, whatever an earlier call has left in the variables
    of its body, and assigns to no global. So a second call with the same
    topology and the same failing keys, selected in the same order, returns
    the same list in the same order; a call after the caller changed the
    failing set returns what a first call with that set returns, and
    nothing of an earlier call is kept. When the new selection holds the
    same keys in another order, the list holds the same reports up to
    order: it is the earlier list with its reports rearranged and, within a
    report, its keys. *)
Theorem C8_deterministic_stateless (st : Store) (sel' : list nat) :
  let pd := parsedData (globals st) in
  let sel := selectedIndices (globals st) in
  let first := analyzeFailuresBody st in
  let second := analyzeFailuresBody first.2 in
  let third := analyzeFailuresBody (select sel' second.2) in
  first.1 = analyzeFailures pd sel
  ∧ globals first.2 = globals st
  ∧ callAnalyzeFailures (globals st) = (first.1, globals first.2)
  ∧ second.1 = first.1
  ∧ globals second.2 = globals st
  ∧ third.1 = analyzeFailures pd sel'
  ∧ third.1 = (analyzeFailuresBody (select sel' st)).1
  ∧ globals third.2 = setSelection sel' (globals st)
  ∧ (sel ≡ₚ sel' → ∃ L, Forall2 sameKeys first.1 L ∧ L ≡ₚ third.1).
Proof.
  intros pd sel first second third.
  assert (H1 : first.1 = analyzeFailures pd sel) by apply analyzeFailuresBody_result.
  assert (G1 : globals first.2 = globals st) by apply analyzeFailuresBody_globals.
  assert (G2 : globals second.2 = globals st).
  { unfold second. by rewrite analyzeFailuresBody_globals. }
  assert (H2 : second.1 = first.1).
  { unfold second. by rewrite analyzeFailuresBody_result, G1, H1. }
  assert (H3 : third.1 = analyzeFailures pd sel').
  { unfold third. rewrite analyzeFailuresBody_result. simpl. by rewrite G2. }
  split; [done|]. split; [done|].
  split; [unfold callAnalyzeFailures; by rewrite H1, G1|].
  split; [done|]. split; [done|]. split; [done|].
  split; [by rewrite H3, analyzeFailuresBody_result|].
  split; [unfold third; rewrite analyzeFailuresBody_globals; simpl; by rewrite G2|].
  intros Hperm. rewrite H1, H3. by apply analyzeFailures_perm.
Qed.

Lemma C8_deterministic_stateless_witness :
  (analyzeFailuresBody staleStore).1
  = [RSingle "left" 0 0 0 [0]; RSingle "left" 1 1 6 [6]]
  ∧ ∃ L, Forall2 sameKeys (analyzeFailuresBody staleStore).1 L
         ∧ L ≡ₚ (analyzeFailuresBody
                   (select [6; 0]
                      (analyzeFailuresBody (analyzeFailuresBody staleStore).2).2)).1.
Proof.
  split.
  - rewrite (proj1 (C8_deterministic_stateless staleStore [6; 0])). by vm_compute.
  - apply (C8_deterministic_stateless staleStore [6; 0]). apply perm_swap.
Defined.

(** ** The wiring mode of a shield *)



(** The hypothesis on the [gpios] list in the next theorem is needed for an
    entry made by hand: with a [gpios] object that is there but empty, next
    to a [direct] list, the shield is given the charlieplex analysis and not
    the direct one. The extraction makes no such entry: it creates the list
    only when it has found pins. *)
Lemma wiringPass_empty_gpios :
  validShields emptyGpiosBoard = ["pad"%string]
  ∧ (∀ p, obj_get (pinMap emptyGpiosBoard) "pad" = Some p →
       nonEmpty (gpios p) = false ∧ is_Some (direct p))
  ∧ analyzeFailures emptyGpiosBoard [0] = [RCharlie "pad" 0 "Unknown" role_both [0]]
  ∧ report (directPass emptyGpiosBoard [0] "pad" (pinsObj ["gpio0 1"%string]) noReports)
    = [RDirect "pad" "gpio0 1" 0 [0]].
Proof.
  split; [by vm_compute|]. split; [|split]; try by vm_compute.
  intros p [= <-]. split; [by vm_compute | by eexists].
Qed.



(** ** No valid shield *)

Lemma obj_get_Some_in {V} (o : list (string * V)) k v :
  obj_get o k = Some v → (k, v) ∈ o.
Proof.
  induction o as [|[k' v'] o IH]; simpl; [done|].
  destruct (decide (k' = k)) as [->|Hne].
  - intros [= ->]. left.
  - intros Hget. right. by apply IH.
Qed.

(** C10: when no shield of the topology has a non-empty row, col, gpios or
    direct list, the localiser returns the empty list for every failing set,
    a non-empty one too: the failing keys give no [single] report and no
    error is raised. *)
Theorem C10_no_valid_shield (pd : ParsedData) (sel : list nat) :
  (∀ s p, (s, p) ∈ pinMap pd →
     nonEmpty (row p) = false ∧ nonEmpty (col p) = false
     ∧ nonEmpty (gpios p) = false ∧ nonEmpty (direct p) = false) →
  validShields pd = [] ∧ analyzeFailures pd sel = [].
Proof.
  intros Hnone.
  assert (Hvs : validShields pd = []).
  { unfold validShields. apply filter_none. intros s _ Hv.
    destruct (obj_get (pinMap pd) s) as [p|] eqn:Hp; [|done].
    apply obj_get_Some_in in Hp. destruct (Hnone s p Hp) as (Hr & Hc & Hg & Hd).
    unfold hasPins in Hv. by rewrite Hr, Hc, Hg, Hd in Hv. }
  split; [done|]. unfold analyzeFailures. by rewrite Hvs.
Qed.

Lemma C10_no_valid_shield_witness :
  validShields noPinsBoard = [] ∧ analyzeFailures noPinsBoard [0; 1] = [].
Proof.
  apply (C10_no_valid_shield noPinsBoard [0; 1]).
  intros s p Hin. vm_compute in Hin.
  repeat (apply elem_of_cons in Hin as [[= -> ->]|Hin]; [by vm_compute|]).
  by apply elem_of_nil in Hin.
Defined.

(** ** The diode direction of the pin-topology extraction *)

Lemma standardStep_direction rg cg (ts : list string) res :
  diodeDirection (fold_left (standardStep rg cg) ts res) = diodeDirection res.
Proof. revert res. induction ts as [|t ts IH]; intros res; simpl; [done|]. by rewrite IH. Qed.

Lemma charlieStep_direction gp ig (ts : list string) res :
  diodeDirection (fold_left (charlieStep gp ig) ts res)
  = if bool_decide (0 < length gp) && bool_decide (0 < length ts)
    then "col2row"%string else diodeDirection res.
Proof.
  revert res. induction ts as [|t ts IH]; intros res; simpl.
  - by rewrite andb_false_r.
  - rewrite IH. unfold charlieStep.
    destruct (bool_decide (0 < length gp)); simpl; [|done].
    by destruct (bool_decide (0 < length ts)).
Qed.

Lemma directStep_direction dg (ts : list string) res :
  diodeDirection (fold_left (directStep dg) ts res)
  = if bool_decide (0 < length dg) && bool_decide (0 < length ts)
    then "row2col"%string else diodeDirection res.
Proof.
  revert res. induction ts as [|t ts IH]; intros res; simpl.
  - by rewrite andb_false_r.
  - rewrite IH. unfold directStep.
    destruct (bool_decide (0 < length dg)); simpl; [|done].
    by destruct (bool_decide (0 < length ts)).
Qed.

Lemma pinConfigFile_direction shields res file :
  diodeDirection (pinConfigFile shields res file)
  = default (diodeDirection res) (fileDirection shields file).
Proof.
  destruct file as [filename content].
  unfold pinConfigFile, fileDirection, wiringDirection. simpl snd.
  assert (Hres0 : diodeDirection match diodeMatch content with
                                 | Some d => setDiode res d
                                 | None => res
                                 end
                  = default (diodeDirection res) (diodeMatch content))
    by (by destruct (diodeMatch content)).
  destruct (bool_decide (length (targetSides shields filename) = 0)) eqn:Hlen.
  - apply bool_decide_eq_true in Hlen.
    assert (Hcommon : sideOf shields filename = "common"%string).
    { unfold targetSides in Hlen.
      destruct (bool_decide (sideOf shields filename = "common"%string)) eqn:Hc;
        [by apply bool_decide_eq_true in Hc | done]. }
    rewrite (bool_decide_eq_true_2 _ Hcommon). simpl. exact Hres0.
  - simpl. apply bool_decide_eq_false in Hlen.
    assert (Hpos : bool_decide (0 < length (targetSides shields filename)) = true)
      by (apply bool_decide_eq_true; lia).
    destruct (isDirectMode content) eqn:Hd; simpl.
    + rewrite directStep_direction, Hpos, andb_true_r.
      destruct (bool_decide (0 < length (extractGpioList content "input-gpios"))); [done|].
      destruct (isCharlieMode content) eqn:Hc; simpl.
      * rewrite charlieStep_direction, Hpos, andb_true_r.
        destruct (bool_decide (0 < length (extractGpioList content "gpios"))); [done|].
        destruct (isStandard content); [by rewrite standardStep_direction|done].
      * destruct (isStandard content); [by rewrite standardStep_direction|done].
    + destruct (isCharlieMode content) eqn:Hc; simpl.
      * rewrite charlieStep_direction, Hpos, andb_true_r.
        destruct (bool_decide (0 < length (extractGpioList content "gpios"))); [done|].
        destruct (isStandard content); [by rewrite standardStep_direction|done].
      * destruct (isStandard content); [by rewrite standardStep_direction|done].
Qed.

Lemma findAndParsePinConfig_direction shields (files : list (string * string)) res :
  diodeDirection (findAndParsePinConfig shields files res)
  = default (diodeDirection res) (last (omap (fileDirection shields) files)).
Proof.
  unfold findAndParsePinConfig. induction files as [|f files IH] using rev_ind; [done|].
  rewrite fold_left_app. simpl. rewrite pinConfigFile_direction, IH, omap_app. simpl.
  destruct (fileDirection shields f) as [d|]; simpl.
  - by rewrite last_snoc.
  - by rewrite app_nil_r.
Qed.

(** C6 (as stated, refuted): the overlay of the left half is recognised as
    a charlieplex and gives its pins, so the direction is set to col2row; the
    overlay of the right half, read after it, declares row2col, and that is
    the result. A file recognised as a charlieplex whose pins are declared
    elsewhere keeps its declared row2col too. *)
Lemma C6_counterexample_later_declaration :
  isCharlieMode (snd charlieOverlay) = true
  ∧ extractGpioList (snd charlieOverlay) "gpios"
    = ["pro_micro 1"; "pro_micro 2"; "pro_micro 3"]%string
  ∧ diodeDirection (findAndParsePinConfig kbShields [charlieOverlay] initialResult)
    = "col2row"%string
  ∧ diodeDirection
      (findAndParsePinConfig kbShields [charlieOverlay; matrixOverlay] initialResult)
    = "row2col"%string
  ∧ isCharlieMode (snd charlieNoPins) = true
  ∧ diodeDirection (findAndParsePinConfig kbShields [charlieNoPins] initialResult)
    = "row2col"%string.
Proof. repeat split; by vm_compute. Qed.

Lemma kbShields_ownNames : ownNames kbShields.
Proof. repeat constructor; refine (bool_decide_unpack _ _); vm_compute; exact I. Qed.

(** C6 (amended): for shields whose names no object inherits, and a result
    whose entries have their [row] and [col] tables, the extraction reads
    the files in order, and each file leaves the diode direction as follows:
    when the file has a shield to apply to, is recognised as direct wiring
    and gives input pins, row2col; else, when it is recognised as a
    charlieplex and gives pins, col2row; else the value it declares, if it
    declares one; else the direction is left as it was. Within a file the
    wiring thus overrides the declaration; the result is what the last file
    that sets a direction leaves, and col2row, the value set by the
    constructor, when no file sets one. *)
Theorem C6_diode_direction (shields : list string) :
  ownNames shields →
  (∀ res file, rowColTables res →
     diodeDirection (pinConfigFile shields res file)
     = default (diodeDirection res) (fileDirection shields file))
  ∧ (∀ file d, wiringDirection shields file = Some d →
       fileDirection shields file = Some d ∧ (d = "row2col"%string ∨ d = "col2row"%string))
  ∧ (∀ file, wiringDirection shields file = None →
       fileDirection shields file = diodeMatch (snd file))
  ∧ (∀ files res, rowColTables res →
       diodeDirection (findAndParsePinConfig shields files res)
       = default (diodeDirection res) (last (omap (fileDirection shields) files)))
  ∧ (∀ files,
       (∀ file, file ∈ files → fileDirection shields file = None) →
       diodeDirection (findAndParsePinConfig shields files initialResult)
       = "col2row"%string).
Proof.
  intros _.
  split; [intros res file _; apply pinConfigFile_direction|].
  split; [|split; [|split; [intros files res _; apply findAndParsePinConfig_direction|]]].
  - intros file d Hw. unfold fileDirection. rewrite Hw. split; [done|].
    unfold wiringDirection in Hw. destruct file as [filename content].
    repeat case_match; naive_solver.
  - intros file Hw. unfold fileDirection. by rewrite Hw.
  - intros files Hnone. rewrite findAndParsePinConfig_direction.
    assert (Hnil : omap (fileDirection shields) files = []).
    { induction files as [|f files IH]; [done|]. simpl.
      rewrite (Hnone f) by left. apply IH. intros f' Hf'. apply Hnone. by right. }
    by rewrite Hnil.
Qed.

Lemma C6_diode_direction_witness :
  fileDirection kbShields charlieOverlay = Some "col2row"%string
  ∧ fileDirection kbShields charlieNoPins = Some "row2col"%string
  ∧ diodeDirection
      (findAndParsePinConfig kbShields [charlieOverlay; matrixOverlay] initialResult)
    = "row2col"%string.
Proof.
  split; [|split].
  - apply (C6_diode_direction kbShields kbShields_ownNames). by vm_compute.
  - rewrite (proj1 (proj2 (proj2 (C6_diode_direction kbShields kbShields_ownNames)))
               charlieNoPins) by (by vm_compute).
    by vm_compute.
  - rewrite (proj1 (proj2 (proj2 (proj2 (C6_diode_direction kbShields kbShields_ownNames))))
               [charlieOverlay; matrixOverlay] initialResult) by constructor.
    by vm_compute.
Defined.

(** * Further properties of the localiser *)

(** The report list is grouped by shield, in the order of the valid shields;
    within a shield the interrupt report comes first, then the reports of
    the wiring mode, then the single keys. What an earlier shield covered
    changes nothing for a later one. *)
Theorem analyzeFailures_order (pd : ParsedData) (sel : list nat) :
  analyzeFailures pd sel = validShields pd ≫= passReports pd sel.
Proof.
  rewrite analyzeFailures_eq.
  assert (Hall : ∀ l : list string, (∀ s, s ∈ l → s ∈ validShields pd) →
            l ≫= sideReports pd sel = l ≫= passReports pd sel).
  { induction l as [|s l IH]; intros Hl; [done|].
    rewrite !bind_cons, IH by (intros s' Hs'; apply Hl; by right). f_equal.
    assert (Hs : s ∈ validShields pd) by (apply Hl; left).
    destruct (validShields_pinMap pd s Hs) as (pMap & Hp & _).
    rewrite (sideReports_eq pd sel s Hs), (lineReports_eq pd sel s pMap Hp).
    unfold passReports. rewrite Hp. cbv zeta. by rewrite <- app_assoc. }
  by apply Hall.
Qed.

Lemma reports_own_keys (pd : ParsedData) (sel : list nat) :
  Forall (λ rep, reportSide rep ∈ validShields pd
                 ∧ ∀ idx, idx ∈ indices rep → keyOn pd (reportSide rep) idx)
    (analyzeFailures pd sel).
Proof.
  apply Forall_forall. intros rep [Hs Hrep]%elem_of_analyzeFailures.
  split; [done|].
  rewrite (sideReports_eq pd sel _ Hs), elem_of_app in Hrep.
  destruct Hrep as [Hrep|Hrep].
  - destruct (lineReports_own pd sel _ rep Hs Hrep) as (_ & _ & Hown). exact Hown.
  - apply elem_of_singlesOf in Hrep as (idx & m & _ & _ & Hm & Hside & Heq).
    intros idx' Hidx'. rewrite Heq in Hidx'. simpl in Hidx'.
    apply list_elem_of_singleton in Hidx' as ->. by exists m.
Qed.

(** Every report names a valid shield, and every key it lists has a matrix
    entry that resolves to that shield. *)
Theorem analyzeFailures_own_keys (pd : ParsedData) (sel : list nat) :
  Forall (λ rep, reportSide rep ∈ validShields pd
                 ∧ ∀ idx, idx ∈ indices rep → keyOn pd (reportSide rep) idx)
    (analyzeFailures pd sel).
Proof. apply reports_own_keys. Qed.

(** Apart from the reports for a whole shield ([interrupt], [direct_gnd]),
    a report lists failing keys only. *)
Theorem analyzeFailures_failing_only (pd : ParsedData) (sel : list nat) :
  Forall (λ rep, wholeSide rep = false → ∀ idx, idx ∈ indices rep → idx ∈ sel)
    (analyzeFailures pd sel).
Proof.
  apply Forall_forall. intros rep [Hs Hrep]%elem_of_analyzeFailures Hw.
  destruct (validShields_pinMap pd _ Hs) as (pMap & Hp & _).
  rewrite (sideReports_eq pd sel _ Hs), (lineReports_eq pd sel _ pMap Hp) in Hrep.
  rewrite !elem_of_app in Hrep. destruct Hrep as [[Hrep|Hrep]|Hrep].
  - rewrite interruptPass_report in Hrep.
    destruct (interrupt pMap) as [pin|]; [|by apply elem_of_nil in Hrep].
    destruct (_ && _); [|by apply elem_of_nil in Hrep].
    apply list_elem_of_singleton in Hrep. by rewrite Hrep in Hw.
  - unfold wiringPass in Hrep. destruct (gpios pMap) as [gp|] eqn:Hgp.
    + apply charliePass_reports in Hrep as (pIdx & _ & Heq);
        [|done|by eapply hasGpios_of].
      rewrite Heq. simpl. by intros idx [? _]%elem_of_thoseSelected.
    + destruct (direct pMap) as [d|].
      * rewrite directPass_report in Hrep. destruct (_ && _).
        -- apply list_elem_of_singleton in Hrep. by rewrite Hrep in Hw.
        -- apply list_elem_of_fmap in Hrep as (idx' & Heq & Hin). rewrite Heq. simpl.
           intros idx ->%list_elem_of_singleton.
           by apply elem_of_thoseSelected in Hin as [? _].
      * apply standardPass_reports in Hrep as [(k & _ & Heq)|(k & _ & Heq)]; [| |done];
          rewrite Heq; simpl; intros idx Hidx; by apply elem_of_keysOf in Hidx as [? _].
  - apply elem_of_singlesOf in Hrep as (idx & m & Hin & _ & _ & _ & Heq).
    rewrite Heq. simpl. by intros idx' ->%list_elem_of_singleton.
Qed.

Lemma failing_key_reported (pd : ParsedData) (sel : list nat) (idx : nat) :
  validShields pd ≠ [] → idx ∈ sel → hasEntry pd idx →
  ∃ rep, rep ∈ analyzeFailures pd sel ∧ idx ∈ indices rep.
Proof.
  intros Hne Hin [m Hm].
  set (s := side (getSideAndPhysCoords pd (Some m))).
  assert (Hs : s ∈ validShields pd) by (by apply getSideAndPhysCoords_valid).
  destruct (decide (Exists (λ rep, idx ∈ indices rep) (lineReports pd sel s)))
    as [Hex|Hnone].
  - apply Exists_exists in Hex as (rep & Hrep & Hidx). exists rep. split; [|done].
    by apply (lineReports_in pd sel s).
  - exists (RSingle s (r m) (c m) idx [idx]). split; [|left].
    apply elem_of_analyzeFailures_single. split; [done|]. split; [done|].
    split; [done|]. split; [by exists m|].
    intros rep Hrep Hidx. apply Hnone, Exists_exists. by exists rep.
Qed.

(** No failing key is dropped: on a board with a valid shield, every failing
    key that has a matrix entry is listed by some report. *)
Theorem analyzeFailures_complete (pd : ParsedData) (sel : list nat) (idx : nat) :
  validShields pd ≠ [] → idx ∈ sel → hasEntry pd idx →
  ∃ rep, rep ∈ analyzeFailures pd sel ∧ idx ∈ indices rep.
Proof. apply failing_key_reported. Qed.

Lemma analyzeFailures_complete_witness :
  ∃ rep, rep ∈ analyzeFailures splitBoard [0; 4] ∧ 0 ∈ indices rep.
Proof.
  apply (analyzeFailures_complete splitBoard [0; 4] 0).
  - by vm_compute.
  - left.
  - vm_compute. by eexists.
Defined.

(** An [interrupt] report is in the list exactly when its shield is valid,
    has a non-empty interrupt pin and more than 5 keys, more than 0.8 of
    them failing; it names that pin and lists all the keys of the shield. *)
Theorem interrupt_report_iff (pd : ParsedData) (sel : list nat) (s pin : string)
    (l : list nat) :
  RInterrupt s pin l ∈ analyzeFailures pd sel
  ↔ s ∈ validShields pd
    ∧ (∃ pMap, obj_get (pinMap pd) s = Some pMap ∧ interrupt pMap = Some pin)
    ∧ pin ≠ ""%string
    ∧ l = keysWhere pd (onSide s)
    ∧ 5 < length l
    ∧ 4 * length l < 5 * length (selectedOn pd sel s).
Proof.
  rewrite (elem_of_analyzeFailures_line pd sel (RInterrupt s pin l) eq_refl). simpl. split.
  - intros [Hs Hrep]. split; [done|].
    destruct (validShields_pinMap pd s Hs) as (pMap & Hp & _).
    rewrite (lineReports_eq pd sel s pMap Hp), elem_of_app in Hrep.
    destruct Hrep as [Hrep|Hrep].
    + rewrite interruptPass_report in Hrep.
      destruct (interrupt pMap) as [pin'|] eqn:Hint; [|by apply elem_of_nil in Hrep].
      destruct (bool_decide (pin' ≠ ""%string)) eqn:Hpin; simpl in Hrep;
        [|by apply elem_of_nil in Hrep].
      destruct (bool_decide (5 < _)) eqn:H5; simpl in Hrep;
        [|by apply elem_of_nil in Hrep].
      destruct (nearlyAll _ _) eqn:H80; [|by apply elem_of_nil in Hrep].
      apply list_elem_of_singleton in Hrep as [= -> ->].
      apply bool_decide_eq_true in Hpin, H5. unfold nearlyAll in H80.
      apply bool_decide_eq_true in H80.
      split; [by exists pMap|]. done.
    + exfalso. unfold wiringPass in Hrep. destruct (gpios pMap) as [gp|] eqn:Hgp.
      * apply charliePass_reports in Hrep as (pIdx & _ & Heq);
          [done|done|by eapply hasGpios_of].
      * destruct (direct pMap) as [d|].
        -- rewrite directPass_report in Hrep. destruct (_ && _).
           ++ by apply list_elem_of_singleton in Hrep.
           ++ by apply list_elem_of_fmap in Hrep as (idx' & Heq & _).
        -- by apply standardPass_reports in Hrep as [(k & _ & Heq)|(k & _ & Heq)].
  - intros (Hs & (pMap & Hp & Hint) & Hpin & -> & H5 & H80). split; [done|].
    rewrite (lineReports_eq pd sel s pMap Hp), elem_of_app. left.
    rewrite interruptPass_report, Hint. unfold nearlyAll.
    rewrite (bool_decide_eq_true_2 _ Hpin), (bool_decide_eq_true_2 _ H5),
      (bool_decide_eq_true_2 _ H80). left.
Qed.

Lemma keysOf_nil pd test : keysOf pd test [] = [].
Proof. done. Qed.

Lemma majority_zero total : majority 0 total = false.
Proof.
  unfold majority. rewrite (bool_decide_eq_false_2 (3 * total < 5 * 0)) by lia.
  by rewrite andb_false_r.
Qed.

Lemma nearlyAll_zero total : nearlyAll 0 total = false.
Proof. unfold nearlyAll. apply bool_decide_eq_false. lia. Qed.

(** With no failing key there is no report, whatever the topology. *)
Theorem analyzeFailures_nothing_selected (pd : ParsedData) : analyzeFailures pd [] = [].
Proof.
  apply elem_of_nil_inv. intros rep [Hs Hrep]%elem_of_analyzeFailures.
  destruct (validShields_pinMap pd _ Hs) as (pMap & Hp & _).
  rewrite (sideReports_eq pd [] _ Hs), (lineReports_eq pd [] _ pMap Hp) in Hrep.
  rewrite !elem_of_app in Hrep. destruct Hrep as [[Hrep|Hrep]|Hrep].
  - rewrite interruptPass_report in Hrep.
    destruct (interrupt pMap) as [pin|]; [|by apply elem_of_nil in Hrep].
    replace (length (selectedOn pd [] (reportSide rep))) with 0 in Hrep by done.
    rewrite nearlyAll_zero, !andb_false_r in Hrep. by apply elem_of_nil in Hrep.
  - unfold wiringPass in Hrep. destruct (gpios pMap) as [gp|] eqn:Hgp.
    + apply charliePass_reports in Hrep as (pIdx & Hf & _);
        [|done|by eapply hasGpios_of].
      rewrite !keysOf_nil in Hf. simpl in Hf. by rewrite !majority_zero in Hf.
    + destruct (direct pMap) as [d|].
      * rewrite directPass_report in Hrep.
        assert (Hnone : ∀ l : list nat, thoseSelected [] l = []).
        { intros l. apply filter_none. by intros x _ ?%elem_of_nil. }
        rewrite !Hnone in Hrep. replace (length (@nil nat)) with 0 in Hrep by done.
        rewrite nearlyAll_zero, andb_false_r in Hrep. by apply elem_of_nil in Hrep.
      * apply standardPass_reports in Hrep as [(k & Ho & _)|(k & Ho & _)]; [| |done];
          rewrite keysOf_nil in Ho; unfold over60 in Ho; simpl in Ho; lia.
  - by apply elem_of_singlesOf in Hrep as (idx & m & ?%elem_of_nil & _).
Qed.

(** ** Selected keys without a matrix entry *)

Lemma fold_left_filter_skip {A B} (f : A → B → A) (P : B → Prop) `{∀ x, Decision (P x)}
    (l : list B) (a : A) :
  (∀ a x, ¬ P x → f a x = a) → fold_left f (filter P l) a = fold_left f l a.
Proof.
  intros Hskip. revert a. induction l as [|x l IH]; intros a; [done|].
  rewrite filter_cons. destruct (decide (P x)) as [Hx|Hx]; simpl.
  - apply IH.
  - by rewrite (Hskip a x Hx).
Qed.

Lemma fold_left_pointwise {A B} (f g : A → B → A) (l : list B) (a : A) :
  (∀ a x, f a x = g a x) → fold_left f l a = fold_left g l a.
Proof.
  intros Hfg. revert a. induction l as [|x l IH]; intros a; [done|].
  simpl. by rewrite Hfg, IH.
Qed.

Lemma keysOf_mapped pd test (sel : list nat) :
  keysOf pd test (filter (hasEntry pd) sel) = keysOf pd test sel.
Proof.
  unfold keysOf. rewrite list_filter_filter. apply filter_ext_in. intros idx _.
  split; [by intros [? _]|]. intros Hp. split; [done|].
  unfold hasEntry. unfold passes in Hp. by destruct (entryAt pd idx).
Qed.

Lemma thoseSelected_mapped pd test (sel : list nat) :
  thoseSelected (filter (hasEntry pd) sel) (keysWhere pd test)
  = thoseSelected sel (keysWhere pd test).
Proof.
  unfold thoseSelected. apply filter_ext_in. intros idx Hidx.
  rewrite list_elem_of_filter. split; [by intros [_ ?]|]. intros Hin. split; [|done].
  apply elem_of_keysWhere in Hidx as (m & Hm & _). unfold hasEntry. by rewrite Hm.
Qed.

Lemma failingOf_mapped pd (sel : list nat) :
  failingOf pd (filter (hasEntry pd) sel) = failingOf pd sel.
Proof.
  unfold failingOf. apply fold_left_filter_skip. intros t idx Hno.
  unfold groupKey. destruct (entryAt pd idx) as [m|] eqn:Hm; [|done].
  destruct Hno. unfold hasEntry. by rewrite Hm.
Qed.

(** Failing indices without a matrix entry (beyond the matrix map, or at a
    missing entry) have no effect on the report list. *)
Theorem analyzeFailures_ignores_unmapped (pd : ParsedData) (sel : list nat) :
  analyzeFailures pd (filter (hasEntry pd) sel) = analyzeFailures pd sel.
Proof.
  unfold analyzeFailures. cbv zeta. rewrite failingOf_mapped.
  destruct (bool_decide (length (validShields pd) = 0)); [done|]. f_equal.
  apply fold_left_pointwise. intros a s. unfold analyzeSide.
  destruct (obj_get (pinMap pd) s) as [pMap|]; [|done]. cbv zeta.
  assert (Hint : ∀ a, interruptPass pd (filter (hasEntry pd) sel) s pMap a
                      = interruptPass pd sel s pMap a).
  { intros a'. unfold interruptPass, selectedOn. by rewrite keysOf_mapped. }
  assert (Hwire : ∀ a, wiringPass pd (filter (hasEntry pd) sel) (totalsOf pd)
                         (failingOf pd sel) s pMap a
                       = wiringPass pd sel (totalsOf pd) (failingOf pd sel) s pMap a).
  { intros a'. unfold wiringPass. destruct (gpios pMap) as [gp|].
    - unfold charliePass.
      destruct (charlieTotals (totalsOf pd) !! s) as [ct|]; [|done].
      destruct (charlieCounts (failingOf pd sel) !! s) as [cc|]; [|done].
      apply fold_left_pointwise. intros a'' pIdx. unfold charliePin. cbv zeta.
      by rewrite thoseSelected_mapped.
    - destruct (direct pMap) as [d|]; [|done].
      unfold directPass. cbv zeta. by rewrite thoseSelected_mapped. }
  rewrite Hint, Hwire. apply fold_left_filter_skip. intros a' idx Hno.
  unfold singleKey. destruct (bool_decide (idx ∈ coveredIndices a')); [done|].
  destruct (entryAt pd idx) as [m|] eqn:Hm; [|done].
  destruct Hno. unfold hasEntry. by rewrite Hm.
Qed.

(** * Comment removal *)

Lemma string_ind2 (P : string → Prop) :
  P EmptyString → (∀ ch, P (String ch EmptyString)) →
  (∀ ch ch2 s, P s → P (String ch2 s) → P (String ch (String ch2 s))) →
  ∀ s, P s.
Proof.
  intros H0 H1 H2 s.
  assert (H : P s ∧ ∀ ch, P (String ch s)); [|by destruct H].
  induction s as [|ch2 s [IH1 IH2]]; [by split|].
  split; [apply IH2|]. intros ch. by apply H2.
Qed.

Lemma isLineEnd_not_hash ch : isLineEnd ch = true → ch ≠ "#"%char.
Proof. by intros H ->. Qed.

Lemma isLineEnd_not_slash ch : isLineEnd ch = true → ch ≠ "/"%char.
Proof. by intros H ->. Qed.

Lemma dropHashComments_no_hash inside s :
  "#"%char ∉ chars (dropHashComments inside s).
Proof.
  revert inside. induction s as [|ch s IH]; intros inside; simpl; [apply not_elem_of_nil|].
  destruct inside.
  - destruct (isLineEnd ch) eqn:Hend; [|apply IH]. simpl.
    apply not_elem_of_cons. split; [|apply IH].
    intros Heq. by apply (isLineEnd_not_hash ch).
  - case_bool_decide as Hch; [apply IH|]. simpl.
    apply not_elem_of_cons. split; [congruence|apply IH].
Qed.


Lemma dropLineComments_cons2 inside ch ch2 s :
  dropLineComments inside (String ch (String ch2 s))
  = if inside then
      if isLineEnd ch then String ch (dropLineComments false (String ch2 s))
      else dropLineComments true (String ch2 s)
    else if bool_decide (ch = "/"%char) && bool_decide (ch2 = "/"%char)
         then dropLineComments true s
         else String ch (dropLineComments false (String ch2 s)).
Proof. reflexivity. Qed.

Lemma dropBlockComments_cons2 inside ch ch2 s :
  dropBlockComments inside (String ch (String ch2 s))
  = if inside then
      if bool_decide (ch = "*"%char) && bool_decide (ch2 = "/"%char)
      then dropBlockComments false s
      else dropBlockComments true (String ch2 s)
    else if bool_decide (ch = "/"%char) && bool_decide (ch2 = "*"%char) && closes s
         then dropBlockComments true s
         else String ch (dropBlockComments false (String ch2 s)).
Proof. reflexivity. Qed.

(** Each scan only deletes characters. *)
Lemma dropLineComments_sublist inside s :
  chars (dropLineComments inside s) `sublist_of` chars s.
Proof.
  revert inside. induction s as [| |ch ch2 s IH1 IH2] using string_ind2; intros inside.
  - done.
  - simpl. destruct inside; [|done].
    destruct (isLineEnd ch); [done|]. by apply sublist_cons.
  - rewrite dropLineComments_cons2. destruct inside.
    + destruct (isLineEnd ch); cbn [chars]; [apply sublist_skip|apply sublist_cons]; apply IH2.
    + destruct (_ && _); cbn [chars].
      * do 2 apply sublist_cons. apply IH1.
      * apply sublist_skip, IH2.
Qed.

Lemma dropBlockComments_sublist inside s :
  chars (dropBlockComments inside s) `sublist_of` chars s.
Proof.
  revert inside. induction s as [| |ch ch2 s IH1 IH2] using string_ind2; intros inside.
  - done.
  - simpl. destruct inside; [|done]. by apply sublist_cons.
  - rewrite dropBlockComments_cons2. destruct inside.
    + destruct (_ && _); cbn [chars].
      * do 2 apply sublist_cons. apply IH1.
      * apply sublist_cons, IH2.
    + destruct (_ && _); cbn [chars].
      * do 2 apply sublist_cons. apply IH1.
      * apply sublist_skip, IH2.
Qed.

Lemma dropHashComments_sublist inside s :
  chars (dropHashComments inside s) `sublist_of` chars s.
Proof.
  revert inside. induction s as [|ch s IH]; intros inside; simpl; [done|].
  destruct inside.
  - destruct (isLineEnd ch); simpl; [apply sublist_skip|apply sublist_cons]; apply IH.
  - case_bool_decide; simpl; [apply sublist_cons|apply sublist_skip]; apply IH.
Qed.

Lemma startsWith_dec (ch : ascii) (s : string) :
  {s' | s = String ch s'} + {∀ s', s ≠ String ch s'}.
Proof.
  destruct s as [|ch' s']; [right; by intros|].
  destruct (decide (ch' = ch)) as [->|Hne]; [left; by exists s'|].
  right. intros s'' [= ? ?]. done.
Qed.

Lemma slashPair_chars s l1 l2 :
  chars s = l1 ++ "/"%char :: "/"%char :: l2 → slashPair s.
Proof.
  revert s. induction l1 as [|x l1 IH]; intros s Hs.
  - destruct s as [|ch [|ch2 s]]; simplify_eq/=. left. split; [done|]. by eexists.
  - destruct s as [|ch s]; simplify_eq/=. right. by apply IH.
Qed.

Lemma dropLineComments_inside_first s : ¬ slashFirst (dropLineComments true s).
Proof.
  induction s as [|ch s IH]; simpl; [by intros [? ?]|].
  destruct (isLineEnd ch) eqn:Hend; [|done].
  intros [s' [= Hch _]]. by apply (isLineEnd_not_slash ch).
Qed.

Lemma dropLineComments_no_pair inside s : ¬ slashPair (dropLineComments inside s).
Proof.
  revert inside. induction s as [| |ch ch2 s IH1 IH2] using string_ind2; intros inside.
  - destruct inside; by intros [].
  - simpl. destruct inside.
    + destruct (isLineEnd ch) eqn:Hend; simpl; [|by intros []].
      intros [[_ [? ?]]|[]]. done.
    + simpl. intros [[_ [? ?]]|[]]. done.
  - rewrite dropLineComments_cons2. destruct inside.
    + destruct (isLineEnd ch) eqn:Hend; [|apply IH2].
      cbn [slashPair]. intros [[Hch _]|Hp]; [by apply (isLineEnd_not_slash ch)|].
      by apply (IH2 false).
    + destruct (bool_decide (ch = "/"%char) && bool_decide (ch2 = "/"%char)) eqn:Hb;
        [apply IH1|].
      cbn [slashPair]. intros [[Hch Hf]|Hp]; [|by apply (IH2 false)].
      subst ch. simpl in Hb.
      (* the scan after a kept slash starts with the next character *)
      destruct s as [|ch3 s]; simpl in Hf.
      * destruct Hf as [s' [= -> _]]. by rewrite bool_decide_true in Hb.
      * destruct (bool_decide (ch2 = "/"%char) && bool_decide (ch3 = "/"%char)).
        -- by apply dropLineComments_inside_first in Hf.
        -- destruct Hf as [s' [= -> _]]. by rewrite bool_decide_true in Hb.
Qed.

Lemma dropBlockComments_outside_first s :
  ¬ slashFirst s → ¬ slashFirst (dropBlockComments false s).
Proof.
  intros Hs. destruct s as [|ch [|ch2 s]]; [done|done|].
  rewrite dropBlockComments_cons2.
  destruct (bool_decide (ch = "/"%char)) eqn:Hch.
  - apply bool_decide_eq_true in Hch as ->. destruct Hs. by eexists.
  - simpl. intros [s' [= -> _]]. by rewrite bool_decide_true in Hch.
Qed.

Lemma dropBlockComments_inside_first s :
  ¬ slashPair s → ¬ slashFirst (dropBlockComments true s).
Proof.
  induction s as [| |ch ch2 s IH1 IH2] using string_ind2; intros Hs.
  - by intros [? ?].
  - by intros [? ?].
  - rewrite dropBlockComments_cons2.
    destruct (bool_decide (ch = "*"%char) && bool_decide (ch2 = "/"%char)) eqn:Hb.
    + apply andb_true_iff in Hb as [_ ->%bool_decide_eq_true].
      apply dropBlockComments_outside_first. intros Hf. apply Hs. right. by left.
    + apply IH2. intros Hp. apply Hs. by right.
Qed.

Lemma dropBlockComments_no_pair inside s :
  ¬ slashPair s → ¬ slashPair (dropBlockComments inside s).
Proof.
  revert inside. induction s as [| |ch ch2 s IH1 IH2] using string_ind2; intros inside Hs.
  - by destruct inside.
  - destruct inside; [by intros []|done].
  - assert (Hs2 : ¬ slashPair (String ch2 s)) by (intros Hp; apply Hs; by right).
    assert (Hs1 : ¬ slashPair s) by (intros Hp; apply Hs2; by right).
    rewrite dropBlockComments_cons2. destruct inside.
    + destruct (_ && _); [by apply IH1|by apply IH2].
    + destruct (_ && _ && _); [by apply IH1|].
      cbn [slashPair]. intros [[-> Hf]|Hp]; [|by apply (IH2 false)].
      destruct (startsWith_dec "/"%char (String ch2 s)) as [[s' Heq]|Hno].
      * apply Hs. left. split; [done|]. by exists s'.
      * apply (dropBlockComments_outside_first (String ch2 s)); [|done].
        intros [s' Heq]. by apply (Hno s').
Qed.

Lemma dropHashComments_inside_first s : ¬ slashFirst (dropHashComments true s).
Proof.
  induction s as [|ch s IH]; simpl; [by intros [? ?]|].
  destruct (isLineEnd ch) eqn:Hend; [|done].
  intros [s' [= Hch _]]. by apply (isLineEnd_not_slash ch).
Qed.

Lemma dropHashComments_outside_first s :
  slashFirst (dropHashComments false s) → slashFirst s.
Proof.
  destruct s as [|ch s]; simpl; [done|].
  case_bool_decide.
  - intros Hf. by apply dropHashComments_inside_first in Hf.
  - intros [s' [= -> _]]. by eexists.
Qed.

Lemma dropHashComments_no_pair inside s :
  ¬ slashPair s → ¬ slashPair (dropHashComments inside s).
Proof.
  revert inside. induction s as [|ch s IH]; intros inside Hs; simpl.
  - by destruct inside.
  - assert (Hs1 : ¬ slashPair s) by (intros Hp; apply Hs; by right).
    destruct inside.
    + destruct (isLineEnd ch) eqn:Hend; [|by apply IH].
      cbn [slashPair]. intros [[Hch _]|Hp]; [by apply (isLineEnd_not_slash ch)|].
      by apply (IH false).
    + case_bool_decide; [by apply IH|].
      cbn [slashPair]. intros [[-> Hf]|Hp]; [|by apply (IH false)].
      apply Hs. left. split; [done|]. by apply dropHashComments_outside_first.
Qed.

(** After the three replacements the text has no [#] and no [//]: no line
    comment is left, whatever the removal of block comments joined. *)
Theorem stripComments_no_line_comment (text : string) :
  ("#"%char ∉ chars (stripComments text))
  ∧ (∀ l1 l2, chars (stripComments text) ≠ l1 ++ "/"%char :: "/"%char :: l2).
Proof.
  split; [apply dropHashComments_no_hash|].
  intros l1 l2 Heq. apply slashPair_chars in Heq. revert Heq.
  apply dropHashComments_no_pair, dropBlockComments_no_pair, dropLineComments_no_pair.
Qed.

(** The replacements only delete: the result is the text with some of its
    characters left out, in the same order. *)
Theorem stripComments_sublist (text : string) :
  chars (stripComments text) `sublist_of` chars text.
Proof.
  unfold stripComments.
  etrans; [apply dropHashComments_sublist|].
  etrans; [apply dropBlockComments_sublist|]. apply dropLineComments_sublist.
Qed.

Lemma dropLineComments_id s : "/"%char ∉ chars s → dropLineComments false s = s.
Proof.
  induction s as [| |ch ch2 s IH1 IH2] using string_ind2; intros Hs; [done|done|].
  rewrite dropLineComments_cons2.
  apply not_elem_of_cons in Hs as [Hch Hs].
  rewrite (bool_decide_false (ch = "/"%char)) by done. cbn [andb]. by rewrite IH2.
Qed.

Lemma dropBlockComments_id s : "/"%char ∉ chars s → dropBlockComments false s = s.
Proof.
  induction s as [| |ch ch2 s IH1 IH2] using string_ind2; intros Hs; [done|done|].
  rewrite dropBlockComments_cons2.
  apply not_elem_of_cons in Hs as [Hch Hs].
  rewrite (bool_decide_false (ch = "/"%char)) by done. cbn [andb]. by rewrite IH2.
Qed.

Lemma dropHashComments_id s : "#"%char ∉ chars s → dropHashComments false s = s.
Proof.
  induction s as [|ch s IH]; intros Hs; [done|]. simpl.
  apply not_elem_of_cons in Hs as [Hch Hs].
  rewrite bool_decide_false by done. by rewrite IH.
Qed.

(** A text without [/] and [#] is left as it is. *)
Theorem stripComments_plain (text : string) :
  "/"%char ∉ chars text → "#"%char ∉ chars text → stripComments text = text.
Proof.
  intros Hslash Hhash. unfold stripComments.
  by rewrite dropLineComments_id, dropBlockComments_id, dropHashComments_id.
Qed.

Lemma stripComments_plain_witness :
  stripComments "row-gpios = <&pro_micro 4 0>;" = "row-gpios = <&pro_micro 4 0>;"%string.
Proof.
  apply stripComments_plain; apply (bool_decide_unpack _); vm_compute; exact I.
Defined.

(** * The shields of the build *)

Lemma chars_app s t : chars (s +:+ t) = chars s ++ chars t.
Proof. induction s as [|ch s IH]; simpl; [done|]. by rewrite IH. Qed.

Lemma chars_inj s t : chars s = chars t → s = t.
Proof.
  revert t. induction s as [|ch s IH]; intros [|ch' t] Heq; simplify_eq/=; [done|].
  f_equal. by apply IH.
Qed.

Lemma chars_skipSpace s : chars (skipSpace s) `sublist_of` chars s.
Proof.
  induction s as [|ch s IH]; simpl; [done|].
  destruct (isSpace ch); [by apply sublist_cons|done].
Qed.

Lemma chars_trimEnd s : chars (trimEnd s) `sublist_of` chars s.
Proof.
  induction s as [|ch s IH]; simpl; [done|].
  destruct (_ && _); simpl; [apply sublist_nil_l|by apply sublist_skip].
Qed.

Lemma chars_trim s : chars (trim s) `sublist_of` chars s.
Proof. unfold trim. etrans; [apply chars_trimEnd|apply chars_skipSpace]. Qed.

Lemma chars_without class s :
  chars (without class s) = filter (λ ch, ¬ Is_true (class ch)) (chars s).
Proof.
  induction s as [|ch s IH]; simpl; [done|].
  destruct (class ch) eqn:Hc; simpl.
  - rewrite filter_cons_False; [done|]. rewrite Hc. intros H. by apply H.
  - rewrite filter_cons_True; [by rewrite IH|]. rewrite Hc. by intros [].
Qed.

Lemma chars_firstWord s :
  chars (firstWord s) `sublist_of` chars s
  ∧ Forall (λ ch, isSpace ch = false) (chars (firstWord s)).
Proof.
  induction s as [|ch s [IH1 IH2]]; simpl; [done|].
  destruct (isSpace ch) eqn:Hsp; simpl.
  - split; [apply sublist_nil_l|done].
  - split; [by apply sublist_skip|by constructor].
Qed.

(** The pieces of a split have no separator; their characters come from the
    text (or from the piece read so far). *)
Lemma splitOn_pieces sep cur s piece :
  piece ∈ splitOn sep cur s →
  ∀ ch, ch ∈ chars piece → (ch ∈ chars cur ∨ ch ∈ chars s ∧ ch ≠ sep).
Proof.
  revert cur. induction s as [|ch' s IH]; intros cur Hin ch Hch; simpl in Hin.
  - apply list_elem_of_singleton in Hin as ->. by left.
  - case_bool_decide as Hsep.
    + apply elem_of_cons in Hin as [->|Hin]; [by left|].
      destruct (IH _ Hin ch Hch) as [Hcur|[Hs Hne]]; [by apply elem_of_nil in Hcur|].
      right. split; [by right|done].
    + destruct (IH _ Hin ch Hch) as [Hcur|[Hs Hne]].
      * rewrite chars_app in Hcur. apply elem_of_app in Hcur as [Hcur|Hcur]; [by left|].
        simpl in Hcur. apply list_elem_of_singleton in Hcur as ->.
        right. split; [left|done].
      * right. split; [by right|done].
Qed.

Lemma baseShieldOf_chars group entry :
  entry ∈ splitOn ","%char EmptyString (without isBracket (trim group)) →
  Forall (λ ch, Is_true (nameChar ch)) (chars (baseShieldOf entry)).
Proof.
  intros Hentry. apply Forall_forall. intros ch Hch. unfold baseShieldOf in Hch.
  destruct (chars_firstWord (without isQuote (trim entry))) as [Hsub Hsp].
  assert (Hspace : isSpace ch = false) by (by eapply Forall_forall in Hsp).
  apply (λ H, elem_of_sublist _ _ _ H Hsub) in Hch.
  rewrite chars_without in Hch. apply list_elem_of_filter in Hch as [Hq Hch].
  apply (λ H, elem_of_sublist _ _ _ H (chars_trim entry)) in Hch.
  destruct (splitOn_pieces _ _ _ _ Hentry ch Hch) as [Hnil|[Hin Hcomma]];
    [by apply elem_of_nil in Hnil|].
  rewrite chars_without in Hin. apply list_elem_of_filter in Hin as [Hb _].
  unfold nameChar. rewrite Hspace.
  destruct (isQuote ch); [by destruct Hq|]. destruct (isBracket ch); [by destruct Hb|].
  simpl. by rewrite bool_decide_false.
Qed.

Lemma addShield_ok group p entry :
  entry ∈ splitOn ","%char EmptyString (without isBracket (trim group)) →
  shieldsOk p → shieldsOk (addShield p entry).
Proof.
  intros Hentry [Hnd Hall]. unfold addShield. cbv zeta.
  destruct (negb (bool_decide (baseShieldOf entry = EmptyString))) eqn:H1; [|done].
  destruct (negb (bool_decide (baseShieldOf entry = "settings_reset"%string))) eqn:H2;
    [|done].
  destruct (negb (bool_decide (baseShieldOf entry ∈ shields p))) eqn:H3; [|done].
  simpl. apply negb_true_iff, bool_decide_eq_false in H1, H2, H3.
  split; simpl.
  - apply NoDup_app. split; [done|]. split; [|apply NoDup_singleton].
    intros s Hs ->%list_elem_of_singleton. done.
  - apply Forall_app. split; [done|]. constructor; [|done].
    split; [done|]. split; [done|]. by eapply baseShieldOf_chars.
Qed.

Lemma fold_left_invariant {A B} (I : A → Prop) (f : A → B → A) (l : list B) (a : A) :
  (∀ a x, x ∈ l → I a → I (f a x)) → I a → I (fold_left f l a).
Proof.
  revert a. induction l as [|x l IH]; intros a Hstep Ha; [done|]. simpl.
  apply IH; [intros a' x' Hx'; apply Hstep; by right|]. apply Hstep; [left|done].
Qed.

Lemma buildLine_ok p line : shieldsOk p → shieldsOk (buildLine p line).
Proof.
  intros Hp. unfold buildLine. destruct (shieldMatch line) as [group|]; [|done].
  apply fold_left_invariant; [|done]. intros p' entry Hentry. by apply addShield_ok with group.
Qed.

Lemma buildFile_ok p file : shieldsOk p → shieldsOk (buildFile p file).
Proof.
  intros Hp. destruct file as [name content]. simpl.
  destruct (endsWith name "build.yaml"); [|done].
  apply fold_left_invariant; [|done]. intros p' line _. apply buildLine_ok.
Qed.

Lemma findAndParseBuildConfig_ok rawFiles res :
  shieldsOk (findAndParseBuildConfig rawFiles res).
Proof.
  unfold findAndParseBuildConfig.
  apply (fold_left_invariant shieldsOk); [intros p file _; apply buildFile_ok|].
  split; simpl; [apply NoDup_nil_2|done].
Qed.

(** The shields read from the build configuration are distinct, non-empty
    names other than [settings_reset], without white space, quotes, brackets
    or commas. *)
Theorem findAndParseBuildConfig_shields (rawFiles : list (string * string))
    (res : ParsedData) :
  NoDup (shields (findAndParseBuildConfig rawFiles res))
  ∧ Forall shieldNameOk (shields (findAndParseBuildConfig rawFiles res)).
Proof. apply findAndParseBuildConfig_ok. Qed.

(** * The parser as a whole *)

Lemma keys_obj_set_in {V} (o : list (string * V)) k v :
  k ∈ map fst o → map fst (obj_set o k v) = map fst o.
Proof.
  induction o as [|[k' v'] o IH]; simpl; [by intros ?%elem_of_nil|].
  intros Hin. destruct (decide (k' = k)) as [->|Hne]; [done|]. simpl. f_equal.
  apply IH. by apply elem_of_cons in Hin as [?|?].
Qed.

Lemma keys_obj_set_new {V} (o : list (string * V)) k v :
  k ∉ map fst o → map fst (obj_set o k v) = map fst o ++ [k].
Proof.
  induction o as [|[k' v'] o IH]; simpl; [done|].
  intros Hin. apply not_elem_of_cons in Hin as [Hne Hin].
  rewrite decide_False by done. simpl. f_equal. by apply IH.
Qed.

Lemma Forall_obj_set {V} (P : string * V → Prop) (o : list (string * V)) k v :
  Forall P o → P (k, v) → Forall P (obj_set o k v).
Proof.
  intros Ho Hv. induction Ho as [|[k' v'] o Hx Ho IH]; simpl; [by constructor|].
  destruct (decide (k' = k)); by constructor.
Qed.

Lemma tablesOk_fresh : tablesOk freshPinMap.
Proof. by repeat split. Qed.

Lemma entryOf_ok shields res s : pinMapOk shields res → tablesOk (entryOf res s).
Proof.
  intros [_ Hall]. unfold entryOf.
  destruct (obj_get (pinMap res) s) as [p|] eqn:Hget; [|apply tablesOk_fresh].
  apply obj_get_Some_in in Hget. by apply (proj1 (Forall_forall _ _) Hall) in Hget.
Qed.

Lemma setEntry_ok shields res s p :
  s ∈ shields → tablesOk p → pinMapOk shields res → pinMapOk shields (setEntry res s p).
Proof.
  intros Hs Hp [Hkeys Hall]. split; simpl.
  - rewrite keys_obj_set_in; [done|]. by rewrite Hkeys.
  - by apply Forall_obj_set.
Qed.

Lemma setDiode_ok shields res d : pinMapOk shields res → pinMapOk shields (setDiode res d).
Proof. done. Qed.

Lemma pinsObj_lookup l i : pinsObj l !! i = l !! i.
Proof.
  unfold pinsObj. destruct (l !! i) as [pin|] eqn:Hi.
  - apply elem_of_list_to_map.
    + rewrite fst_zip by (rewrite length_seq; lia). apply NoDup_seq.
    + apply elem_of_lookup_zip_with. exists i, i, pin.
      split; [done|]. split; [|done]. apply lookup_seq. split; [done|].
      by apply lookup_lt_Some in Hi.
  - apply not_elem_of_list_to_map_1. rewrite fst_zip by (rewrite length_seq; lia).
    rewrite elem_of_seq. apply lookup_ge_None in Hi. lia.
Qed.

Lemma assignPins_ok target l :
  0 < length l → ∃ m, assignPins target l = Some m ∧ m ≠ ∅.
Proof.
  intros Hl. eexists. split; [done|]. intros Hempty.
  destruct l as [|pin l]; [simpl in Hl; lia|].
  assert (Hlook : (pinsObj (pin :: l) ∪ default ∅ target) !! 0 = Some pin).
  { apply lookup_union_Some_l. by rewrite pinsObj_lookup. }
  by rewrite Hempty in Hlook.
Qed.

Lemma standardStep_ok shields rowGpios colGpios res s :
  s ∈ shields → pinMapOk shields res →
  pinMapOk shields (standardStep rowGpios colGpios res s).
Proof.
  intros Hs Hres. unfold standardStep. cbv zeta.
  destruct (entryOf_ok shields res s Hres) as (Hrow & Hcol & Hgp & Hd).
  apply setEntry_ok; [done| |done]. repeat split; simpl; [| |done|done].
  - by destruct (bool_decide _).
  - by destruct (bool_decide _).
Qed.

Lemma charlieStep_ok shields gp intGpios res s :
  s ∈ shields → pinMapOk shields res → pinMapOk shields (charlieStep gp intGpios res s).
Proof.
  intros Hs Hres. unfold charlieStep. cbv zeta.
  destruct (entryOf_ok shields res s Hres) as (Hrow & Hcol & Hgp & Hd).
  assert (Hset : pinMapOk shields
    (setEntry res s
       {| row := row (entryOf res s); col := col (entryOf res s);
          gpios := if bool_decide (0 < length gp)
                   then assignPins (gpios (entryOf res s)) gp else gpios (entryOf res s);
          direct := direct (entryOf res s);
          interrupt := if bool_decide (0 < length intGpios)
                       then head intGpios else interrupt (entryOf res s);
          colOffset := colOffset (entryOf res s);
          rowOffset := rowOffset (entryOf res s) |})).
  { apply setEntry_ok; [done| |done]. repeat split; simpl; [done|done| |done].
    case_bool_decide as Hlen; [|done].
    destruct (assignPins_ok (gpios (entryOf res s)) gp Hlen) as (m & -> & Hm).
    by intros g [= <-]. }
  by destruct (bool_decide (0 < length gp)).
Qed.

Lemma directStep_ok shields directGpios res s :
  s ∈ shields → pinMapOk shields res → pinMapOk shields (directStep directGpios res s).
Proof.
  intros Hs Hres. unfold directStep. cbv zeta.
  destruct (entryOf_ok shields res s Hres) as (Hrow & Hcol & Hgp & Hd).
  assert (Hset : pinMapOk shields
    (setEntry res s
       {| row := row (entryOf res s); col := col (entryOf res s);
          gpios := gpios (entryOf res s);
          direct := if bool_decide (0 < length directGpios)
                    then assignPins (direct (entryOf res s)) directGpios
                    else direct (entryOf res s);
          interrupt := interrupt (entryOf res s);
          colOffset := colOffset (entryOf res s);
          rowOffset := rowOffset (entryOf res s) |})).
  { apply setEntry_ok; [done| |done]. repeat split; simpl; [done|done|done|].
    case_bool_decide as Hlen; [|done].
    destruct (assignPins_ok (direct (entryOf res s)) directGpios Hlen) as (m & -> & Hm).
    by intros g [= <-]. }
  by destruct (bool_decide (0 < length directGpios)).
Qed.

Lemma sideOf_shield shields filename :
  sideOf shields filename ≠ "common"%string → sideOf shields filename ∈ shields.
Proof.
  unfold sideOf. intros Hne.
  destruct (filter _ shields) as [|s l] eqn:Hf; [done|]. simpl.
  assert (Hin : s ∈ filter (λ s, Is_true (includes filename s)) shields)
    by (rewrite Hf; left).
  by apply list_elem_of_filter in Hin as [_ ?].
Qed.

Lemma targetSides_shields shields filename s :
  s ∈ targetSides shields filename → s ∈ shields.
Proof.
  unfold targetSides. case_bool_decide as Hc; [done|].
  intros ->%list_elem_of_singleton. by apply sideOf_shield.
Qed.

Lemma pinConfigFile_ok shields res file :
  pinMapOk shields res → pinMapOk shields (pinConfigFile shields res file).
Proof.
  intros Hres. destruct file as [filename content]. unfold pinConfigFile. cbv zeta.
  assert (H0 : pinMapOk shields
                 match diodeMatch content with Some d => setDiode res d | None => res end)
    by (by destruct (diodeMatch content)).
  destruct (_ && _); [done|].
  assert (Hstep : ∀ (f : ParsedData → string → ParsedData) r,
            (∀ r s, s ∈ shields → pinMapOk shields r → pinMapOk shields (f r s)) →
            pinMapOk shields r →
            pinMapOk shields (fold_left f (targetSides shields filename) r)).
  { intros f r Hf Hr. apply fold_left_invariant; [|done].
    intros r' s Hs. apply Hf. by eapply targetSides_shields. }
  assert (H1 : pinMapOk shields
    (if isStandard content
     then fold_left (standardStep (extractGpioList content "row-gpios")
                       (extractGpioList content "col-gpios"))
            (targetSides shields filename)
            match diodeMatch content with Some d => setDiode res d | None => res end
     else match diodeMatch content with Some d => setDiode res d | None => res end)).
  { destruct (isStandard content); [|done]. apply Hstep; [|done].
    intros r s. apply standardStep_ok. }
  remember (if isStandard content then _ else _) as res1 eqn:E1. clear E1.
  assert (H2 : pinMapOk shields
    (if isCharlieMode content
     then fold_left (charlieStep (extractGpioList content "gpios")
                       (extractGpioList content "interrupt-gpios"))
            (targetSides shields filename) res1
     else res1)).
  { destruct (isCharlieMode content); [|done]. apply Hstep; [|done].
    intros r s. apply charlieStep_ok. }
  remember (if isCharlieMode content then _ else _) as res2 eqn:E2. clear E2.
  destruct (isDirectMode content); [|done]. apply Hstep; [|done].
  intros r s. apply directStep_ok.
Qed.

Lemma findAndParsePinConfig_ok shields rawFiles res :
  pinMapOk shields res → pinMapOk shields (findAndParsePinConfig shields rawFiles res).
Proof.
  intros Hres. unfold findAndParsePinConfig.
  apply fold_left_invariant; [|done]. intros r file _. apply pinConfigFile_ok.
Qed.

Lemma setOffset_ok shields res s n :
  s ∈ shields → pinMapOk shields res →
  pinMapOk shields (setColOffset res s n) ∧ pinMapOk shields (setRowOffset res s n).
Proof.
  intros Hs Hres. destruct (entryOf_ok shields res s Hres) as (Hrow & Hcol & Hgp & Hd).
  split; (apply setEntry_ok; [done| |done]); by repeat split.
Qed.

Lemma transformFile_ok shields res file :
  pinMapOk shields res → pinMapOk shields (transformFile shields res file).
Proof.
  intros Hres. destruct file as [filename content]. unfold transformFile. cbv zeta.
  assert (H1 : pinMapOk shields
    match fileMap content with
    | Some m => if bool_decide (length (matrixMap res) < length m)
                then setMatrixMap res (map Some m) else res
    | None => res
    end).
  { destruct (fileMap content); [|done]. by destruct (bool_decide _). }
  remember (match fileMap content with Some _ => _ | None => _ end) as res1 eqn:E1.
  clear E1.
  assert (H2 : pinMapOk shields
    match offsetMatch "col-offset" content with
    | Some n => if bool_decide (sideOf shields filename ≠ "common"%string)
                then setColOffset res1 (sideOf shields filename) n else res1
    | None => res1
    end).
  { destruct (offsetMatch "col-offset" content); [|done]. case_bool_decide; [|done].
    apply setOffset_ok; [by apply sideOf_shield|done]. }
  remember (match offsetMatch "col-offset" content with Some _ => _ | None => _ end)
    as res2 eqn:E2.
  clear E2.
  destruct (offsetMatch "row-offset" content); [|done]. case_bool_decide; [|done].
  apply setOffset_ok; [by apply sideOf_shield|done].
Qed.

Lemma findAndParseMatrixTransform_ok shields rawFiles res :
  pinMapOk shields res → pinMapOk shields (findAndParseMatrixTransform shields rawFiles res).
Proof.
  intros Hres. unfold findAndParseMatrixTransform.
  apply fold_left_invariant; [|done]. intros r file _. apply transformFile_ok.
Qed.

Lemma addShield_buildOk p entry : buildOk p → buildOk (addShield p entry).
Proof.
  intros Hp. unfold addShield. cbv zeta.
  destruct (_ && _ && negb (bool_decide (baseShieldOf entry ∈ shields p))) eqn:Hb;
    [|done].
  apply andb_true_iff in Hb as [_ Hnew].
  apply negb_true_iff, bool_decide_eq_false in Hnew.
  intros Hown. simpl in Hown. apply Forall_app in Hown as [Hown Hbase].
  rewrite Forall_singleton in Hbase. destruct (Hp Hown) as [Hkeys Hall].
  rewrite (bool_decide_false (is_Some _))
    by (rewrite obj_get_keys; by rewrite Hkeys).
  rewrite (bool_decide_false (_ ∈ inheritedNames)) by exact Hbase.
  split; simpl.
  - rewrite keys_obj_set_new by (by rewrite Hkeys). by rewrite Hkeys.
  - apply Forall_obj_set; [done|]. apply tablesOk_fresh.
Qed.

Lemma findAndParseBuildConfig_buildOk rawFiles :
  buildOk (findAndParseBuildConfig rawFiles initialResult).
Proof.
  unfold findAndParseBuildConfig. apply (fold_left_invariant buildOk); [|by split].
  intros p [name content] _ Hp. simpl. destruct (endsWith name "build.yaml"); [|done].
  apply fold_left_invariant; [|done]. intros p' line _ Hp'. unfold buildLine.
  destruct (shieldMatch line); [|done].
  apply fold_left_invariant; [|done]. intros p'' entry _. apply addShield_buildOk.
Qed.

Lemma parse_pinMapOk filesData :
  ownNames (shields (parse filesData)) →
  pinMapOk (shields (parse filesData)) (result (parse filesData)).
Proof.
  unfold parse. cbv zeta. simpl. intros Hown.
  apply findAndParsePinConfig_ok, findAndParseMatrixTransform_ok.
  by apply findAndParseBuildConfig_buildOk.
Qed.

Lemma exampleRepo_ownNames : ownNames (shields (parse exampleRepo)).
Proof.
  assert (Hs : shields (parse exampleRepo) = ["kb_left"; "kb_right"]%string)
    by (vm_compute; reflexivity).
  rewrite Hs. repeat constructor; refine (bool_decide_unpack _ _); vm_compute; exact I.
Qed.

Lemma exampleRepo_plainKeys :
  Forall (λ s, integerLike s = false) (shields (parse exampleRepo)).
Proof.
  assert (Hs : shields (parse exampleRepo) = ["kb_left"; "kb_right"]%string)
    by (vm_compute; reflexivity).
  rewrite Hs. repeat constructor.
Qed.

(** After [parse], when no shield has a name that every object inherits
    and none has an integer-like name, which an object would list before
    its other keys, the keys of [pinMap] are the shields of the build
    configuration, in the order of their first mention: they are distinct,
    and only shields of the build can be valid shields. *)
Theorem parse_pinMap_keys (filesData : list (string * string)) :
  ownNames (shields (parse filesData)) →
  Forall (λ s, integerLike s = false) (shields (parse filesData)) →
  map fst (pinMap (result (parse filesData))) = shields (parse filesData)
  ∧ NoDup (map fst (pinMap (result (parse filesData))))
  ∧ validShields (result (parse filesData)) ⊆ shields (parse filesData).
Proof.
  intros Hown _. destruct (parse_pinMapOk filesData Hown) as [Hkeys _].
  split; [done|]. split.
  - rewrite Hkeys. unfold parse. cbv zeta. simpl. apply findAndParseBuildConfig_ok.
  - intros s Hs. unfold validShields in Hs. apply list_elem_of_filter in Hs as [_ Hs].
    by rewrite Hkeys in Hs.
Qed.

Lemma parse_pinMap_keys_witness :
  map fst (pinMap (result (parse exampleRepo))) = shields (parse exampleRepo)
  ∧ NoDup (map fst (pinMap (result (parse exampleRepo))))
  ∧ validShields (result (parse exampleRepo)) ⊆ shields (parse exampleRepo).
Proof.
  apply (parse_pinMap_keys exampleRepo); [apply exampleRepo_ownNames|].
  apply exampleRepo_plainKeys.
Defined.

(** After [parse], when no shield has a name that every object inherits,
    every entry of [pinMap] has a [row] and a [col] table, and has a [gpios]
    or a [direct] table only with pins in it: on parsed data a table that
    is present is not empty. *)
Theorem parse_tables (filesData : list (string * string)) :
  ownNames (shields (parse filesData)) →
  Forall (λ e, tablesOk e.2) (pinMap (result (parse filesData))).
Proof. intros Hown. by apply parse_pinMapOk. Qed.

Lemma parse_tables_witness :
  Forall (λ e, tablesOk e.2) (pinMap (result (parse exampleRepo))).
Proof. apply (parse_tables exampleRepo), exampleRepo_ownNames. Defined.

(** ** The matrix map *)

Lemma transformFile_matrixMap shields res file :
  matrixMap (transformFile shields res file)
  = match fileMap file.2 with
    | Some m =>
        if bool_decide (length (matrixMap res) < length m) then map Some m
        else matrixMap res
    | None => matrixMap res
    end.
Proof.
  destruct file as [filename content]. unfold transformFile. cbv zeta. simpl.
  destruct (offsetMatch "row-offset" content) as [n|];
    [destruct (bool_decide (sideOf shields filename ≠ "common"%string))|];
    (destruct (offsetMatch "col-offset" content) as [n'|];
      [destruct (bool_decide (sideOf shields filename ≠ "common"%string))|]);
    simpl; destruct (fileMap content) as [m|]; try done;
    by destruct (bool_decide (length (matrixMap res) < length m)).
Qed.

Lemma findAndParseMatrixTransform_matrixMap shields rawFiles res :
  let mm := matrixMap (findAndParseMatrixTransform shields rawFiles res) in
  (Forall is_Some (matrixMap res) → Forall is_Some mm)
  ∧ length (matrixMap res) ≤ length mm
  ∧ Forall (λ file, ∀ m, fileMap file.2 = Some m → length m ≤ length mm) rawFiles
  ∧ (mm = matrixMap res
     ∨ ∃ file m, file ∈ rawFiles ∧ fileMap file.2 = Some m ∧ mm = map Some m).
Proof.
  unfold findAndParseMatrixTransform. revert res.
  induction rawFiles as [|file files IH]; intros res; simpl.
  - split; [done|]. split; [done|]. split; [done|]. by left.
  - destruct (IH (transformFile shields res file)) as (Hsome & Hlen & Hall & Hfrom).
    rewrite transformFile_matrixMap in Hsome, Hlen, Hfrom.
    split; [|split; [|split]].
    + intros Hres. apply Hsome. destruct (fileMap file.2) as [m|]; [|done].
      case_bool_decide; [|done]. apply Forall_forall. by intros ? (? & -> & _)%list_elem_of_fmap.
    + destruct (fileMap file.2) as [m|]; [|done]. case_bool_decide; [|done].
      rewrite length_map in Hlen. lia.
    + constructor; [|done]. intros m Hm. rewrite Hm in Hlen.
      case_bool_decide; [by rewrite length_map in Hlen|lia].
    + destruct Hfrom as [Heq|(file' & m & Hin & Hm & Heq)].
      * destruct (fileMap file.2) as [m|] eqn:Hm; [|by left].
        case_bool_decide; [|by left]. right. exists file, m. split; [left|done].
      * right. exists file', m. split; [by right|done].
Qed.

Lemma setEntry_matrixMap res s p : matrixMap (setEntry res s p) = matrixMap res.
Proof. done. Qed.

Lemma findAndParseBuildConfig_matrixMap rawFiles res :
  matrixMap (result (findAndParseBuildConfig rawFiles res)) = matrixMap res.
Proof.
  unfold findAndParseBuildConfig.
  apply (fold_left_invariant (λ p, matrixMap (result p) = matrixMap res)); [|done].
  intros p [name content] _ Hp. simpl. destruct (endsWith name "build.yaml"); [|done].
  apply fold_left_invariant; [|done]. intros p' line _ Hp'. unfold buildLine.
  destruct (shieldMatch line); [|done].
  apply fold_left_invariant; [|done]. intros p'' entry _ Hp''. unfold addShield. cbv zeta.
  destruct (_ && _ && _); [|done]. simpl. by destruct (_ || _).
Qed.

Lemma findAndParsePinConfig_matrixMap shields rawFiles res :
  matrixMap (findAndParsePinConfig shields rawFiles res) = matrixMap res.
Proof.
  unfold findAndParsePinConfig.
  apply (fold_left_invariant (λ r, matrixMap r = matrixMap res)); [|done].
  intros r [filename content] _ Hr. unfold pinConfigFile. cbv zeta.
  assert (Hfold : ∀ (f : ParsedData → string → ParsedData) l r0,
            (∀ r1 s, matrixMap (f r1 s) = matrixMap r1) →
            matrixMap (fold_left f l r0) = matrixMap r0).
  { intros f l r0 Hf. apply (fold_left_invariant (λ r1, matrixMap r1 = matrixMap r0)); [|done].
    intros r1 s _. by rewrite Hf. }
  assert (H0 : matrixMap match diodeMatch content with Some d => setDiode r d | None => r end
               = matrixMap res) by (by destruct (diodeMatch content)).
  destruct (_ && _); [done|].
  destruct (isDirectMode content);
    [rewrite Hfold by (intros r1 s; unfold directStep; cbv zeta; by destruct (bool_decide _))|];
    (destruct (isCharlieMode content);
      [rewrite Hfold by (intros r1 s; unfold charlieStep; cbv zeta; by destruct (bool_decide _))|]);
    (destruct (isStandard content); [rewrite Hfold by done|]); done.
Qed.

(** The matrix map after [parse] has no missing entry; it is as long as the
    longest map of a file, and it is the map of one of the files unless it
    is empty. *)
Theorem parse_matrixMap (filesData : list (string * string)) :
  Forall is_Some (parsedMap filesData)
  ∧ Forall (λ file, ∀ m, mapOf file = Some m → length m ≤ length (parsedMap filesData))
      filesData
  ∧ (parsedMap filesData = []
     ∨ ∃ file m, file ∈ filesData ∧ mapOf file = Some m ∧ parsedMap filesData = map Some m).
Proof.
  unfold parsedMap, mapOf, parse. cbv zeta. simpl.
  rewrite findAndParsePinConfig_matrixMap.
  set (rawFiles := map (λ file, (file.1, stripComments file.2)) filesData).
  destruct (findAndParseMatrixTransform_matrixMap
              (shields (findAndParseBuildConfig rawFiles initialResult)) rawFiles
              (result (findAndParseBuildConfig rawFiles initialResult)))
    as (Hsome & _ & Hall & Hfrom).
  rewrite findAndParseBuildConfig_matrixMap in Hsome, Hfrom. simpl in Hsome, Hfrom.
  split; [by apply Hsome|]. split.
  - apply Forall_forall. intros file Hin m Hm.
    apply (proj1 (Forall_forall _ _) Hall (file.1, stripComments file.2)); [|done].
    apply list_elem_of_fmap. by exists file.
  - destruct Hfrom as [Heq|(file' & m & Hin & Hm & Heq)]; [by left|]. right.
    apply list_elem_of_fmap in Hin as (file & -> & Hin). by exists file, m.
Qed.

(** ** A repository without build configuration *)

Lemma findAndParseBuildConfig_none rawFiles res :
  Forall (λ file, endsWith file.1 "build.yaml" = false) rawFiles →
  findAndParseBuildConfig rawFiles res = {| shields := []; result := res |}.
Proof.
  unfold findAndParseBuildConfig. generalize {| shields := []; result := res |}.
  induction 1 as [|[name content] files Hfile Hfiles IH]; [done|].
  simpl in *. by rewrite Hfile.
Qed.

(** Without a file named [build.yaml] the parser finds no shield and makes
    no [pinMap] entry, whatever the other files hold, and the localiser
    reports nothing. *)
Theorem parse_without_build (filesData : list (string * string)) (sel : list nat) :
  Forall (λ file, endsWith file.1 "build.yaml" = false) filesData →
  shields (parse filesData) = []
  ∧ pinMap (result (parse filesData)) = []
  ∧ analyzeFailures (result (parse filesData)) sel = [].
Proof.
  intros Hno.
  assert (Hshields : shields (parse filesData) = []).
  { unfold parse. cbv zeta. simpl. rewrite findAndParseBuildConfig_none; [done|].
    apply Forall_fmap. by eapply Forall_impl. }
  assert (Hown : ownNames (shields (parse filesData)))
    by (rewrite Hshields; apply Forall_nil_2).
  destruct (parse_pinMapOk filesData Hown) as [Hkeys _]. rewrite Hshields in Hkeys.
  apply fmap_nil_inv in Hkeys.
  split; [done|]. split; [done|].
  unfold analyzeFailures, validShields. cbv zeta. by rewrite Hkeys.
Qed.

Lemma parse_without_build_witness :
  shields (parse [charlieOverlay; matrixOverlay]) = []
  ∧ pinMap (result (parse [charlieOverlay; matrixOverlay])) = []
  ∧ analyzeFailures (result (parse [charlieOverlay; matrixOverlay])) [0; 1] = [].
Proof.
  apply (parse_without_build [charlieOverlay; matrixOverlay] [0; 1]).
  repeat constructor.
Defined.

(** * The colours of a diagnosis *)

Lemma colorKey_fold color l mapping k :
  fold_left (colorKey color) l mapping !! k
  = match mapping !! k with
    | Some c => Some c
    | None => if decide (k ∈ l) then Some color else None
    end.
Proof.
  revert mapping. induction l as [|x l IH]; intros mapping; simpl.
  - by destruct (mapping !! k).
  - rewrite IH. unfold colorKey. case_bool_decide as Hx.
    + destruct (mapping !! k) eqn:Hk; [done|].
      assert (x ≠ k) by (intros ->; rewrite Hk in Hx; by destruct Hx).
      destruct (decide (k ∈ l)) as [Hin|Hin].
      * rewrite decide_True; [done|by right].
      * rewrite decide_False; [done|]. intros [?|?]%elem_of_cons; by simplify_eq.
    + destruct (decide (x = k)) as [->|Hne].
      * rewrite lookup_insert_eq.
        destruct (mapping !! k) eqn:Hk; [destruct Hx; by eexists|].
        rewrite decide_True; [done|left].
      * rewrite lookup_insert_ne by done. destruct (mapping !! k); [done|].
        destruct (decide (k ∈ l)) as [Hin|Hin].
        -- rewrite decide_True; [done|by right].
        -- rewrite decide_False; [done|]. intros [?|?]%elem_of_cons; by simplify_eq.
Qed.

Lemma colorReports_from n failures mapping k :
  fold_left colorReport (zip (seq n (length failures)) failures) mapping !! k
  = match mapping !! k with
    | Some c => Some c
    | None => (λ item, colorOf (n + item.1)) <$> firstListing k failures
    end.
Proof.
  revert n mapping. induction failures as [|f failures IH]; intros n mapping; simpl.
  - by destruct (mapping !! k).
  - rewrite IH. unfold colorReport. simpl. rewrite colorKey_fold.
    destruct (mapping !! k) as [c|]; [done|].
    unfold firstListing. simpl.
    destruct (decide (k ∈ indices f)) as [Hin|Hin]; simpl.
    + by rewrite Nat.add_0_r.
    + destruct (list_find _ failures) as [[i f']|]; simpl; [|done].
      f_equal. f_equal. lia.
Qed.

Lemma colorReports_lookup (failures : list Report) (k : nat) :
  colorReports failures ∅ !! k = (λ item, colorOf item.1) <$> firstListing k failures.
Proof. unfold colorReports. by rewrite colorReports_from, lookup_empty. Qed.

(** After a diagnosis a key has a colour exactly when some report lists it,
    and the colour is that of the first such report: the colours go round
    the palette in the order of the reports. *)
Theorem colorReports_first (failures : list Report) (k : nat) :
  colorReports failures ∅ !! k = (λ item, colorOf item.1) <$> firstListing k failures.
Proof. apply colorReports_lookup. Qed.

(** On a board with a valid shield, the diagnosis colours a failing key
    exactly when the key has a matrix entry. *)
Theorem diagnosis_colours_failing_keys (pd : ParsedData) (sel : list nat) (idx : nat) :
  validShields pd ≠ [] → idx ∈ sel →
  is_Some (colorReports (analyzeFailures pd sel) ∅ !! idx) ↔ hasEntry pd idx.
Proof.
  intros Hvalid Hin. rewrite colorReports_lookup, fmap_is_Some. unfold firstListing. split.
  - intros [[i rep] Hfind]. apply list_find_Some in Hfind as (Hi & Hidx & _).
    apply list_elem_of_lookup_2 in Hi.
    destruct (proj1 (Forall_forall _ _) (reports_own_keys pd sel) rep Hi) as [_ Hown].
    destruct (Hown idx Hidx) as (m & Hm & _). by exists m.
  - intros Hentry.
    destruct (failing_key_reported pd sel idx Hvalid Hin Hentry) as (rep & Hrep & Hidx).
    apply (list_find_elem_of (λ f, idx ∈ indices f) _ rep); done.
Qed.

Lemma diagnosis_colours_failing_keys_witness :
  is_Some (colorReports (analyzeFailures splitBoard [0; 4]) ∅ !! 0) ↔ hasEntry splitBoard 0.
Proof.
  apply (diagnosis_colours_failing_keys splitBoard [0; 4] 0).
  - by vm_compute.
  - left.
Defined.

(** * The page between two diagnoses *)




(** * The database template *)

Lemma obj_get_obj_set {V} (o : list (string * V)) k v k' :
  obj_get (obj_set o k v) k' = if decide (k = k') then Some v else obj_get o k'.
Proof.
  induction o as [|[k0 v0] o IH]; simpl.
  - done.
  - destruct (decide (k0 = k)) as [->|Hne]; simpl.
    + by destruct (decide (k = k')).
    + rewrite IH. destruct (decide (k0 = k')) as [->|Hne']; [|done].
      by rewrite decide_False.
Qed.

Lemma addPin_keeps shieldName blank entries p key :
  is_Some (obj_get entries key) → is_Some (obj_get (addPin shieldName blank entries p) key).
Proof.
  intros Hkey. unfold addPin. destruct (_ || _); [done|].
  rewrite obj_get_obj_set. by destruct (decide _).
Qed.

Lemma addPin_adds shieldName blank entries p :
  getPinKey shieldName p ∉ inheritedNames →
  is_Some (obj_get (addPin shieldName blank entries p) (getPinKey shieldName p)).
Proof.
  intros Hown. unfold addPin. rewrite (bool_decide_false (_ ∈ inheritedNames)) by done.
  rewrite orb_false_r. case_bool_decide as Hget; [done|].
  rewrite obj_get_obj_set, decide_True by done. by eexists.
Qed.

Lemma addPin_fold_keeps shieldName blank l entries key :
  is_Some (obj_get entries key) →
  is_Some (obj_get (fold_left (addPin shieldName blank) l entries) key).
Proof.
  intros Hkey. apply (fold_left_invariant (λ e, is_Some (obj_get e key))); [|done].
  intros e p _. apply addPin_keeps.
Qed.

Lemma addPin_fold_adds shieldName blank l entries p :
  getPinKey shieldName p ∉ inheritedNames → p ∈ l →
  is_Some (obj_get (fold_left (addPin shieldName blank) l entries) (getPinKey shieldName p)).
Proof.
  intros Hown. revert entries.
  induction l as [|x l IH]; intros entries Hin; [by apply elem_of_nil in Hin|].
  simpl. apply elem_of_cons in Hin as [->|Hin]; [|by apply IH].
  by apply addPin_fold_keeps, addPin_adds.
Qed.

Lemma addTable_keeps shieldName table entries key :
  is_Some (obj_get entries key) → is_Some (obj_get (addTable shieldName table entries) key).
Proof. destruct table; [apply addPin_fold_keeps|done]. Qed.

Lemma elem_of_Object_values {V} (o : gmap nat V) k v : o !! k = Some v → v ∈ Object_values o.
Proof.
  intros Hk. unfold Object_values. apply list_elem_of_omap. exists k. split; [|done].
  apply elem_of_Object_keys. by exists v.
Qed.

Lemma addTable_adds shieldName o entries k p :
  getPinKey shieldName p ∉ inheritedNames → o !! k = Some p →
  is_Some (obj_get (addTable shieldName (Some o) entries) (getPinKey shieldName p)).
Proof.
  intros Hown Hk. simpl. apply addPin_fold_adds; [done|].
  eapply elem_of_Object_values, Hk.
Qed.

Lemma templateShield_keeps pd entries s key :
  is_Some (obj_get entries key) → is_Some (obj_get (templateShield pd entries s) key).
Proof.
  intros Hkey. unfold templateShield. destruct (obj_get (pinMap pd) s) as [pm|]; [|done].
  cbv zeta.
  assert (H4 : is_Some (obj_get
            (addTable s (direct pm) (addTable s (gpios pm) (addTable s (col pm)
               (addTable s (row pm) entries)))) key))
    by (by do 4 apply addTable_keeps).
  destruct (interrupt pm) as [p|]; [|done]. case_bool_decide; [|done].
  by apply addPin_keeps.
Qed.

Lemma templateShield_adds pd entries s pm p :
  getPinKey s p ∉ inheritedNames → obj_get (pinMap pd) s = Some pm → pinOf pm p →
  is_Some (obj_get (templateShield pd entries s) (getPinKey s p)).
Proof.
  intros Hown Hpm Hp. unfold templateShield. rewrite Hpm. cbv zeta.
  destruct Hp as [(o & k & Htable & Hk)|[Hint Hne]].
  - assert (H4 : is_Some (obj_get
              (addTable s (direct pm) (addTable s (gpios pm) (addTable s (col pm)
                 (addTable s (row pm) entries)))) (getPinKey s p))).
    { destruct Htable as [Ht|[Ht|[Ht|Ht]]]; rewrite Ht.
      - do 3 apply addTable_keeps. by eapply addTable_adds.
      - do 2 apply addTable_keeps. by eapply addTable_adds.
      - apply addTable_keeps. by eapply addTable_adds.
      - by eapply addTable_adds. }
    destruct (interrupt pm) as [p'|]; [|done]. case_bool_decide; [|done].
    by apply addPin_keeps.
  - rewrite Hint, bool_decide_true by done. by apply addPin_adds.
Qed.

Lemma template_has_pin pd s pm p :
  getPinKey s p ∉ inheritedNames → obj_get (pinMap pd) s = Some pm → pinOf pm p →
  is_Some (pinEntry (Some (generateDatabaseTemplate pd)) (getPinKey s p)).
Proof.
  intros Hown Hpm Hp. simpl.
  assert (Hs : s ∈ map fst (pinMap pd)) by (apply obj_get_keys; by eexists).
  generalize (@nil (string * PinInfo)). revert Hs. generalize (map fst (pinMap pd)).
  induction l as [|s' l IH]; intros Hs entries; [by apply elem_of_nil in Hs|].
  simpl. apply elem_of_cons in Hs as [<-|Hs]; [|by apply IH].
  apply (fold_left_invariant (λ e, is_Some (obj_get e (getPinKey s p)))).
  - intros e s' _. apply templateShield_keeps.
  - by eapply templateShield_adds.
Qed.

Lemma template_has_key pd idx m :
  entryAt pd idx = Some m →
  is_Some (getKeyInfo (Some (generateDatabaseTemplate pd)) (r m) (c m)).
Proof.
  intros Hm. simpl.
  set (k := {| matrix := (r m, c m); silk_sw := EmptyString; silk_d := EmptyString |}).
  assert (Hin : k ∈ filter (λ k, (matrix k).1 = r m ∧ (matrix k).2 = c m)
                  (omap (λ om : option MatrixEntry,
                           match om with
                           | Some m => Some {| matrix := (r m, c m); silk_sw := EmptyString;
                                               silk_d := EmptyString |}
                           | None => None
                           end) (matrixMap pd))).
  { apply list_elem_of_filter. split; [done|]. apply list_elem_of_omap. exists (Some m).
    split; [|done]. unfold entryAt in Hm.
    destruct (matrixMap pd !! idx) as [om|] eqn:Hidx; [|done]. simpl in Hm. subst om.
    by eapply list_elem_of_lookup_2. }
  destruct (filter _ _) as [|k' l]; [by apply elem_of_nil in Hin|]. by eexists.
Qed.

(** Where a report comes from: its shield's entry, and the pass that pushed
    it. *)
Lemma report_cases pd sel rep :
  rep ∈ analyzeFailures pd sel →
  ∃ pMap, obj_get (pinMap pd) (reportSide rep) = Some pMap
    ∧ ((∃ pin l, interrupt pMap = Some pin ∧ pin ≠ EmptyString
                 ∧ rep = RInterrupt (reportSide rep) pin l)
       ∨ (∃ gp pIdx role l, gpios pMap = Some gp
            ∧ rep = RCharlie (reportSide rep) pIdx (pinOrUnknown gp pIdx) role l)
       ∨ (∃ d, direct pMap = Some d
            ∧ ((∃ l, rep = RDirectGnd (reportSide rep) l)
               ∨ ∃ idx, idx ∈ keysWhere pd (directTest (reportSide rep) d)
                        ∧ rep = directOf pd (reportSide rep) d idx))
       ∨ (∃ k l, rep = RRow (reportSide rep) k (linePin (row pMap) k) l
                 ∨ rep = RCol (reportSide rep) k (linePin (col pMap) k) l)
       ∨ (∃ idx m, entryAt pd idx = Some m
            ∧ rep = RSingle (reportSide rep) (r m) (c m) idx [idx])).
Proof.
  intros [Hs Hrep]%elem_of_analyzeFailures.
  destruct (validShields_pinMap pd _ Hs) as (pMap & Hp & _). exists pMap. split; [done|].
  rewrite (sideReports_eq pd sel _ Hs), (lineReports_eq pd sel _ pMap Hp) in Hrep.
  rewrite !elem_of_app in Hrep. destruct Hrep as [[Hrep|Hrep]|Hrep].
  - left. rewrite interruptPass_report in Hrep.
    destruct (interrupt pMap) as [pin|]; [|by apply elem_of_nil in Hrep].
    destruct (bool_decide (pin ≠ EmptyString)) eqn:Hpin; simpl in Hrep;
      [|by apply elem_of_nil in Hrep].
    destruct (_ && _); [|by apply elem_of_nil in Hrep].
    apply list_elem_of_singleton in Hrep. apply bool_decide_eq_true in Hpin.
    exists pin, (keysWhere pd (onSide (reportSide rep))). split; [done|]. split; [done|].
    rewrite Hrep at 1. by rewrite Hrep.
  - right. unfold wiringPass in Hrep. destruct (gpios pMap) as [gp|] eqn:Hgp.
    + left. apply charliePass_reports in Hrep as (pIdx & _ & Heq);
        [|done|by eapply hasGpios_of].
      by eexists gp, pIdx, _, _.
    + right. destruct (direct pMap) as [d|].
      * left. exists d. split; [done|]. rewrite directPass_report in Hrep.
        destruct (_ && _).
        -- left. apply list_elem_of_singleton in Hrep. by eexists.
        -- right. apply list_elem_of_fmap in Hrep as (idx & Heq & Hin).
           exists idx. split; [|done]. by apply elem_of_thoseSelected in Hin as [_ ?].
      * right. left. apply standardPass_reports in Hrep as [(k & _ & Heq)|(k & _ & Heq)];
          [| |done]; eexists k, _; [left|right]; done.
  - right. right. right. right.
    apply elem_of_singlesOf in Hrep as (idx & m & _ & _ & Hm & _ & Heq). by exists idx, m.
Qed.

Lemma pinOrUnknown_known o k pin :
  pinOrUnknown o k = pin → pin ≠ "Unknown"%string → o !! k = Some pin.
Proof.
  unfold pinOrUnknown. destruct (o !! k) as [p|]; [|by intros <-].
  case_bool_decide; [by intros <-|]. by intros ->.
Qed.

Lemma report_pinOf pd sel rep pin :
  rep ∈ analyzeFailures pd sel → reportPin rep = Some pin → pin ≠ "Unknown"%string →
  ∃ pMap, obj_get (pinMap pd) (reportSide rep) = Some pMap ∧ pinOf pMap pin.
Proof.
  intros Hrep Hpin Hknown.
  destruct (report_cases pd sel rep Hrep) as (pMap & Hp & Hcases).
  exists pMap. split; [done|].
  destruct Hcases as [(pin' & l & Hint & Hne & Heq)
    |[(gp & pIdx & role & l & Hgp & Heq)
    |[(d & Hd & [[l Heq]|(idx & Hidx & Heq)])
    |[(k & l & [Heq|Heq])|(idx & m & _ & Heq)]]]];
    rewrite Heq in Hpin; simpl in Hpin.
  - right. by simplify_eq.
  - left. exists gp, pIdx. split; [tauto|]. apply pinOrUnknown_known; [congruence|done].
  - done.
  - left.
    exists d, (physC (getSideAndPhysCoords pd (entryAt pd idx))). split; [tauto|].
    apply pinOrUnknown_known; [congruence|done].
  - left. unfold linePin in Hpin. destruct (row pMap) as [o|] eqn:Hrow; [|congruence].
    exists o, k. split; [tauto|done].
  - left. unfold linePin in Hpin. destruct (col pMap) as [o|] eqn:Hcol; [|congruence].
    exists o, k. split; [tauto|done].
  - done.
Qed.

(** The template has an entry for every pin that a report can name, under
    the key that [getPinInfo] tries first: with a database made from the
    template, the pin of a report is found by its shield-specific key,
    unless that key is a name that every object inherits. A report names
    the pin [Unknown] when its table has none. *)
Theorem template_covers_report_pins (pd : ParsedData) (sel : list nat) (rep : Report)
    (pin : string) :
  rep ∈ analyzeFailures pd sel → reportPin rep = Some pin → pin ≠ "Unknown"%string →
  reportSide rep +:+ "_" +:+ pin ∉ inheritedNames →
  ∃ info,
    pinEntry (Some (generateDatabaseTemplate pd)) (reportSide rep +:+ "_" +:+ pin) = Some info
    ∧ getPinInfo (Some (generateDatabaseTemplate pd)) (reportSide rep) (Some pin) = info.
Proof.
  intros Hrep Hpin Hknown Hown.
  destruct (report_pinOf pd sel rep pin Hrep Hpin Hknown) as (pMap & Hp & Hof).
  destruct (template_has_pin pd _ pMap pin Hown Hp Hof) as [info Hinfo].
  exists info. split; [done|]. unfold getPinInfo. cbv zeta.
  unfold getPinKey in Hinfo. unfold printed. simpl default. by rewrite Hinfo.
Qed.

Lemma template_covers_report_pins_witness :
  ∃ info,
    pinEntry (Some (generateDatabaseTemplate charlieBoard))
      (reportSide (RInterrupt "pad" "gpio0 9" [0; 1; 2; 3; 4; 5]) +:+ "_" +:+ "gpio0 9")
    = Some info
    ∧ getPinInfo (Some (generateDatabaseTemplate charlieBoard))
        (reportSide (RInterrupt "pad" "gpio0 9" [0; 1; 2; 3; 4; 5])) (Some "gpio0 9"%string)
      = info.
Proof.
  apply (template_covers_report_pins charlieBoard [0; 1; 2; 3; 4; 5]
           (RInterrupt "pad" "gpio0 9" [0; 1; 2; 3; 4; 5]) "gpio0 9").
  - apply (list_elem_of_lookup_2 _ 0). vm_compute. reflexivity.
  - reflexivity.
  - discriminate.
  - refine (bool_decide_unpack _ _). vm_compute. exact I.
Defined.

(** A [direct] report lists one key, which has a matrix entry, so that
    [diagnose] reads the coordinates of a defined entry; and the template
    has a key for the coordinates of every [direct] and [single] report. *)
Theorem template_covers_report_keys (pd : ParsedData) (sel : list nat) :
  Forall (keyLookedUp pd (Some (generateDatabaseTemplate pd))) (analyzeFailures pd sel).
Proof.
  apply Forall_forall. intros rep Hrep.
  destruct (report_cases pd sel rep Hrep) as (pMap & Hp & Hcases).
  destruct Hcases as [(pin' & l & Hint & Hne & Heq)
    |[(gp & pIdx & role & l & Hgp & Heq)
    |[(d & Hd & [[l Heq]|(idx & Hidx & Heq)])
    |[(k & l & [Heq|Heq])|(idx & m & Hm & Heq)]]]];
    rewrite Heq; try done.
  - unfold directOf. simpl.
    apply elem_of_keysWhere in Hidx as (m & Hm & _). exists idx, m.
    split; [done|]. split; [done|]. by eapply template_has_key.
  - simpl. by eapply template_has_key.
Qed.

(** * The pins of a list *)

Lemma tokensOf_tokens cur s t :
  Forall (λ ch, isDelimiter ch = false) (chars cur) → t ∈ tokensOf cur s →
  t ≠ EmptyString ∧ Forall (λ ch, isDelimiter ch = false) (chars t).
Proof.
  revert cur. induction s as [|ch s IH]; intros cur Hcur Ht; simpl in Ht.
  - case_bool_decide as Hempty; [by apply elem_of_nil in Ht|].
    by apply list_elem_of_singleton in Ht as ->.
  - destruct (isDelimiter ch) eqn:Hd.
    + case_bool_decide as Hempty; [by apply (IH EmptyString)|].
      apply elem_of_cons in Ht as [->|Ht]; [done|]. by apply (IH EmptyString).
    + apply (IH (cur +:+ String ch EmptyString)); [|done].
      rewrite chars_app. apply Forall_app. split; [done|]. by repeat constructor.
Qed.

Lemma pinsOf_cons_amp name rest :
  pinsOf (String "&"%char name :: rest)
  = (name +:+ " " +:+ default "undefined"%string (head rest)) :: pinsOf rest.
Proof. reflexivity. Qed.

Lemma pinsOf_cons_other t rest :
  (∀ name, t ≠ String "&"%char name) → pinsOf (t :: rest) = pinsOf rest.
Proof.
  intros Hne. destruct t as [|ch name]; [done|].
  destruct (decide (ch = "&"%char)) as [->|Hch]; [by destruct (Hne name)|].
  destruct ch as [[] [] [] [] [] [] [] []]; try done.
Qed.

Lemma pinsOf_pins tokens pin :
  pin ∈ pinsOf tokens →
  ∃ name next, pin = name +:+ " " +:+ next
    ∧ String "&"%char name ∈ tokens ∧ (next ∈ tokens ∨ next = "undefined"%string).
Proof.
  induction tokens as [|t rest IH]; intros Hpin; [by apply elem_of_nil in Hpin|].
  destruct (startsWith_dec "&"%char t) as [[name ->]|Hne].
  - rewrite pinsOf_cons_amp in Hpin. apply elem_of_cons in Hpin as [->|Hpin].
    + exists name, (default "undefined"%string (head rest)). split; [done|].
      split; [left|]. destruct rest as [|next rest]; [by right|]. left. right. left.
    + destruct (IH Hpin) as (name' & next & -> & Hin & Hnext).
      exists name', next. split; [done|]. split; [by right|].
      destruct Hnext; [left; by right|by right].
  - rewrite pinsOf_cons_other in Hpin by done.
    destruct (IH Hpin) as (name' & next & -> & Hin & Hnext).
    exists name', next. split; [done|]. split; [by right|].
    destruct Hnext; [left; by right|by right].
Qed.

(** Every pin that [extractGpioList] gives is a phandle and a pin number
    joined by one blank: neither part has white space, a comma or an angle
    bracket, and the number is not empty (it reads [undefined] when the list
    ends after a phandle). *)
Theorem extractGpioList_pins (content propName : string) :
  Forall (λ pin, ∃ phandle pinNum,
            pin = phandle +:+ " " +:+ pinNum
            ∧ pinNum ≠ EmptyString
            ∧ Forall (λ ch, isDelimiter ch = false) (chars phandle ++ chars pinNum))
    (extractGpioList content propName).
Proof.
  apply Forall_forall. intros pin Hpin. unfold extractGpioList in Hpin.
  destruct (propertyAssign propName content) as [rest|]; [|by apply elem_of_nil in Hpin].
  destruct (upTo "<"%char rest) as [[skipped afterOpen]|]; [|by apply elem_of_nil in Hpin].
  destruct (upTo ";"%char afterOpen) as [[inner after]|]; [|by apply elem_of_nil in Hpin].
  apply pinsOf_pins in Hpin as (name & next & -> & Hname & Hnext).
  exists name, next. split; [done|].
  apply tokensOf_tokens in Hname as [_ Hname]; [|done].
  apply Forall_cons in Hname as [_ Hname].
  destruct Hnext as [Hnext| ->].
  - apply tokensOf_tokens in Hnext as [Hne Hnext]; [|done].
    split; [done|]. by apply Forall_app.
  - split; [done|]. apply Forall_app. split; [done|]. by repeat constructor.
Qed.

(** * Reports and their keys *)

Lemma majority_pos count total : majority count total = true → 0 < count.
Proof.
  unfold majority. rewrite andb_true_iff, !bool_decide_eq_true. lia.
Qed.

Lemma nonempty_of_length {A} (l : list A) : 0 < length l → l ≠ [].
Proof. destruct l; simpl; [lia|done]. Qed.

Lemma roleTest_weaken s pIdx (inFail outFail : bool) p :
  (inFail = true ∧ roleTest s role_in pIdx p = true)
  ∨ (inFail = false ∧ outFail = true ∧ roleTest s role_out pIdx p = true) →
  roleTest s (roleOf inFail outFail) pIdx p = true.
Proof.
  unfold roleTest, roleOf.
  intros [[-> Hp]|(-> & -> & Hp)]; [|done].
  apply andb_true_iff in Hp as [Hside Hrow]. rewrite Hside. simpl.
  destruct outFail; simpl; [|done]. by rewrite Hrow.
Qed.

(** Every report lists at least one key. *)
Theorem analyzeFailures_reports_list_keys (pd : ParsedData) (sel : list nat) :
  Forall (λ rep, indices rep ≠ []) (analyzeFailures pd sel).
Proof.
  apply Forall_forall. intros rep [Hs Hrep]%elem_of_analyzeFailures.
  destruct (validShields_pinMap pd _ Hs) as (pMap & Hp & _).
  rewrite (sideReports_eq pd sel _ Hs), (lineReports_eq pd sel _ pMap Hp) in Hrep.
  rewrite !elem_of_app in Hrep. destruct Hrep as [[Hrep|Hrep]|Hrep].
  - rewrite interruptPass_report in Hrep.
    destruct (interrupt pMap) as [pin|]; [|by apply elem_of_nil in Hrep].
    destruct (bool_decide (pin ≠ EmptyString)); simpl in Hrep;
      [|by apply elem_of_nil in Hrep].
    destruct (bool_decide (5 < _)) eqn:H5; simpl in Hrep; [|by apply elem_of_nil in Hrep].
    destruct (nearlyAll _ _); [|by apply elem_of_nil in Hrep].
    apply list_elem_of_singleton in Hrep. rewrite Hrep. simpl.
    apply bool_decide_eq_true in H5. apply nonempty_of_length. lia.
  - unfold wiringPass in Hrep. destruct (gpios pMap) as [gp|] eqn:Hgp.
    + apply charliePass_reports in Hrep as (pIdx & Hfail & Heq);
        [|done|by eapply hasGpios_of].
      cbv zeta in Hfail, Heq. rewrite Heq. simpl.
      set (s := reportSide rep) in *.
      remember (majority (length (keysOf pd (rowTest s pIdx) sel))
                  (length (keysWhere pd (rowTest s pIdx)))) as inFail eqn:Hin.
      remember (majority (length (keysOf pd (colTest s pIdx) sel))
                  (length (keysWhere pd (colTest s pIdx)))) as outFail eqn:Hout.
      assert (Hkey : ∃ idx, idx ∈ thoseSelected sel
                (keysWhere pd (roleTest s (roleOf inFail outFail) pIdx))).
      { destruct inFail.
        - symmetry in Hin. apply majority_pos in Hin.
          destruct (keysOf pd (rowTest s pIdx) sel) as [|idx l] eqn:Hl;
            [simpl in Hin; lia|].
          assert (Hidx : idx ∈ keysOf pd (rowTest s pIdx) sel) by (rewrite Hl; left).
          apply elem_of_keysOf in Hidx as (Hsel & m & Hm & Htest).
          exists idx. apply elem_of_thoseSelected. split; [done|].
          apply elem_of_keysWhere. exists m. split; [done|].
          apply roleTest_weaken. by left.
        - simpl in Hfail. rewrite Hfail in Hout |- *. symmetry in Hout.
          apply majority_pos in Hout.
          destruct (keysOf pd (colTest s pIdx) sel) as [|idx l] eqn:Hl;
            [simpl in Hout; lia|].
          assert (Hidx : idx ∈ keysOf pd (colTest s pIdx) sel) by (rewrite Hl; left).
          apply elem_of_keysOf in Hidx as (Hsel & m & Hm & Htest).
          exists idx. apply elem_of_thoseSelected. split; [done|].
          apply elem_of_keysWhere. exists m. split; [done|].
          apply roleTest_weaken. right. done. }
      destruct Hkey as [idx Hidx]. intros Hnil. rewrite Hnil in Hidx.
      by apply elem_of_nil in Hidx.
    + destruct (direct pMap) as [d|].
      * rewrite directPass_report in Hrep.
        destruct (bool_decide (2 < _)) eqn:H2; simpl in Hrep.
        -- destruct (nearlyAll _ _).
           ++ apply list_elem_of_singleton in Hrep. rewrite Hrep. simpl.
              apply bool_decide_eq_true in H2. apply nonempty_of_length. lia.
           ++ apply list_elem_of_fmap in Hrep as (idx & -> & _). done.
        -- apply list_elem_of_fmap in Hrep as (idx & -> & _). done.
      * apply standardPass_reports in Hrep as [(k & Hover & Heq)|(k & Hover & Heq)];
          [| |done]; rewrite Heq; simpl; apply nonempty_of_length;
          unfold over60 in Hover; lia.
  - apply elem_of_singlesOf in Hrep as (idx & m & _ & _ & _ & _ & Heq). by rewrite Heq.
Qed.

(** * What the pin extraction keeps *)

Lemma tableGrows_refl t : tableGrows t t.
Proof. intros o ->. by exists o. Qed.

Lemma tableGrows_trans t1 t2 t3 : tableGrows t1 t2 → tableGrows t2 t3 → tableGrows t1 t3.
Proof.
  intros H12 H23 o1 H1. destruct (H12 o1 H1) as (o2 & H2 & Ho12).
  destruct (H23 o2 H2) as (o3 & H3 & Ho23). exists o3. split; [done|].
  intros i Hi. by apply Ho23, Ho12.
Qed.

Lemma tableGrows_assignPins t l : tableGrows t (assignPins t l).
Proof.
  intros o ->. eexists. split; [done|]. simpl. intros i [pin Hi].
  apply lookup_union_is_Some. right. by exists pin.
Qed.

Lemma tableGrows_if (b : bool) t l : tableGrows t (if b then assignPins t l else t).
Proof. destruct b; [apply tableGrows_assignPins|apply tableGrows_refl]. Qed.

Lemma entryGrows_refl p : entryGrows p p.
Proof. unfold entryGrows. split_and!; try apply tableGrows_refl; done. Qed.

Lemma entryGrows_trans p1 p2 p3 : entryGrows p1 p2 → entryGrows p2 p3 → entryGrows p1 p3.
Proof.
  intros (Hr & Hc & Hg & Hd & Hi & Hco & Hro) (Hr' & Hc' & Hg' & Hd' & Hi' & Hco' & Hro').
  unfold entryGrows. split_and!; try (by eapply tableGrows_trans);
    [by auto|congruence|congruence].
Qed.

Lemma pinMapGrows_refl res : pinMapGrows res res.
Proof. intros s p Hp. exists p. split; [done|apply entryGrows_refl]. Qed.

Lemma pinMapGrows_trans r1 r2 r3 : pinMapGrows r1 r2 → pinMapGrows r2 r3 → pinMapGrows r1 r3.
Proof.
  intros H12 H23 s p1 Hp1. destruct (H12 s p1 Hp1) as (p2 & Hp2 & Hg12).
  destruct (H23 s p2 Hp2) as (p3 & Hp3 & Hg23). exists p3. split; [done|].
  by eapply entryGrows_trans.
Qed.

Lemma setEntry_grows res s p' :
  entryGrows (entryOf res s) p' → pinMapGrows res (setEntry res s p').
Proof.
  intros Hgrow s' p Hp. simpl. rewrite obj_get_obj_set.
  destruct (decide (s = s')) as [<-|Hne].
  - exists p'. split; [done|]. unfold entryOf in Hgrow. by rewrite Hp in Hgrow.
  - exists p. split; [done|apply entryGrows_refl].
Qed.

Lemma setDiode_grows res d : pinMapGrows res (setDiode res d).
Proof. intros s p Hp. exists p. split; [done|apply entryGrows_refl]. Qed.

Lemma standardStep_grows rowGpios colGpios res s :
  pinMapGrows res (standardStep rowGpios colGpios res s).
Proof.
  unfold standardStep. cbv zeta. apply setEntry_grows.
  unfold entryGrows. simpl.
  split_and!; try apply tableGrows_if; try apply tableGrows_refl; done.
Qed.

Lemma charlieStep_grows gp intGpios res s : pinMapGrows res (charlieStep gp intGpios res s).
Proof.
  unfold charlieStep. cbv zeta.
  assert (Hset : pinMapGrows res
    (setEntry res s
       {| row := row (entryOf res s); col := col (entryOf res s);
          gpios := if bool_decide (0 < length gp)
                   then assignPins (gpios (entryOf res s)) gp else gpios (entryOf res s);
          direct := direct (entryOf res s);
          interrupt := if bool_decide (0 < length intGpios)
                       then head intGpios else interrupt (entryOf res s);
          colOffset := colOffset (entryOf res s);
          rowOffset := rowOffset (entryOf res s) |})).
  { apply setEntry_grows. unfold entryGrows. simpl.
    split_and!; try apply tableGrows_if; try apply tableGrows_refl; try done.
    intros Hint. case_bool_decide as Hlen; [|done].
    destruct intGpios; [simpl in Hlen; lia|]. by eexists. }
  destruct (bool_decide (0 < length gp)); [|done].
  eapply pinMapGrows_trans; [exact Hset|apply setDiode_grows].
Qed.

Lemma directStep_grows directGpios res s : pinMapGrows res (directStep directGpios res s).
Proof.
  unfold directStep. cbv zeta.
  assert (Hset : pinMapGrows res
    (setEntry res s
       {| row := row (entryOf res s); col := col (entryOf res s);
          gpios := gpios (entryOf res s);
          direct := if bool_decide (0 < length directGpios)
                    then assignPins (direct (entryOf res s)) directGpios
                    else direct (entryOf res s);
          interrupt := interrupt (entryOf res s);
          colOffset := colOffset (entryOf res s);
          rowOffset := rowOffset (entryOf res s) |})).
  { apply setEntry_grows. unfold entryGrows. simpl.
    split_and!; try apply tableGrows_if; try apply tableGrows_refl; done. }
  destruct (bool_decide (0 < length directGpios)); [|done].
  eapply pinMapGrows_trans; [exact Hset|apply setDiode_grows].
Qed.

Lemma fold_left_grows {B} (f : ParsedData → B → ParsedData) (l : list B) res :
  (∀ r x, pinMapGrows r (f r x)) → pinMapGrows res (fold_left f l res).
Proof.
  intros Hf. apply (fold_left_invariant (pinMapGrows res)); [|apply pinMapGrows_refl].
  intros r x _ Hr. eapply pinMapGrows_trans; [exact Hr|apply Hf].
Qed.

Lemma pinConfigFile_grows shields res file : pinMapGrows res (pinConfigFile shields res file).
Proof.
  destruct file as [filename content]. unfold pinConfigFile. cbv zeta.
  assert (H0 : pinMapGrows res
                 match diodeMatch content with Some d => setDiode res d | None => res end)
    by (destruct (diodeMatch content); [apply setDiode_grows|apply pinMapGrows_refl]).
  destruct (_ && _); [done|].
  eapply pinMapGrows_trans; [exact H0|].
  eapply pinMapGrows_trans;
    [|destruct (isDirectMode content);
      [apply fold_left_grows, directStep_grows|apply pinMapGrows_refl]].
  eapply pinMapGrows_trans;
    [|destruct (isCharlieMode content);
      [apply fold_left_grows, charlieStep_grows|apply pinMapGrows_refl]].
  destruct (isStandard content);
    [apply fold_left_grows, standardStep_grows|apply pinMapGrows_refl].
Qed.

Lemma findAndParsePinConfig_pinMapGrows shields rawFiles res :
  pinMapGrows res (findAndParsePinConfig shields rawFiles res).
Proof. apply fold_left_grows, pinConfigFile_grows. Qed.

Lemma nonEmpty_grows t t' : tableGrows t t' → nonEmpty t = true → nonEmpty t' = true.
Proof.
  intros Hgrow Hne. unfold nonEmpty in *. destruct t as [o|]; [|done].
  destruct (Hgrow o eq_refl) as (o' & -> & Hsub).
  apply bool_decide_eq_true in Hne. apply bool_decide_eq_true.
  destruct (Object_keys o) as [|i l] eqn:Hkeys; [simpl in Hne; lia|].
  assert (Hi : i ∈ Object_keys o') by (apply elem_of_Object_keys, Hsub,
    elem_of_Object_keys; rewrite Hkeys; left).
  destruct (Object_keys o'); [by apply elem_of_nil in Hi|simpl; lia].
Qed.

Lemma hasPins_grows p p' : entryGrows p p' → hasPins p = true → hasPins p' = true.
Proof.
  intros (Hr & Hc & Hg & Hd & _) Hp. unfold hasPins in *.
  rewrite !orb_true_iff in Hp. rewrite !orb_true_iff.
  destruct Hp as [[[Hp|Hp]|Hp]|Hp]; eauto using nonEmpty_grows.
Qed.

(** For shields whose names no object inherits, and a result whose entries
    have their [row] and [col] tables, the pin extraction never takes
    anything back: every entry of [pinMap] keeps its tables, with at least
    the indices they had, its interrupt pin if it had one, and its offsets;
    the matrix map is untouched, and a shield that was valid stays valid. *)
Theorem findAndParsePinConfig_grows (shields : list string)
    (rawFiles : list (string * string)) (res : ParsedData) :
  ownNames shields → rowColTables res →
  pinMapGrows res (findAndParsePinConfig shields rawFiles res)
  ∧ matrixMap (findAndParsePinConfig shields rawFiles res) = matrixMap res
  ∧ validShields res ⊆ validShields (findAndParsePinConfig shields rawFiles res).
Proof.
  intros _ _.
  split; [apply findAndParsePinConfig_pinMapGrows|].
  split; [apply findAndParsePinConfig_matrixMap|].
  intros s Hs. destruct (validShields_pinMap res s Hs) as (p & Hp & Hpins).
  destruct (findAndParsePinConfig_pinMapGrows shields rawFiles res s p Hp)
    as (p' & Hp' & Hgrow).
  unfold validShields. apply list_elem_of_filter. split.
  - rewrite Hp'. apply Is_true_eq_left. by eapply hasPins_grows.
  - apply obj_get_keys. by eexists.
Qed.

Lemma findAndParsePinConfig_grows_witness :
  pinMapGrows (findAndParsePinConfig kbShields [charlieOverlay] initialResult)
    (findAndParsePinConfig kbShields [matrixOverlay]
       (findAndParsePinConfig kbShields [charlieOverlay] initialResult))
  ∧ matrixMap (findAndParsePinConfig kbShields [matrixOverlay]
                 (findAndParsePinConfig kbShields [charlieOverlay] initialResult))
    = matrixMap (findAndParsePinConfig kbShields [charlieOverlay] initialResult)
  ∧ validShields (findAndParsePinConfig kbShields [charlieOverlay] initialResult)
    ⊆ validShields (findAndParsePinConfig kbShields [matrixOverlay]
                      (findAndParsePinConfig kbShields [charlieOverlay] initialResult)).
Proof.
  apply (findAndParsePinConfig_grows kbShields [matrixOverlay]
           (findAndParsePinConfig kbShields [charlieOverlay] initialResult)).
  - apply kbShields_ownNames.
  - unfold rowColTables. vm_compute pinMap. repeat constructor; by eexists.
Defined.

(** * The repository of a fetcher *)

Lemma str_app_cons ch s t : String ch s +:+ t = String ch (s +:+ t).
Proof. reflexivity. Qed.

Lemma str_app_nil_l t : EmptyString +:+ t = t.
Proof. reflexivity. Qed.

Ltac str_simpl := rewrite ?str_app_cons, ?str_app_nil_l.
Tactic Notation "str_simpl" "in" hyp(H) := rewrite ?str_app_cons, ?str_app_nil_l in H.

Lemma str_app_nil_r s : s +:+ EmptyString = s.
Proof. induction s as [|ch s IH]; str_simpl; [done|]. by rewrite IH. Qed.

Lemma str_app_assoc s t u : (s +:+ t) +:+ u = s +:+ (t +:+ u).
Proof. induction s as [|ch s IH]; str_simpl; [done|]. by rewrite IH. Qed.

Lemma str_length_app s t : String.length (s +:+ t) = String.length s + String.length t.
Proof. induction s as [|ch s IH]; str_simpl; simpl; [done|]. by rewrite IH. Qed.

Lemma dropStr_app s t : dropStr (String.length s) (s +:+ t) = t.
Proof. induction s as [|ch s IH]; str_simpl; simpl; [by destruct t|done]. Qed.

Lemma takeStr_app s t : takeStr (String.length s) (s +:+ t) = s.
Proof. induction s as [|ch s IH]; str_simpl; simpl; [by destruct t|]. by rewrite IH. Qed.

Lemma takeStr_dropStr n s : takeStr n s +:+ dropStr n s = s.
Proof.
  revert s. induction n as [|n IH]; intros [|ch s]; simpl; str_simpl; try done.
  by rewrite IH.
Qed.

Lemma prefix_app p s : String.prefix p (p +:+ s) = true.
Proof.
  induction p as [|ch p IH]; str_simpl; simpl; [by destruct s|].
  by destruct (ascii_dec ch ch).
Qed.

Lemma prefix_inv p s : String.prefix p s = true → ∃ rest, s = p +:+ rest.
Proof.
  revert s. induction p as [|ch p IH]; intros s Hp; [by exists s|].
  destruct s as [|ch' s]; [done|]. simpl in Hp.
  destruct (ascii_dec ch ch') as [->|]; [|done].
  destruct (IH s Hp) as [rest ->]. by exists rest.
Qed.

Lemma endsWith_spec s suffix : endsWith s suffix = true ↔ ∃ pre, s = pre +:+ suffix.
Proof.
  unfold endsWith. rewrite andb_true_iff, !bool_decide_eq_true. split.
  - intros [Hlen Hdrop]. exists (takeStr (String.length s - String.length suffix) s).
    transitivity (takeStr (String.length s - String.length suffix) s
                  +:+ dropStr (String.length s - String.length suffix) s);
      [symmetry; apply takeStr_dropStr|by rewrite Hdrop].
  - intros [pre ->]. rewrite str_length_app. split; [lia|].
    replace (String.length pre + String.length suffix - String.length suffix)
      with (String.length pre) by lia.
    apply dropStr_app.
Qed.

Lemma endsWith_false s suffix :
  (∀ pre, s ≠ pre +:+ suffix) → endsWith s suffix = false.
Proof.
  intros Hno. destruct (endsWith s suffix) eqn:He; [|done].
  apply endsWith_spec in He as [pre ->]. by destruct (Hno pre).
Qed.


Lemma chars_of_list l : chars (String.string_of_list_ascii l) = l.
Proof. induction l as [|x l IH]; simpl; [done|]. by rewrite IH. Qed.

(** A [.git] at the end of a text with a slash is at the end of what
    follows the slash. *)
Lemma endsWith_git_after_slash a b :
  endsWith (a +:+ String "/"%char b) ".git" = true → endsWith b ".git" = true.
Proof.
  rewrite !endsWith_spec. intros [pre Heq].
  apply (f_equal chars) in Heq. rewrite !chars_app in Heq. simpl in Heq.
  apply (f_equal (@rev ascii)) in Heq.
  rewrite !rev_app_distr in Heq. simpl in Heq. rewrite <- !app_assoc in Heq. simpl in Heq.
  destruct (rev (chars b)) as [|c1 [|c2 [|c3 [|c4 l]]]] eqn:Hrev; simplify_eq/=.
  exists (String.string_of_list_ascii (rev l)).
  apply chars_inj. rewrite chars_app, chars_of_list.
  apply (f_equal (@rev ascii)) in Hrev. rewrite rev_involutive in Hrev.
  rewrite Hrev. simpl. by rewrite <- !app_assoc.
Qed.

Lemma trim_no_space s : Forall (λ ch, isSpace ch = false) (chars s) → trim s = s.
Proof.
  intros Hs. unfold trim.
  assert (Hskip : skipSpace s = s).
  { destruct s as [|ch s]; [done|]. simpl. apply Forall_cons in Hs as [-> _]. done. }
  rewrite Hskip. induction s as [|ch s IH]; [done|]. simpl.
  apply Forall_cons in Hs as [Hch Hs]. rewrite Hch. simpl. f_equal. apply IH; [done|].
  destruct s as [|ch' s]; [done|]. simpl. apply Forall_cons in Hs as [-> _]. done.
Qed.

(** Splitting at a character. *)
Lemma splitOn_no_sep sep cur a :
  Forall (λ ch, ch ≠ sep) (chars a) → splitOn sep cur a = [cur +:+ a].
Proof.
  revert cur. induction a as [|ch a IH]; intros cur Ha; simpl.
  - by rewrite str_app_nil_r.
  - apply Forall_cons in Ha as [Hch Ha]. rewrite bool_decide_false by done.
    rewrite IH by done. by rewrite str_app_assoc.
Qed.

Lemma splitOn_app_sep sep cur a b :
  splitOn sep cur (a +:+ String sep b) = splitOn sep cur a ++ splitOn sep EmptyString b.
Proof.
  revert cur. induction a as [|ch a IH]; intros cur; simpl.
  - by rewrite bool_decide_true.
  - case_bool_decide; [|apply IH]. simpl. f_equal. apply IH.
Qed.

Lemma splitOn_nonempty sep cur s : splitOn sep cur s ≠ [].
Proof.
  revert cur. induction s as [|ch s IH]; intros cur; simpl; [done|].
  case_bool_decide; [done|apply IH].
Qed.

(** Two slashes in a row, and texts of names. *)
Lemma slashPair_no_slash a b :
  Forall (λ ch, ch ≠ "/"%char) (chars a) → slashPair (a +:+ b) → slashPair b.
Proof.
  induction a as [|ch a IH]; intros Ha Hp; [done|]. simpl in *.
  apply Forall_cons in Ha as [Hch Ha]. destruct Hp as [[-> _]|Hp]; [done|]. by apply IH.
Qed.

Lemma slashFirst_app a b : a ≠ EmptyString → slashFirst (a +:+ b) → slashFirst a.
Proof. destruct a as [|ch a]; [done|]. intros _ [s' [= -> _]]. by eexists. Qed.

Lemma plainName_slash s : plainName s → Forall (λ ch, ch ≠ "/"%char) (chars s).
Proof. intros [_ Hs]. eapply Forall_impl; [exact Hs|]. by intros ch [? _]. Qed.

Lemma plainName_space s : plainName s → Forall (λ ch, isSpace ch = false) (chars s).
Proof. intros [_ Hs]. eapply Forall_impl; [exact Hs|]. by intros ch [_ ?]. Qed.

Lemma plainName_first s : plainName s → ¬ slashFirst s.
Proof.
  intros [_ Hs] [s' ->]. simpl in Hs. apply Forall_cons in Hs as [[Hch _] _]. done.
Qed.

(** An address of the site has two slashes in a row. *)
Lemma github_prefix_pair p s :
  p = "https://github.com/"%string ∨ p = "http://github.com/"%string →
  String.prefix p s = true → slashPair s.
Proof.
  intros Hp [rest ->]%prefix_inv. destruct Hp as [-> | ->]; simpl.
  - do 6 right. left. split; [done|]. by eexists.
  - do 5 right. left. split; [done|]. by eexists.
Qed.

Lemma dropGithub_plain s : ¬ slashPair s → dropGithub s = s.
Proof.
  intros Hs. unfold dropGithub.
  destruct (String.prefix "https://github.com/" s) eqn:H1.
  { destruct Hs. eapply github_prefix_pair; [|exact H1]. by left. }
  destruct (String.prefix "http://github.com/" s) eqn:H2; [|done].
  destruct Hs. eapply github_prefix_pair; [|exact H2]. by right.
Qed.

Lemma dropGithub_https s : dropGithub ("https://github.com/" +:+ s) = s.
Proof. unfold dropGithub. by rewrite prefix_app, (dropStr_app "https://github.com/"). Qed.

Lemma dropGithub_http s : dropGithub ("http://github.com/" +:+ s) = s.
Proof.
  unfold dropGithub.
  replace (String.prefix "https://github.com/" ("http://github.com/" +:+ s)) with false
    by done.
  by rewrite prefix_app, (dropStr_app "http://github.com/").
Qed.

(** An occurrence, as [includes] finds it. *)
Lemma index0_cons sub ch s :
  String.index 0 sub (String ch s)
  = if String.prefix sub (String ch s) then Some 0
    else match String.index 0 sub s with Some n => Some (S n) | None => None end.
Proof. reflexivity. Qed.

Lemma index0_nil sub :
  String.index 0 sub EmptyString
  = match sub with EmptyString => Some 0 | String _ _ => None end.
Proof. reflexivity. Qed.

Lemma includes_spec s sub :
  includes s sub = true ↔ ∃ pre post, s = pre +:+ sub +:+ post.
Proof.
  unfold includes. rewrite bool_decide_eq_true. split.
  - intros [m Hm]. revert m Hm. induction s as [|ch s IH]; intros m Hm.
    + rewrite index0_nil in Hm. destruct sub; [|done]. by exists EmptyString, EmptyString.
    + rewrite index0_cons in Hm. destruct (String.prefix sub (String ch s)) eqn:Hp.
      * apply prefix_inv in Hp as [rest Hrest]. exists EmptyString, rest.
        by rewrite str_app_nil_l.
      * destruct (String.index 0 sub s) as [n|] eqn:Hn; [|done].
        destruct (IH n eq_refl) as (pre & post & ->). by exists (String ch pre), post.
  - intros (pre & post & ->). induction pre as [|ch pre IH]; str_simpl.
    + destruct (sub +:+ post) as [|ch s] eqn:Hs.
      * rewrite index0_nil. destruct sub; [by eexists|done].
      * rewrite index0_cons, <- Hs, prefix_app. by eexists.
    + rewrite index0_cons. destruct (String.prefix sub _); [by eexists|].
      destruct IH as [n ->]. by eexists.
Qed.

(** The pieces of a text with the directory [tree]. *)
Lemma splitOn_tree pre post :
  ∃ l1 l2, l1 ≠ [] ∧ l2 ≠ []
    ∧ splitOn "/"%char EmptyString (pre +:+ "/tree/" +:+ post) = l1 ++ ["tree"%string] ++ l2.
Proof.
  exists (splitOn "/"%char EmptyString pre), (splitOn "/"%char EmptyString post).
  split; [apply splitOn_nonempty|]. split; [apply splitOn_nonempty|].
  change (pre +:+ "/tree/" +:+ post)
    with (pre +:+ String "/"%char ("tree" +:+ String "/"%char post)).
  by rewrite !splitOn_app_sep.
Qed.

(** The texts that stand for [user/name] alone. *)
Lemma splitOn_repo user name c :
  plainName user → plainName name →
  splitOn "/"%char EmptyString (user +:+ "/" +:+ name +:+ c)
  = user :: splitOn "/"%char name c.
Proof.
  intros Hu Hn.
  change (user +:+ "/" +:+ name +:+ c) with (user +:+ String "/"%char (name +:+ c)).
  rewrite splitOn_app_sep, splitOn_no_sep by (by apply plainName_slash). simpl. f_equal.
  assert (Hgen : ∀ cur, splitOn "/"%char cur (name +:+ c) = splitOn "/"%char (cur +:+ name) c).
  { pose proof (plainName_slash name Hn) as Hs. clear Hn.
    induction name as [|ch name IH]; intros cur; simpl.
    - by rewrite str_app_nil_r.
    - apply Forall_cons in Hs as [Hch Hs]. rewrite bool_decide_false by done.
      rewrite IH by done. by rewrite str_app_assoc. }
  apply Hgen.
Qed.

Lemma no_tree user name c :
  plainName user → plainName name → name ≠ "tree"%string →
  c = EmptyString ∨ c = "/"%string →
  includes (user +:+ "/" +:+ name +:+ c) "/tree/" = false.
Proof.
  intros Hu Hn Htree Hc. destruct (includes _ _) eqn:Hinc; [|done].
  apply includes_spec in Hinc as (pre & post & Heq).
  destruct (splitOn_tree pre post) as (l1 & l2 & H1 & H2 & Hsplit).
  rewrite <- Heq, splitOn_repo in Hsplit by done.
  destruct l1 as [|x1 l1]; [done|]. destruct l2 as [|x2 l2]; [done|].
  destruct Hc as [-> | ->]; simpl in Hsplit;
    destruct l1 as [|y1 [|y2 l1]]; simplify_eq/=; try done;
    destruct l1; simplify_eq/=.
Qed.

Lemma not_slashPair_repo user name c :
  plainName user → plainName name → ¬ slashPair c →
  ¬ slashPair (user +:+ "/" +:+ name +:+ c).
Proof.
  intros Hu Hn Hc Hp.
  change (user +:+ "/" +:+ name +:+ c) with (user +:+ String "/"%char (name +:+ c)) in Hp.
  apply slashPair_no_slash in Hp; [|by apply plainName_slash]. simpl in Hp.
  destruct Hp as [[_ Hf]|Hp].
  - apply slashFirst_app in Hf; [|by destruct Hn]. by apply plainName_first in Hf.
  - apply slashPair_no_slash in Hp; [done|by apply plainName_slash].
Qed.

Lemma endsWith_repo user name :
  endsWith name ".git" = false → endsWith (user +:+ "/" +:+ name) ".git" = false.
Proof.
  intros Hname. destruct (endsWith (user +:+ "/" +:+ name) ".git") eqn:He; [|done].
  apply (endsWith_git_after_slash user name) in He. congruence.
Qed.

Lemma endsWith_slash s : endsWith (s +:+ "/") ".git" = false.
Proof.
  destruct (endsWith (s +:+ "/") ".git") eqn:He; [|done].
  by apply (endsWith_git_after_slash s EmptyString) in He.
Qed.

Lemma dropDotGit_git s : dropDotGit (s +:+ ".git") = s.
Proof.
  unfold dropDotGit.
  rewrite (proj2 (endsWith_spec (s +:+ ".git") ".git")) by (by exists s).
  rewrite str_length_app. simpl.
  replace (String.length s + 4 - 4) with (String.length s) by lia. apply takeStr_app.
Qed.

(** The constructor on a text that is [user/name], with a slash at the end
    or not, once the site and [.git] are taken off. *)
Lemma repoAndBranch_cleaned repoStr user name c :
  plainName user → plainName name → name ≠ "tree"%string →
  c = EmptyString ∨ c = "/"%string →
  dropDotGit (dropGithub (trim repoStr)) = user +:+ "/" +:+ name +:+ c →
  repoAndBranch repoStr = (user +:+ "/" +:+ name, None).
Proof.
  intros Hu Hn Htree Hc Hclean. unfold repoAndBranch. cbv zeta. rewrite Hclean.
  rewrite no_tree by done. rewrite splitOn_repo by done.
  assert (Hlen : ∀ s, plainName s → 0 < String.length s).
  { intros [|ch s] [Hne _]; [done|simpl; lia]. }
  rewrite filter_cons_True by (by apply Hlen).
  destruct Hc as [-> | ->].
  - change (splitOn "/"%char name EmptyString) with [name].
    rewrite filter_cons_True by (by apply Hlen). rewrite filter_nil. done.
  - change (splitOn "/"%char name "/") with [name; EmptyString].
    rewrite filter_cons_True by (by apply Hlen).
    rewrite filter_cons_False by (simpl; lia). rewrite filter_nil. done.
Qed.

Lemma repoAndBranch_forms (user name : string) :
  plainName user → plainName name →
  name ≠ "tree"%string → endsWith name ".git" = false →
  Forall (λ repoStr, repoAndBranch repoStr = (user +:+ "/" +:+ name, None))
    (repoForms user name).
Proof.
  intros Hu Hn Htree Hgit.
  pose proof (plainName_space user Hu) as Hus. pose proof (plainName_space name Hn) as Hns.
  assert (Hrepo : ∀ c, Forall (λ ch, isSpace ch = false) (chars c) →
            Forall (λ ch, isSpace ch = false) (chars (user +:+ "/" +:+ name +:+ c))).
  { intros c Hc. rewrite !chars_app. apply Forall_app. split; [done|].
    apply Forall_app. split; [by repeat constructor|]. by apply Forall_app. }
  assert (Hsite : ∀ p c, Forall (λ ch, isSpace ch = false) (chars p) →
            Forall (λ ch, isSpace ch = false) (chars c) →
            Forall (λ ch, isSpace ch = false) (chars (p +:+ user +:+ "/" +:+ name +:+ c))).
  { intros p c Hp Hc. rewrite chars_app. apply Forall_app. split; [done|]. by apply Hrepo. }
  assert (Hnopair : ∀ c, ¬ slashPair c →
            dropGithub (user +:+ "/" +:+ name +:+ c) = user +:+ "/" +:+ name +:+ c).
  { intros c Hc. apply dropGithub_plain. by apply not_slashPair_repo. }
  assert (Hplain : dropDotGit (user +:+ "/" +:+ name) = user +:+ "/" +:+ name).
  { unfold dropDotGit. by rewrite endsWith_repo. }
  assert (Hslash : dropDotGit (user +:+ "/" +:+ name +:+ "/") = user +:+ "/" +:+ name +:+ "/").
  { unfold dropDotGit.
    replace (user +:+ "/" +:+ name +:+ "/") with ((user +:+ "/" +:+ name) +:+ "/")
      by (by rewrite !str_app_assoc).
    by rewrite endsWith_slash. }
  assert (Hdot : dropDotGit (user +:+ "/" +:+ name +:+ ".git") = user +:+ "/" +:+ name).
  { replace (user +:+ "/" +:+ name +:+ ".git") with ((user +:+ "/" +:+ name) +:+ ".git")
      by (by rewrite !str_app_assoc).
    apply dropDotGit_git. }
  unfold repoForms. repeat apply Forall_cons_2; [..|apply Forall_nil_2].
  - apply (repoAndBranch_cleaned _ user name EmptyString); [done|done|done|by left|].
    rewrite str_app_nil_r, <- (str_app_nil_r (user +:+ "/" +:+ name)) at 1.
    rewrite str_app_assoc, str_app_assoc.
    rewrite trim_no_space by (by apply Hrepo). rewrite Hnopair by (by intros []).
    by rewrite !str_app_nil_r.
  - apply (repoAndBranch_cleaned _ user name "/"); [done|done|done|by right|].
    rewrite trim_no_space by (apply Hrepo; by repeat constructor).
    rewrite Hnopair by (simpl; intros [[_ [? ?]]|[]]; done). done.
  - apply (repoAndBranch_cleaned _ user name EmptyString); [done|done|done|by left|].
    rewrite trim_no_space by (apply Hrepo; by repeat constructor).
    rewrite Hnopair by (by vm_compute; intuition (try discriminate; naive_solver)).
    by rewrite Hdot, str_app_nil_r.
  - apply (repoAndBranch_cleaned _ user name EmptyString); [done|done|done|by left|].
    rewrite <- (str_app_nil_r name) at 1.
    rewrite trim_no_space
      by (apply (Hsite "https://github.com/"%string EmptyString); by repeat constructor).
    rewrite dropGithub_https. by rewrite !str_app_nil_r.
  - apply (repoAndBranch_cleaned _ user name "/"); [done|done|done|by right|].
    rewrite trim_no_space
      by (apply (Hsite "https://github.com/"%string "/"%string); by repeat constructor).
    by rewrite dropGithub_https.
  - apply (repoAndBranch_cleaned _ user name EmptyString); [done|done|done|by left|].
    rewrite trim_no_space
      by (apply (Hsite "https://github.com/"%string ".git"%string); by repeat constructor).
    by rewrite dropGithub_https, Hdot, str_app_nil_r.
  - apply (repoAndBranch_cleaned _ user name EmptyString); [done|done|done|by left|].
    rewrite <- (str_app_nil_r name) at 1.
    rewrite trim_no_space
      by (apply (Hsite "http://github.com/"%string EmptyString); by repeat constructor).
    rewrite dropGithub_http. by rewrite !str_app_nil_r.
Qed.

(** The fetcher of the repository [user/name] on a branch. *)
Lemma newGitHubFetcher_of repoStr r b :
  repoAndBranch repoStr = (r, b) →
  newGitHubFetcher repoStr
  = {| repo := r; branch := b;
       baseUrl := "https://api.github.com/repos/" +:+ r +:+ "/contents" |}.
Proof. intros Heq. unfold newGitHubFetcher. by rewrite Heq. Qed.

(** The supported forms of an address without a branch: [user/name], with
    the address of the site in front or not, with [.git] or a slash at the
    end or not, all give the fetcher of the repository [user/name] with no
    branch. The repository must not be called [tree], nor end in [.git]
    itself. *)
Theorem newGitHubFetcher_forms (user name : string) :
  plainName user → plainName name →
  name ≠ "tree"%string → endsWith name ".git" = false →
  Forall (λ repoStr,
            newGitHubFetcher repoStr
            = {| repo := user +:+ "/" +:+ name; branch := None;
                 baseUrl := "https://api.github.com/repos/" +:+ (user +:+ "/" +:+ name)
                            +:+ "/contents" |})
    (repoForms user name).
Proof.
  intros Hu Hn Htree Hgit.
  eapply Forall_impl; [by apply repoAndBranch_forms|].
  intros repoStr Heq. by apply newGitHubFetcher_of.
Qed.

Lemma newGitHubFetcher_forms_witness :
  Forall (λ repoStr,
            newGitHubFetcher repoStr
            = {| repo := "ImSota" +:+ "/" +:+ "zmk-config"; branch := None;
                 baseUrl := "https://api.github.com/repos/"
                            +:+ ("ImSota" +:+ "/" +:+ "zmk-config") +:+ "/contents" |})
    (repoForms "ImSota" "zmk-config").
Proof.
  apply (newGitHubFetcher_forms "ImSota" "zmk-config").
  - split; [done|]. repeat constructor; discriminate.
  - split; [done|]. repeat constructor; discriminate.
  - discriminate.
  - reflexivity.
Defined.

(** ** An address with a branch *)

Lemma splitOn_second_site p x :
  p = "https://github.com/"%string ∨ p = "http://github.com/"%string →
  String.prefix p x = true →
  ∃ first l, splitOn "/"%char EmptyString x = first :: EmptyString :: l.
Proof.
  intros Hp [rest ->]%prefix_inv. destruct Hp as [-> | ->].
  - change ("https://github.com/" +:+ rest)
      with ("https:" +:+ String "/"%char (EmptyString +:+ String "/"%char ("github.com/" +:+ rest))).
    rewrite !splitOn_app_sep. by eexists _, _.
  - change ("http://github.com/" +:+ rest)
      with ("http:" +:+ String "/"%char (EmptyString +:+ String "/"%char ("github.com/" +:+ rest))).
    rewrite !splitOn_app_sep. by eexists _, _.
Qed.

Lemma splitOn_second_repo user name x :
  plainName user → plainName name →
  ∃ l, splitOn "/"%char EmptyString (user +:+ "/" +:+ name +:+ "/" +:+ x) = user :: name :: l.
Proof.
  intros Hu Hn.
  change (user +:+ "/" +:+ name +:+ "/" +:+ x)
    with (user +:+ String "/"%char (name +:+ String "/"%char x)).
  rewrite !splitOn_app_sep, !splitOn_no_sep by (by apply plainName_slash).
  by eexists.
Qed.

Lemma dropGithub_repo user name x :
  plainName user → plainName name →
  dropGithub (user +:+ "/" +:+ name +:+ "/" +:+ x) = user +:+ "/" +:+ name +:+ "/" +:+ x.
Proof.
  intros Hu Hn. destruct (splitOn_second_repo user name x Hu Hn) as [l Hl].
  assert (Hno : ∀ p, p = "https://github.com/"%string ∨ p = "http://github.com/"%string →
            String.prefix p (user +:+ "/" +:+ name +:+ "/" +:+ x) = false).
  { intros p Hp. destruct (String.prefix p _) eqn:Hpre; [|done].
    destruct (splitOn_second_site p _ Hp Hpre) as (first & l' & Hl').
    rewrite Hl in Hl'. destruct Hn as [Hne _]. by simplify_eq. }
  unfold dropGithub. rewrite !Hno; [done|by right|by left].
Qed.

Lemma splitStr_cons0 sep cur ch s :
  splitStr sep 0 cur (String ch s)
  = if String.prefix sep (String ch s)
    then cur :: splitStr sep (String.length sep - 1) EmptyString s
    else splitStr sep 0 (cur +:+ String ch EmptyString) s.
Proof. reflexivity. Qed.

Lemma splitStr_first sep cur a b :
  sep = "/tree/"%string → noStart sep a (sep +:+ b) →
  splitStr sep 0 cur (a +:+ sep +:+ b) = (cur +:+ a) :: splitStr sep 0 EmptyString b.
Proof.
  intros ->. revert cur. induction a as [|ch a IH]; intros cur Hno.
  - rewrite (str_app_nil_r cur). pose proof (prefix_app "/tree/" b) as Hpre.
    str_simpl. str_simpl in Hpre. rewrite splitStr_cons0, Hpre. reflexivity.
  - destruct Hno as [Hhere Hno]. rewrite (str_app_cons ch a). rewrite splitStr_cons0.
    rewrite (str_app_cons ch a) in Hhere. rewrite Hhere, IH by done.
    by rewrite str_app_assoc.
Qed.

Lemma prefix_other_char sep ch s :
  ch ≠ "/"%char → String.prefix (String "/"%char sep) (String ch s) = false.
Proof.
  intros Hch.
  change (String.prefix (String "/"%char sep) (String ch s))
    with (match ascii_dec "/"%char ch with
          | left _ => String.prefix sep s
          | right _ => false
          end).
  destruct (ascii_dec "/"%char ch) as [Heq|]; [by destruct Hch|done].
Qed.

Lemma noStart_no_slash sep a rest :
  Forall (λ ch, ch ≠ "/"%char) (chars a) → noStart (String "/"%char sep) a rest.
Proof.
  induction a as [|ch a IH]; intros Ha; [done|].
  apply Forall_cons in Ha as [Hch Ha]. split; [|by apply IH].
  str_simpl. by apply prefix_other_char.
Qed.

Lemma noStart_app sep a b rest :
  noStart sep a (b +:+ rest) → noStart sep b rest → noStart sep (a +:+ b) rest.
Proof.
  induction a as [|ch a IH]; intros Ha Hb; [done|]. destruct Ha as [Hhere Ha].
  str_simpl. split; [|by apply IH].
  by rewrite <- str_app_cons, str_app_assoc.
Qed.

Lemma noStart_repo user name rest :
  plainName user → plainName name → name ≠ "tree"%string →
  noStart "/tree/" (user +:+ "/" +:+ name) ("/tree/" +:+ rest).
Proof.
  intros Hu Hn Htree.
  apply noStart_app; [by apply noStart_no_slash, plainName_slash|].
  change ("/" +:+ name) with (String "/"%char name). split.
  - destruct (String.prefix _ _) eqn:Hpre; [|done].
    apply prefix_inv in Hpre as [r Heq]. str_simpl in Heq.
    injection Heq as Heq.
    apply (f_equal (splitOn "/"%char EmptyString)) in Heq.
    change (name +:+ "/tree/" +:+ rest) with (name +:+ String "/"%char ("tree/" +:+ rest)) in Heq.
    change ("tree/" +:+ r) with ("tree" +:+ String "/"%char r) in Heq.
    rewrite !splitOn_app_sep, splitOn_no_sep in Heq by (by apply plainName_slash).
    by simplify_eq/=.
  - by apply noStart_no_slash, plainName_slash.
Qed.

Lemma splitStr_no_slash sep cur a rest :
  Forall (λ ch, ch ≠ "/"%char) (chars a) →
  splitStr (String "/"%char sep) 0 cur (a +:+ rest)
  = splitStr (String "/"%char sep) 0 (cur +:+ a) rest.
Proof.
  revert cur. induction a as [|ch a IH]; intros cur Ha.
  - by rewrite str_app_nil_r.
  - apply Forall_cons in Ha as [Hch Ha]. str_simpl.
    rewrite splitStr_cons0, prefix_other_char, IH by done. by rewrite str_app_assoc.
Qed.

Lemma splitStr_head sep cur s :
  ∃ y z l, s = y +:+ z ∧ splitStr sep 0 cur s = (cur +:+ y) :: l.
Proof.
  revert cur. induction s as [|ch s IH]; intros cur.
  - exists EmptyString, EmptyString, []. split; [done|]. by rewrite str_app_nil_r.
  - rewrite splitStr_cons0. destruct (String.prefix sep (String ch s)).
    + eexists EmptyString, (String ch s), _. split; [done|]. by rewrite str_app_nil_r.
    + destruct (IH (cur +:+ String ch EmptyString)) as (y & z & l & -> & ->).
      exists (String ch y), z, l. split; [done|]. by rewrite str_app_assoc.
Qed.

Lemma branch_of_piece br y :
  plainName br → y = EmptyString ∨ slashFirst y →
  head (splitOn "/"%char EmptyString (br +:+ y)) = Some br.
Proof.
  intros Hbr [-> | [y' ->]].
  - rewrite str_app_nil_r, splitOn_no_sep by (by apply plainName_slash). done.
  - rewrite splitOn_app_sep, splitOn_no_sep by (by apply plainName_slash). done.
Qed.

Lemma repoAndBranch_tree (site user name br rest : string) :
  site = EmptyString ∨ site = "https://github.com/"%string
    ∨ site = "http://github.com/"%string →
  plainName user → plainName name → plainName br → name ≠ "tree"%string →
  branchRest rest → endsWith (br +:+ rest) ".git" = false →
  repoAndBranch (site +:+ user +:+ "/" +:+ name +:+ "/tree/" +:+ br +:+ rest)
  = (user +:+ "/" +:+ name, Some br).
Proof.
  intros Hsite Hu Hn Hbr Htree [Hspace Hrest] Hgit.
  set (cleaned := user +:+ "/" +:+ name +:+ "/tree/" +:+ br +:+ rest).
  assert (Hchars : Forall (λ ch, isSpace ch = false) (chars cleaned)).
  { unfold cleaned. rewrite !chars_app.
    repeat (apply Forall_app; split); try (by apply plainName_space); try done;
      by repeat constructor. }
  assert (Hclean : dropDotGit (dropGithub (trim (site +:+ cleaned))) = cleaned).
  { assert (Hdrop : dropGithub (trim (site +:+ cleaned)) = cleaned).
    { destruct Hsite as [-> |[-> | ->]].
      - rewrite str_app_nil_l, trim_no_space by done.
        apply (dropGithub_repo user name ("tree/" +:+ br +:+ rest)); done.
      - rewrite trim_no_space; [apply dropGithub_https|].
        rewrite chars_app. apply Forall_app. split; [by repeat constructor|done].
      - rewrite trim_no_space; [apply dropGithub_http|].
        rewrite chars_app. apply Forall_app. split; [by repeat constructor|done]. }
    rewrite Hdrop. unfold dropDotGit.
    destruct (endsWith cleaned ".git") eqn:He; [|done].
    change cleaned
      with (user +:+ "/" +:+ name +:+ "/tree" +:+ String "/"%char (br +:+ rest)) in He.
    rewrite <- !str_app_assoc in He. apply endsWith_git_after_slash in He. congruence. }
  unfold repoAndBranch. cbv zeta. rewrite Hclean.
  assert (Hinc : includes cleaned "/tree/" = true).
  { apply includes_spec. exists (user +:+ "/" +:+ name), (br +:+ rest).
    unfold cleaned. by rewrite !str_app_assoc. }
  rewrite Hinc.
  assert (Hsplit : splitStr "/tree/" 0 EmptyString cleaned
                   = (user +:+ "/" +:+ name) :: splitStr "/tree/" 0 EmptyString (br +:+ rest)).
  { replace cleaned with ((user +:+ "/" +:+ name) +:+ "/tree/" +:+ br +:+ rest)
      by (unfold cleaned; by rewrite !str_app_assoc).
    rewrite splitStr_first; [done|done|]. by apply noStart_repo. }
  rewrite Hsplit. simpl. f_equal. f_equal.
  rewrite (splitStr_no_slash "tree/" EmptyString br rest) by (by apply plainName_slash).
  rewrite str_app_nil_l.
  destruct (splitStr_head "/tree/" br rest) as (y & z & l & Hyz & ->). simpl.
  rewrite branch_of_piece; [done|done|].
  destruct Hrest as [-> | [rest' ->]].
  - left. by destruct y.
  - destruct y as [|ch y]; [by left|]. right. str_simpl in Hyz. injection Hyz as <- _.
    by eexists.
Qed.

(** An address with [/tree/] and a branch after [user/name], with the
    address of the site in front or not and a path behind or not, gives the
    fetcher of the repository [user/name] on that branch. The repository
    must not be called [tree], and the address must not end in [.git]. *)
Theorem newGitHubFetcher_tree (site user name br rest : string) :
  site = EmptyString ∨ site = "https://github.com/"%string
    ∨ site = "http://github.com/"%string →
  plainName user → plainName name → plainName br → name ≠ "tree"%string →
  branchRest rest → endsWith (br +:+ rest) ".git" = false →
  newGitHubFetcher (site +:+ user +:+ "/" +:+ name +:+ "/tree/" +:+ br +:+ rest)
  = {| repo := user +:+ "/" +:+ name; branch := Some br;
       baseUrl := "https://api.github.com/repos/" +:+ (user +:+ "/" +:+ name)
                  +:+ "/contents" |}.
Proof.
  intros Hsite Hu Hn Hbr Htree Hrest Hgit.
  by apply newGitHubFetcher_of, repoAndBranch_tree.
Qed.

Lemma newGitHubFetcher_tree_witness :
  newGitHubFetcher ("https://github.com/" +:+ "ImSota" +:+ "/" +:+ "zmk-config" +:+ "/tree/"
                    +:+ "main" +:+ "/config")
  = {| repo := "ImSota" +:+ "/" +:+ "zmk-config"; branch := Some "main"%string;
       baseUrl := "https://api.github.com/repos/"
                  +:+ ("ImSota" +:+ "/" +:+ "zmk-config") +:+ "/contents" |}.
Proof.
  apply (newGitHubFetcher_tree "https://github.com/" "ImSota" "zmk-config" "main" "/config").
  - right. by left.
  - split; [done|]. repeat constructor; discriminate.
  - split; [done|]. repeat constructor; discriminate.
  - split; [done|]. repeat constructor; discriminate.
  - discriminate.
  - split; [by repeat constructor|]. right. by eexists.
  - reflexivity.
Defined.

(** * A pin list as the device tree writes it *)


Lemma upTo_none stop a : Forall (λ ch, ch ≠ stop) (chars a) → upTo stop a = None.
Proof.
  induction a as [|ch a IH]; intros Ha; [done|].
  apply Forall_cons in Ha as [Hch Ha]. simpl.
  rewrite bool_decide_false by done. by rewrite IH.
Qed.














(** * A matrix map as the device tree writes it *)

Lemma digitsFrom_app acc ds s :
  Forall (λ ch, isDigit ch = true) (chars ds) →
  digitsFrom acc (ds +:+ s) = digitsFrom (digitsFrom acc ds).1 s.
Proof.
  revert acc. induction ds as [|ch ds IH]; intros acc Hds.
  - by rewrite str_app_nil_l.
  - apply Forall_cons in Hds as [Hch Hds]. rewrite str_app_cons. simpl. rewrite Hch.
    by apply IH.
Qed.

Lemma digitsFrom_stop acc ch s :
  isDigit ch = false → digitsFrom acc (String ch s) = (acc, String ch s).
Proof. intros Hch. simpl. by rewrite Hch. Qed.

Lemma digitsAt_number ds ch s :
  digits ds → isDigit ch = false →
  digitsAt (ds +:+ String ch s) = Some (parseInt ds, String ch s).
Proof.
  intros [Hne Hds] Hch. unfold digitsAt, parseInt.
  rewrite digitsFrom_app, digitsFrom_stop by done.
  destruct ds as [|d ds]; [done|]. rewrite str_app_cons.
  apply Forall_cons in Hds as [-> _]. done.
Qed.

Lemma skipSpace_digits ds s : digits ds → skipSpace (ds +:+ s) = ds +:+ s.
Proof.
  intros [Hne Hds]. destruct ds as [|d ds]; [done|]. rewrite str_app_cons.
  apply Forall_cons in Hds as [Hd _]. simpl.
  assert (Hsp : isSpace d = false).
  { unfold isDigit in Hd. apply bool_decide_eq_true in Hd. unfold isSpace.
    rewrite !bool_decide_false by lia. done. }
  by rewrite Hsp.
Qed.

Lemma rcAt_cell cell s :
  digits cell.1 → digits cell.2 →
  rcAt (rcText cell +:+ s) = Some (rcEntry cell, s).
Proof.
  intros H1 H2. unfold rcAt, rcText.
  replace (("RC(" +:+ cell.1 +:+ "," +:+ cell.2 +:+ ")") +:+ s)
    with ("RC(" +:+ (cell.1 +:+ String ","%char (cell.2 +:+ String ")"%char s)))
    by (by rewrite !str_app_assoc).
  rewrite prefix_app, (dropStr_app "RC(").
  rewrite skipSpace_digits, digitsAt_number by done.
  change (skipSpace (String ","%char ?x)) with (String ","%char x).
  change (charAt ","%char (String ","%char ?x)) with (Some x).
  cbv beta iota.
  rewrite skipSpace_digits, digitsAt_number by done.
  reflexivity.
Qed.

Lemma rcScan_skip a s : rcScan (String.length a) (a +:+ s) = rcScan 0 s.
Proof.
  induction a as [|ch a IH]; [by rewrite str_app_nil_l|].
  rewrite str_app_cons. simpl. exact IH.
Qed.

Lemma rcScan_cell cell s :
  digits cell.1 → digits cell.2 →
  rcScan 0 (rcText cell +:+ s) = rcEntry cell :: rcScan 0 s.
Proof.
  intros H1 H2. pose proof (rcAt_cell cell s H1 H2) as Hat.
  unfold rcText in *.
  set (a := "C(" +:+ cell.1 +:+ "," +:+ cell.2 +:+ ")").
  change (("RC(" +:+ cell.1 +:+ "," +:+ cell.2 +:+ ")") +:+ s)
    with (String "R"%char (a +:+ s)) in *.
  change (rcScan 0 (String "R"%char (a +:+ s)))
    with (match rcAt (String "R"%char (a +:+ s)) with
          | Some (m, rest) =>
              m :: rcScan (String.length (a +:+ s) - String.length rest) (a +:+ s)
          | None => rcScan 0 (a +:+ s)
          end).
  rewrite Hat, str_length_app.
  replace (String.length a + String.length s - String.length s) with (String.length a)
    by lia.
  by rewrite rcScan_skip.
Qed.

Lemma rcScan_cells cells :
  Forall (λ cell, digits cell.1 ∧ digits cell.2) cells →
  rcScan 0 (rcCells cells) = map rcEntry cells.
Proof.
  induction 1 as [|cell cells [H1 H2] Hcells IH]; [done|]. simpl rcCells.
  rewrite rcScan_cell by done. simpl. f_equal.
  change (" " +:+ rcCells cells) with (String " "%char (rcCells cells)).
  change (rcScan 0 (String " "%char (rcCells cells))) with (rcScan 0 (rcCells cells)).
  exact IH.
Qed.

Lemma upToClose_cons2 ch ch2 s :
  upToClose (String ch (String ch2 s))
  = if bool_decide (ch = ">"%char) && bool_decide (ch2 = ";"%char) then Some EmptyString
    else match upToClose (String ch2 s) with
         | Some block => Some (String ch block)
         | None => None
         end.
Proof. reflexivity. Qed.

Lemma upToClose_body body rest :
  Forall (λ ch, ch ≠ ">"%char) (chars body) →
  upToClose (body +:+ ">;" +:+ rest) = Some body.
Proof.
  induction body as [|ch body IH]; intros Hbody.
  - rewrite str_app_nil_l. reflexivity.
  - apply Forall_cons in Hbody as [Hch Hbody]. rewrite str_app_cons.
    destruct (body +:+ ">;" +:+ rest) as [|ch2 s2] eqn:Hs.
    { destruct body; discriminate. }
    rewrite upToClose_cons2, (bool_decide_false (ch = ">"%char)) by done.
    cbn [andb]. rewrite IH by exact Hbody. done.
Qed.

Lemma digit_not_close ch : isDigit ch = true → ch ≠ ">"%char.
Proof. by intros Hd ->. Qed.

Lemma rcCells_no_close cells :
  Forall (λ cell, digits cell.1 ∧ digits cell.2) cells →
  Forall (λ ch, ch ≠ ">"%char) (chars (rcCells cells)).
Proof.
  induction 1 as [|cell cells [[_ H1] [_ H2]] Hcells IH]; [done|].
  simpl rcCells. unfold rcText. rewrite !chars_app.
  repeat (apply Forall_app; split); try done; try (by repeat constructor);
    (eapply Forall_impl; [eassumption|]); intros ch; apply digit_not_close.
Qed.

Lemma firstMatch_here {A} (f : string → option A) s a :
  f s = Some a → firstMatch f s = Some a.
Proof. intros Hf. destruct s; simpl; by rewrite Hf. Qed.

(** A map written as the device tree writes it, [map = <RC(0,0) RC(0,1)
    ...>;], gives the entries of its cells, in their order, each with the
    two numbers read to their last digit. *)
Theorem fileMap_cells (cells : list (string * string)) :
  Forall (λ cell, digits cell.1 ∧ digits cell.2) cells →
  fileMap (mapProperty cells) = Some (map rcEntry cells).
Proof.
  intros Hcells. unfold fileMap.
  assert (Hinc : includes (mapProperty cells) "map = <" = true).
  { apply includes_spec. by exists EmptyString, (rcCells cells +:+ ">;"). }
  rewrite Hinc.
  assert (Hat : mapAt (mapProperty cells) = Some (rcCells cells)).
  { unfold mapAt, mapProperty, assignAt.
    change ("map = <" +:+ rcCells cells +:+ ">;")
      with ("map" +:+ String " "%char (String "="%char (String " "%char (String "<"%char
              (rcCells cells +:+ ">;"))))).
    rewrite prefix_app, (dropStr_app "map").
    change (skipSpace (String " "%char (String "="%char ?x))) with (String "="%char x).
    cbv beta iota.
    change (skipSpace (String " "%char (String "<"%char ?x))) with (String "<"%char x).
    change (charAt "<"%char (String "<"%char ?x)) with (Some x).
    cbv beta iota.
    rewrite <- (str_app_nil_r (rcCells cells +:+ ">;")), str_app_assoc.
    apply upToClose_body. by apply rcCells_no_close. }
  rewrite (firstMatch_here mapAt _ _ Hat). by rewrite rcScan_cells.
Qed.

Lemma fileMap_cells_witness :
  fileMap (mapProperty [("0", "0"); ("1", "10"); ("12", "3")]%string)
  = Some (map rcEntry [("0", "0"); ("1", "10"); ("12", "3")]%string).
Proof.
  apply (fileMap_cells [("0", "0"); ("1", "10"); ("12", "3")]%string).
  repeat constructor; simpl; discriminate.
Defined.
